(** * DocsPage: document resolution and structural analysis

    A shallow embedding of [src/features/docs/pages/DocsPage.tsx]:
    [slugify], [normalizeMd], the module-level [docCache] with [loadDoc],
    the document enumeration and resolution effect of [DocsPage], the
    table-of-contents extraction, and the pure parts of the rendering: the
    anchors of headings, the link component, the links to the previous and
    the next topic, the rows of the outline and the callback that tracks the
    active heading.

    JavaScript strings are sequences of UTF-16 code units; they are modelled
    as lists of code-unit values.  Regular expressions of the source are kept
    as syntax and run by a small backtracking matcher that follows the
    ECMAScript matching rules for the constructs the source uses. *)

From Stdlib Require Import NArith ZArith QArith Lia List Bool String Ascii.
From Stdlib Require Import Sorting.Sorted Sorting.Permutation.
From Stdlib Require Import DecimalString DecimalNat.
From stdpp Require Import base option list gmap.

Local Open Scope list_scope.

(** ** Strings *)

Module Js.

Local Open Scope N_scope.

Definition jchar := N.
Definition jstring := list jchar.

Definition chr (a : ascii) : jchar := N_of_ascii a.

(** [u "text"] is the string whose code units are the bytes of an ASCII
    literal. *)
Definition u (s : string) : jstring := List.map chr (list_ascii_of_string s).

(** LineTerminator: LF, CR, LS, PS. *)
Definition isLineTerminator (c : jchar) : bool :=
  (c =? 10) || (c =? 13) || (c =? 8232) || (c =? 8233).

(** The class [\s], which is also what [trim] strips: WhiteSpace
    (TAB, VT, FF, SP, NBSP, ZWNBSP and the Zs category) and LineTerminator. *)
Definition isSpace (c : jchar) : bool :=
  ((9 <=? c) && (c <=? 13)) || (c =? 32) || (c =? 160) || (c =? 5760)
  || ((8192 <=? c) && (c <=? 8202)) || (c =? 8232) || (c =? 8233)
  || (c =? 8239) || (c =? 8287) || (c =? 12288) || (c =? 65279).

Definition isDigit (c : jchar) : bool := (48 <=? c) && (c <=? 57).
Definition isLower (c : jchar) : bool := (97 <=? c) && (c <=? 122).
Definition isUpper (c : jchar) : bool := (65 <=? c) && (c <=? 90).

(** The class [\w]. *)
Definition isWord (c : jchar) : bool :=
  isLower c || isUpper c || isDigit c || (c =? 95).

Definition isAscii (c : jchar) : bool := c <? 128.

Definition asciiLower (c : jchar) : jchar := if isUpper c then c + 32 else c.
Definition asciiUpper (c : jchar) : jchar := if isLower c then c - 32 else c.

Fixpoint takeWhile (p : jchar -> bool) (s : jstring) : jstring :=
  match s with
  | c :: s' => if p c then c :: takeWhile p s' else []
  | [] => []
  end.

Fixpoint dropWhile (p : jchar -> bool) (s : jstring) : jstring :=
  match s with
  | c :: s' => if p c then dropWhile p s' else s
  | [] => []
  end.

Definition trimStart (s : jstring) : jstring := dropWhile isSpace s.
Definition trimEnd (s : jstring) : jstring := rev (dropWhile isSpace (rev s)).
Definition trim (s : jstring) : jstring := trimEnd (trimStart s).

Fixpoint startsWith (s p : jstring) : bool :=
  match p, s with
  | [], _ => true
  | a :: p', b :: s' => (a =? b) && startsWith s' p'
  | _ :: _, [] => false
  end.

Definition eqs (a b : jstring) : bool := bool_decide (a = b).

Definition isEmpty (s : jstring) : bool :=
  match s with
  | [] => true
  | _ :: _ => false
  end.

(** [s.split(sep)] for a one-unit separator: never empty, [""] splits
    to [[""]]. *)
Fixpoint split (sep : jchar) (s : jstring) : list jstring :=
  match s with
  | [] => [[]]
  | c :: s' =>
      if c =? sep then [] :: split sep s'
      else match split sep s' with
           | l :: ls => (c :: l) :: ls
           | [] => [[c]]
           end
  end.

(** [a.join(sep)]. *)
Fixpoint join (sep : jstring) (ls : list jstring) : jstring :=
  match ls with
  | [] => []
  | [l] => l
  | l :: ls' => l ++ sep ++ join sep ls'
  end.

End Js.
Export Js.

(** ** Regular expressions *)

Module Regex.

(** What a lookahead alternative may be: one character of a class, or [$]. *)
Inductive look : Type :=
  | LSet (cs : jchar -> bool)
  | LEnd.

(** A pattern is a sequence of atoms.  [Rep cs lo hi] is a character class
    under a greedy quantifier ([{lo,hi}], with [None] for no upper bound:
    a bare class is [{1,1}], [?] is [{0,1}], [*] is [{0,}], [+] is [{1,}]).
    [Open] and [Close] delimit capture groups. *)
Inductive atom : Type :=
  | Rep (cs : jchar -> bool) (lo : nat) (hi : option nat)
  | Bol
  | Eol
  | WordB
  | Ahead (alts : list look)
  | Open
  | Close.

Record regex : Type := Re { atoms : list atom; multiline : bool }.

Definition one (cs : jchar -> bool) : atom := Rep cs 1 (Some 1).
Definition opt (cs : jchar -> bool) : atom := Rep cs 0 (Some 1).
Definition star (cs : jchar -> bool) : atom := Rep cs 0 None.
Definition plus (cs : jchar -> bool) : atom := Rep cs 1 None.

Definition lit (a : ascii) : jchar -> bool := fun c => N.eqb c (chr a).
(** A letter under the [i] flag: both cases canonicalize to the same unit,
    and no unit outside ASCII canonicalizes to an ASCII one. *)
Definition litCi (a : ascii) : jchar -> bool :=
  fun c => N.eqb (asciiUpper c) (asciiUpper (chr a)).
Definition dot : jchar -> bool := fun c => negb (isLineTerminator c).

(** Length of the longest run of class members at the head of [s], capped. *)
Fixpoint maxRun (cs : jchar -> bool) (hi : option nat) (s : jstring) : nat :=
  match hi, s with
  | Some O, _ => O
  | _, [] => O
  | _, c :: s' =>
      if cs c then S (maxRun cs (option_map Nat.pred hi) s') else O
  end.

(** The unit before the position reached after consuming [k] units of [s]. *)
Definition prevAfter (prev : option jchar) (s : jstring) (k : nat) : option jchar :=
  match k with
  | O => prev
  | S k' => match nth_error s k' with Some c => Some c | None => prev end
  end.

Definition atBol (ml : bool) (prev : option jchar) : bool :=
  match prev with
  | None => true
  | Some c => ml && isLineTerminator c
  end.

Definition atEol (ml : bool) (s : jstring) : bool :=
  match s with
  | [] => true
  | c :: _ => ml && isLineTerminator c
  end.

Definition isWordAt (o : option jchar) : bool :=
  match o with Some c => isWord c | None => false end.

Definition lookOk (ml : bool) (s : jstring) (l : look) : bool :=
  match l with
  | LSet cs => match s with c :: _ => cs c | [] => false end
  | LEnd => atEol ml s
  end.

(** The result of a match at a position: the input remaining at each group
    boundary, in pattern order, and the input remaining after the match. *)
Definition mresult : Type := list jstring * jstring.

Definition mark (s : jstring) (r : option mresult) : option mresult :=
  match r with
  | Some (ms, e) => Some (s :: ms, e)
  | None => None
  end.

(** Greedy repetition with backtracking: [n] units have been taken; the
    continuation [k] is tried there, then with one unit given back at a time,
    never with fewer than [lo] units. *)
Fixpoint backFrom (k : option jchar -> jstring -> option mresult) (lo : nat)
  (prev : option jchar) (s : jstring) (n : nat) : option mresult :=
  match (if (lo <=? n)%nat then k (prevAfter prev s n) (skipn n s) else None) with
  | Some res => Some res
  | None =>
      match n with
      | O => None
      | S n' => backFrom k lo prev s n'
      end
  end.

(** Backtracking match of a sequence at the current position.  A quantified
    class first takes its longest run. *)
Fixpoint matchSeq (ml : bool) (r : list atom) (prev : option jchar) (s : jstring)
  {struct r} : option mresult :=
  match r with
  | [] => Some ([], s)
  | a :: r' =>
      match a with
      | Rep cs lo hi => backFrom (matchSeq ml r') lo prev s (maxRun cs hi s)
      | Bol => if atBol ml prev then matchSeq ml r' prev s else None
      | Eol => if atEol ml s then matchSeq ml r' prev s else None
      | WordB =>
          if xorb (isWordAt prev) (isWordAt (head s))
          then matchSeq ml r' prev s else None
      | Ahead alts =>
          if existsb (lookOk ml s) alts then matchSeq ml r' prev s else None
      | Open | Close => mark s (matchSeq ml r' prev s)
      end
  end.

Definition matchAt (re : regex) (prev : option jchar) (s : jstring) : option mresult :=
  matchSeq (multiline re) (atoms re) prev s.

(** The text between two remaining-input snapshots. *)
Definition between (from to : jstring) : jstring :=
  firstn (length from - length to) from.

Fixpoint groups (ms : list jstring) : list jstring :=
  match ms with
  | o :: c :: ms' => between o c :: groups ms'
  | _ => []
  end.

(** [re.exec(s)] for a pattern without the [g] flag: the leftmost match,
    as the whole match followed by the capture groups. *)
Fixpoint execFrom (re : regex) (prev : option jchar) (s : jstring) : option (list jstring) :=
  match matchAt re prev s with
  | Some (ms, e) => Some (between s e :: groups ms)
  | None =>
      match s with
      | [] => None
      | c :: s' => execFrom re (Some c) s'
      end
  end.

Definition exec (re : regex) (s : jstring) : option (list jstring) :=
  execFrom re None s.

(** [s.replace(re, f)] with the [g] flag: every leftmost non-overlapping
    match is replaced by [f] of the matched text; after an empty match the
    scan moves on by one unit.  [skip] counts the units of the current match
    still to be passed over. *)
Fixpoint gsub (re : regex) (f : jstring -> jstring) (prev : option jchar)
  (s : jstring) (skip : nat) {struct s} : jstring :=
  match skip with
  | S n =>
      match s with
      | [] => []
      | c :: s' => gsub re f (Some c) s' n
      end
  | O =>
      match matchAt re prev s with
      | Some (_, e) =>
          let m := between s e in
          f m ++ match s with
                 | [] => []
                 | c :: s' =>
                     match length m with
                     | O => c :: gsub re f (Some c) s' O
                     | S n => gsub re f (Some c) s' n
                     end
                 end
      | None =>
          match s with
          | [] => []
          | c :: s' => c :: gsub re f (Some c) s' O
          end
      end
  end.

Definition replaceAll (re : regex) (f : jstring -> jstring) (s : jstring) : jstring :=
  gsub re f None s O.

(** [s.replace(re, f)] without the [g] flag: only the leftmost match. *)
Fixpoint replaceFrom (re : regex) (f : jstring -> jstring) (prev : option jchar)
  (s : jstring) : jstring :=
  match matchAt re prev s with
  | Some (_, e) => f (between s e) ++ e
  | None =>
      match s with
      | [] => []
      | c :: s' => c :: replaceFrom re f (Some c) s'
      end
  end.

Definition replaceFirst (re : regex) (f : jstring -> jstring) (s : jstring) : jstring :=
  replaceFrom re f None s.

End Regex.
Export Regex.

(** ** [slugify] *)

(** [/[^a-z0-9\s-]/g] *)
Definition re_nonslug : regex :=
  Re [one (fun c => negb (isLower c || isDigit c || isSpace c || lit "-" c))] false.

(** [/\s+/g] *)
Definition re_spaces : regex := Re [plus isSpace] false.

Section Slugify.

(** [String.prototype.toLowerCase] follows the Unicode case mapping tables,
    which are part of the runtime; only its action on ASCII text is fixed
    here ([lower_ascii] below). *)
Variable toLowerCase : jstring -> jstring.

Definition slugify (text : jstring) : jstring :=
  replaceAll re_spaces (fun _ => u "-")
    (trim (replaceAll re_nonslug (fun _ => u "") (toLowerCase text))).

End Slugify.

(** The ASCII fragment of the case mapping, used to run examples. *)
Definition lowerAsciiOnly (s : jstring) : jstring := List.map asciiLower s.

(** *** Direct readings of the two patterns of [slugify] *)

(** The class [[a-z0-9\s-]] that survives the first replacement. *)
Definition slugKeep (c : jchar) : bool :=
  isLower c || isDigit c || isSpace c || lit "-" c.

(** Each run of whitespace becomes one hyphen; [inRun] tells that the
    previous unit was whitespace. *)
Fixpoint hyphenate (inRun : bool) (s : jstring) : jstring :=
  match s with
  | [] => []
  | c :: s' =>
      if isSpace c
      then (if inRun then hyphenate true s' else chr "-" :: hyphenate true s')
      else c :: hyphenate false s'
  end.

(** What a finished slug is made of. *)
Definition slugUnit (c : jchar) : bool := isLower c || isDigit c || lit "-" c.


(** ** [normalizeMd] *)

Definition LF : jchar := 10%N.
Definition CR : jchar := 13%N.
Definition eqc (a : jchar) : jchar -> bool := fun c => N.eqb c a.

(** [/\r\n?/g] *)
Definition re_eol : regex := Re [one (eqc CR); opt (eqc LF)] false.

(** [/<br\s*\/?>(?=\s|$)/gi] *)
Definition re_br : regex :=
  Re [one (lit "<"); one (litCi "b"); one (litCi "r"); star isSpace;
      opt (lit "/"); one (lit ">"); Ahead [LSet isSpace; LEnd]] false.

Definition unifyEol (raw : jstring) : jstring :=
  replaceAll re_eol (fun _ => [LF]) raw.

Definition breakTags (t : jstring) : jstring :=
  replaceAll re_br (fun _ => [LF]) t.

Definition isFenceLine (t : jstring) : bool :=
  startsWith (trimStart t) (u "```").

(** The loop of [normalizeMd] over the lines, with its [inFence] flag; the
    result is [out]. *)
Fixpoint normalizeLines (lines : list jstring) (inFence : bool) : list jstring :=
  match lines with
  | [] => []
  | t :: rest =>
      if isFenceLine t then t :: normalizeLines rest (negb inFence)
      else if inFence then t :: normalizeLines rest inFence
      else breakTags t :: normalizeLines rest inFence
  end.

Definition normalizeMd (raw : jstring) : jstring :=
  join [LF] (normalizeLines (split LF (unifyEol raw)) false).

(** *** Direct readings used to state what [normalizeMd] does *)

(** CR LF and lone CR both become LF. *)
Fixpoint unifySpec (s : jstring) : jstring :=
  match s with
  | [] => []
  | c :: s' =>
      if eqc CR c
      then LF :: match s' with
                 | d :: s'' => if eqc LF d then unifySpec s'' else unifySpec s'
                 | [] => []
                 end
      else c :: unifySpec s'
  end.

(** Line [i] lies inside a fence when an odd number of delimiter lines
    precede it. *)
Definition insideFence (lines : list jstring) (i : nat) : bool :=
  Nat.odd (length (List.filter isFenceLine (firstn i lines))).

(** The break markers named by the specification, in any letter case. *)
Definition isBreakTag (m : jstring) : bool :=
  existsb (eqs (List.map asciiLower m)) [u "<br>"; u "<br/>"; u "<br />"].

(** What may follow a standalone marker: whitespace, or the end of the line. *)
Definition standsAlone (post : jstring) : bool :=
  match post with
  | [] => true
  | c :: _ => isSpace c
  end.

(** No class of the pattern accepts the unit [x]. *)
Definition rejects (x : jchar) (a : atom) : bool :=
  match a with
  | Rep cs _ _ => negb (cs x)
  | Ahead alts =>
      forallb (fun l => match l with LSet cs => negb (cs x) | LEnd => true end) alts
  | _ => true
  end.

(** The pattern inspects neither the unit before a position nor word
    boundaries. *)
Definition forwardOnly (a : atom) : bool :=
  match a with
  | Bol | WordB => false
  | _ => true
  end.

(** A match result found on a shorter input, carried over to the input
    extended by [t]. *)
Definition attach (t : jstring) (r : mresult) : mresult :=
  (List.map (fun m => m ++ t) (fst r), snd r ++ t).

(** ** [loadDoc]: the value computed for a document *)

Module DocCacheValue.
Record t : Type := Make { normalized : jstring; title : option jstring }.
End DocCacheValue.

(** [/^\s*#\s+(.+)$/m] *)
Definition re_heading : regex :=
  Re [Bol; star isSpace; one (lit "#"); plus isSpace; Open; plus dot; Close; Eol]
     true.

(** [/^\s*#\s+(.+)$/m.exec(raw)?.[1].trim()] *)
Definition heading (raw : jstring) : option jstring :=
  match exec re_heading raw with
  | Some (_ :: g1 :: _) => Some (trim g1)
  | _ => None
  end.

(** What the cached promise of [loadDoc] fulfils with once the loader has
    produced [raw]. *)
Definition docValue (raw : jstring) : DocCacheValue.t :=
  DocCacheValue.Make (normalizeMd raw) (heading raw).

(** *** Direct readings of the title extraction *)

(** The title read at a line start [s]: optional whitespace, one ["#"],
    whitespace, then the text up to the end of its line.  Whitespace includes
    line breaks; when nothing but whitespace follows the ["#"], the text is
    a piece of that whitespace and trims to the empty title. *)
Definition headingAt (s : jstring) : option jstring :=
  match dropWhile isSpace s with
  | c :: s2 =>
      if lit "#" c
      then match takeWhile isSpace s2, dropWhile isSpace s2 with
           | [], _ => None
           | _ :: _, _ :: _ => Some (trim (takeWhile dot (dropWhile isSpace s2)))
           | _ :: gapTail, [] => if existsb dot gapTail then Some [] else None
           end
      else None
  | [] => None
  end.

(** The scan over the raw text, line start by line start; the first title
    found wins. *)
Fixpoint headingScan (atLineStart : bool) (s : jstring) : option jstring :=
  match (if atLineStart then headingAt s else None) with
  | Some t => Some t
  | None =>
      match s with
      | [] => None
      | c :: s' => headingScan (isLineTerminator c) s'
      end
  end.

(** The title as the specification words it: the first line of the
    normalized text that is one or more ["#"], a space, and text; trimmed. *)
Definition claimedHeadingLine (line : jstring) : option jstring :=
  match takeWhile (lit "#") line, dropWhile (lit "#") line with
  | _ :: _, sp :: text =>
      if lit " " sp && negb (isEmpty text) then Some (trim text) else None
  | _, _ => None
  end.

Fixpoint firstSome {A B : Type} (f : A -> option B) (l : list A) : option B :=
  match l with
  | [] => None
  | x :: l' =>
      match f x with
      | Some y => Some y
      | None => firstSome f l'
      end
  end.

Definition claimedTitle (normalized : jstring) : option jstring :=
  firstSome claimedHeadingLine (split LF normalized).

(** ** The table of contents *)

Module TocItem.
Record t : Type := Make { id : jstring; text : jstring; level : nat }.
End TocItem.

(** [/^(#{1,6})\s+(.+)$/] *)
Definition re_tocline : regex :=
  Re [Bol; Open; Rep (lit "#") 1 (Some 6%nat); Close; plus isSpace;
      Open; plus dot; Close; Eol] false.

(** [/`/g] *)
Definition re_backtick : regex := Re [one (lit "`")] false.

Section Toc.

Variable toLowerCase : jstring -> jstring.

(** The body of the loop of [toc] for one line. *)
Definition tocLine (line : jstring) : option TocItem.t :=
  match exec re_tocline (trim line) with
  | Some (_ :: m1 :: m2 :: _) =>
      let level := length m1 in
      let text := trim (replaceAll re_backtick (fun _ => []) m2) in
      let id := slugify toLowerCase text in
      Some (TocItem.Make id text level)
  | _ => None
  end.

Definition toc (content : jstring) : list TocItem.t :=
  fold_left
    (fun items line =>
       match tocLine line with
       | Some it => items ++ [it]
       | None => items
       end)
    (split LF content) [].

End Toc.

(** *** Direct reading of the heading-line pattern *)

Definition notBacktick (c : jchar) : bool := negb (lit "`" c).

Section TocSpec.

Variable toLowerCase : jstring -> jstring.

(** The entry for given heading marks and remaining text. *)
Definition tocEntry (hashes rest : jstring) : TocItem.t :=
  let text := trim (List.filter notBacktick rest) in
  TocItem.Make (slugify toLowerCase text) text (length hashes).

(** A trimmed line yields an entry when it is one to six ["#"], then
    whitespace, then non-empty text holding no line terminator. *)
Definition tocLineSpec (line : jstring) : option TocItem.t :=
  let t := trim line in
  let hashes := takeWhile (lit "#") t in
  let after := dropWhile (lit "#") t in
  let gap := takeWhile isSpace after in
  let rest := dropWhile isSpace after in
  if (1 <=? length hashes)%nat && (length hashes <=? 6)%nat
     && negb (isEmpty gap) && negb (isEmpty rest) && forallb dot rest
  then Some (tocEntry hashes rest)
  else None.

End TocSpec.

(** ** Enumeration of the documents of a language *)

(** The values the [order] field takes: [Number.NEGATIVE_INFINITY], the
    value of a two- or three-digit prefix, [Number.POSITIVE_INFINITY]. *)
Inductive order : Type :=
  | NegInf
  | Fin (n : N)
  | PosInf.

Module Item.
Record t : Type := Make {
  fileKey : jstring;
  slug : jstring;
  displaySlug : jstring;
  title : jstring;
  order : order
}.
End Item.

Module Topic.
Record t : Type := Make { slug : jstring; title : jstring }.
End Topic.

(** [/\.md$/] *)
Definition re_md : regex := Re [one (lit "."); one (lit "m"); one (lit "d"); Eol] false.

(** [/^(\d{2,3})[_-](.+)$/] *)
Definition re_order : regex :=
  Re [Bol; Open; Rep isDigit 2 (Some 3%nat); Close;
      one (fun c => lit "_" c || lit "-" c); Open; plus dot; Close; Eol] false.

(** [/[-_]/g] *)
Definition re_sep : regex := Re [one (fun c => lit "-" c || lit "_" c)] false.

(** [/\b\w/g] *)
Definition re_wordstart : regex := Re [WordB; one isWord] false.

(** [parseInt(digits, 10)] on a run of ASCII digits. *)
Definition parseInt10 (digits : jstring) : N :=
  fold_left (fun n c => (n * 10 + (c - 48))%N) digits 0%N.

(** [k.split("/").pop()] *)
Definition lastSegment (k : jstring) : jstring := List.last (split (chr "/") k) [].

(** The matched word characters are ASCII, where [toUpperCase] is fixed. *)
Definition fallbackTitle (displaySlug : jstring) : jstring :=
  replaceAll re_wordstart (List.map asciiUpper)
    (replaceAll re_sep (fun _ => u " ") displaySlug).

Definition toItem (k : jstring) : Item.t :=
  let filename := lastSegment k in
  let base := replaceFirst re_md (fun _ => []) filename in
  let '(order, displaySlug) :=
    match exec re_order base with
    | Some (_ :: m1 :: m2 :: _) => (Fin (parseInt10 m1), m2)
    | _ => if eqs base (u "index") then (NegInf, u "index") else (PosInf, base)
    end in
  Item.Make k base displaySlug (fallbackTitle displaySlug) order.

(** [a.order === b.order] *)
Definition orderEq (a b : order) : bool :=
  match a, b with
  | NegInf, NegInf | PosInf, PosInf => true
  | Fin m, Fin n => N.eqb m n
  | _, _ => false
  end.

(** The sign of [a.order - b.order]; the difference of equal infinities is
    [NaN], which a sort treats as zero. *)
Definition orderSub (a b : order) : comparison :=
  match a, b with
  | Fin m, Fin n => N.compare m n
  | NegInf, NegInf | PosInf, PosInf => Eq
  | NegInf, _ | _, PosInf => Lt
  | _, NegInf | PosInf, _ => Gt
  end.

(** [Array.prototype.sort] is stable and, for a consistent comparator,
    produces the one stable sorted arrangement; insertion from the right
    computes it.  Only the sign of the comparator's result matters. *)
Section Sort.
Context {A : Type} (cmp : A -> A -> comparison).

Fixpoint insertSorted (x : A) (l : list A) : list A :=
  match l with
  | [] => [x]
  | y :: l' =>
      match cmp x y with
      | Gt => y :: insertSorted x l'
      | _ => x :: l
      end
  end.

Definition sort (l : list A) : list A := fold_right insertSorted [] l.

End Sort.

(** The document store: [docFiles] maps each key to a loader.  A loader is
    identified with what it produces: the raw text of the file, or a
    rejection. *)
Definition loader : Type := option jstring.

Definition lookupFile (docFiles : list (jstring * loader)) (k : jstring) : option loader :=
  match List.find (fun e => eqs (fst e) k) docFiles with
  | Some e => Some (snd e)
  | None => None
  end.

Section Documents.

Variable docFiles : list (jstring * loader).
(** [String.prototype.localeCompare], by sign. *)
Variable localeCompare : jstring -> jstring -> comparison.

Definition compareItems (a b : Item.t) : comparison :=
  if orderEq (Item.order a) (Item.order b)
  then localeCompare (Item.title a) (Item.title b)
  else orderSub (Item.order a) (Item.order b).

Definition contentPrefix (language : jstring) : jstring :=
  u "../content/" ++ language ++ u "/".

(** [keys], then [items] after [items.sort]. *)
Definition keys (language : jstring) : list jstring :=
  List.filter (fun k => startsWith k (contentPrefix language)) (List.map fst docFiles).

Definition items (language : jstring) : list Item.t :=
  sort compareItems (List.map toItem (keys language)).

Definition toTopic (i : Item.t) : Topic.t :=
  Topic.Make (Item.displaySlug i) (Item.title i).

Definition fallbackPath (language desired : jstring) : jstring :=
  u "../content/" ++ language ++ u "/" ++ desired ++ u ".md".

(** The key the effect settles on, [resolved]. *)
Definition resolved (language desired : jstring) : option jstring :=
  match List.find (fun i => eqs (Item.displaySlug i) desired) (items language) with
  | Some i => Some (Item.fileKey i)
  | None =>
      match lookupFile docFiles (fallbackPath language desired) with
      | Some _ => Some (fallbackPath language desired)
      | None => None
      end
  end.

Definition notFound (language desired : jstring) : jstring :=
  u "# 404" ++ [LF] ++ u "Not found: " ++ language ++ u "/" ++ desired.

End Documents.


(** *** Direct readings used to state how documents are enumerated *)

(** The file name without a final [".md"]. *)
Fixpoint stripMd (filename : jstring) : jstring :=
  if eqs filename (u ".md") then []
  else match filename with
       | [] => []
       | c :: s => c :: stripMd s
       end.

Definition isSep (c : jchar) : bool := lit "_" c || lit "-" c.

(** Two or three ASCII digits, then ["_"] or ["-"], then a remainder (one or
    more units, none a line terminator): the digits and the remainder. *)
Definition orderPrefix (base : jstring) : option (jstring * jstring) :=
  let digits := takeWhile isDigit base in
  match dropWhile isDigit base with
  | sep :: rem =>
      if (2 <=? length digits)%nat && (length digits <=? 3)%nat && isSep sep
         && negb (isEmpty rem) && forallb dot rem
      then Some (digits, rem)
      else None
  | [] => None
  end.

(** The order and the display slug of a stem. *)
Definition orderAndSlug (base : jstring) : order * jstring :=
  match orderPrefix base with
  | Some (digits, rem) => (Fin (parseInt10 digits), rem)
  | None =>
      if eqs base (u "index") then (NegInf, u "index") else (PosInf, base)
  end.

(** Negative infinity, then the numbers, then positive infinity. *)
Definition orderLt (a b : order) : Prop :=
  match a, b with
  | NegInf, Fin _ | NegInf, PosInf | Fin _, PosInf => True
  | Fin m, Fin n => (m < n)%N
  | _, _ => False
  end.

(** Ascending by order; among equal orders, by the comparison of titles. *)
Definition itemLe (localeCompare : jstring -> jstring -> comparison)
  (a b : Item.t) : Prop :=
  orderLt (Item.order a) (Item.order b)
  \/ (Item.order a = Item.order b
      /\ localeCompare (Item.title a) (Item.title b) <> Gt).

(** Comparison of strings by code units, a consistent comparator to run
    examples with. *)
Fixpoint codeUnitCompare (a b : jstring) : comparison :=
  match a, b with
  | [], [] => Eq
  | [], _ :: _ => Lt
  | _ :: _, [] => Gt
  | x :: a', y :: b' =>
      match N.compare x y with
      | Eq => codeUnitCompare a' b'
      | c => c
      end
  end.

(** ** The cache, the effect and the event loop *)

(** A promise of [loadDoc]: still awaiting the loader of its key, fulfilled
    with the document value, or rejected. *)
Inductive pstate : Type :=
  | Pending (fileKey : jstring)
  | Fulfilled (doc : DocCacheValue.t)
  | Rejected.

(** The callbacks an effect run leaves behind; [run] identifies the run whose
    [cancelled] variable the closure captured.
    [OnContent] is [loadDoc(resolved).then(...).catch(...)];
    [OnTopics] is [Promise.all(items.map(...)).then(...)], holding for each
    item the promise of its [loadDoc] call with its slug and fallback title. *)
Inductive cont : Type :=
  | OnContent (run : nat) (p : nat) (language desired : jstring)
  | OnTopics (run : nat) (entries : list (nat * Topic.t)).

Definition contRun (c : cont) : nat :=
  match c with
  | OnContent run _ _ _ => run
  | OnTopics run _ => run
  end.

(** The effect whose cleanup is due, with the dependencies it ran for. *)
Record mount : Type := Mount { mrun : nat; mlanguage : jstring; mtopic : jstring }.

Record state : Type := State {
  docCache : gmap jstring nat;   (* the promise stored under each key *)
  promises : list pstate;        (* every promise created, by identity *)
  loaderCalls : list jstring;    (* the loaders invoked, in order *)
  content : jstring;
  topics : list Topic.t;
  cancelled : list bool;         (* the [cancelled] variable of each run *)
  mounted : option mount;
  pending : list cont
}.

Definition initial : state := State ∅ [] [] [] [] [] None [].

Definition setContent (c : jstring) (st : state) : state :=
  State (docCache st) (promises st) (loaderCalls st) c (topics st)
        (cancelled st) (mounted st) (pending st).

Definition setTopics (t : list Topic.t) (st : state) : state :=
  State (docCache st) (promises st) (loaderCalls st) (content st) t
        (cancelled st) (mounted st) (pending st).

Definition setPending (q : list cont) (st : state) : state :=
  State (docCache st) (promises st) (loaderCalls st) (content st) (topics st)
        (cancelled st) (mounted st) q.

Definition setPromises (ps : list pstate) (st : state) : state :=
  State (docCache st) ps (loaderCalls st) (content st) (topics st)
        (cancelled st) (mounted st) (pending st).

Definition isCancelled (run : nat) (st : state) : bool :=
  match cancelled st !! run with
  | Some b => b
  | None => false
  end.

(** [if (!cancelled) { ... }] *)
Definition unlessCancelled (run : nat) (f : state -> state) (st : state) : state :=
  if isCancelled run st then st else f st.

(** What can happen to the page.  [Render] carries the values the
    component computes before the effect: [language], the language code
    already normalized by [normalizeLanguageCode], and [currentTopic], the
    topic parameter or ["index"] when there is none. *)
Inductive event : Type :=
  | Render (language topic : jstring)  (* the page renders with these parameters *)
  | Unmount
  | Settle (p : nat)                   (* the loader awaited by promise [p] settles *)
  | Run (i : nat).                     (* the [i]-th pending callback is scheduled *)

Section Page.

Variable docFiles : list (jstring * loader).
Variable localeCompare : jstring -> jstring -> comparison.

(** [loadDoc]: the promise returned, and the state after the call. *)
Definition loadDoc (fileKey : jstring) (st : state) : nat * state :=
  match lookupFile docFiles fileKey with
  | None =>
      (length (promises st), setPromises (promises st ++ [Rejected]) st)
  | Some _ =>
      match docCache st !! fileKey with
      | Some p => (p, st)
      | None =>
          let p := length (promises st) in
          (p, State (<[fileKey := p]> (docCache st))
                    (promises st ++ [Pending fileKey])
                    (loaderCalls st ++ [fileKey])
                    (content st) (topics st) (cancelled st) (mounted st)
                    (pending st))
      end
  end.

(** [items.map(async ({ fileKey, displaySlug, title }) => ...)]: every
    [loadDoc] call is made at once, in order. *)
Fixpoint loadAll (its : list Item.t) (st : state) : list (nat * Topic.t) * state :=
  match its with
  | [] => ([], st)
  | i :: its' =>
      let '(p, st1) := loadDoc (Item.fileKey i) st in
      let '(es, st2) := loadAll its' st1 in
      ((p, toTopic i) :: es, st2)
  end.

(** The cleanup function returned by the effect. *)
Definition cleanup (st : state) : state :=
  match mounted st with
  | Some m =>
      State (docCache st) (promises st) (loaderCalls st) (content st) (topics st)
            (<[mrun m := true]> (cancelled st)) None (pending st)
  | None => st
  end.

(** The body of the effect, up to its [return]. *)
Definition runEffect (language currentTopic : jstring) (st : state) : state :=
  let run := length (cancelled st) in
  let st :=
    State (docCache st) (promises st) (loaderCalls st) (content st) (topics st)
          (cancelled st ++ [false]) (Some (Mount run language currentTopic))
          (pending st) in
  let its := items docFiles localeCompare language in
  let st := unlessCancelled run (setTopics (List.map toTopic its)) st in
  let desired := currentTopic in
  let st :=
    match resolved docFiles localeCompare language desired with
    | Some k =>
        match lookupFile docFiles k with
        | Some _ =>
            let '(p, st1) := loadDoc k st in
            setPending (pending st1 ++ [OnContent run p language desired]) st1
        | None => setContent (notFound language desired) st
        end
    | None => setContent (notFound language desired) st
    end in
  let '(entries, st) := loadAll its st in
  setPending (pending st ++ [OnTopics run entries]) st.

(** A render runs the effect when its dependencies changed (or on mount),
    after the cleanup of the previous run. *)
Definition render (language topic : jstring) (st : state) : state :=
  match mounted st with
  | Some m =>
      if eqs (mlanguage m) language && eqs (mtopic m) topic then st
      else runEffect language topic (cleanup st)
  | None => runEffect language topic st
  end.

(** The loader awaited by a pending promise settles. *)
Definition settle (p : nat) (st : state) : state :=
  match promises st !! p with
  | Some (Pending k) =>
      match lookupFile docFiles k with
      | Some (Some raw) => setPromises (<[p := Fulfilled (docValue raw)]> (promises st)) st
      | _ => setPromises (<[p := Rejected]> (promises st)) st
      end
  | _ => st
  end.

(** [{ slug: displaySlug, title: doc.title ?? title }], or the [catch]
    branch. *)
Definition loadedTopic (ps : list pstate) (e : nat * Topic.t) : Topic.t :=
  match ps !! fst e with
  | Some (Fulfilled doc) =>
      Topic.Make (Topic.slug (snd e))
        (match DocCacheValue.title doc with
         | Some t => t
         | None => Topic.title (snd e)
         end)
  | _ => snd e
  end.

Definition isSettled (ps : list pstate) (p : nat) : bool :=
  match ps !! p with
  | Some (Fulfilled _) | Some Rejected => true
  | _ => false
  end.

(** What a callback does once the promise it waits for has settled; [None]
    while it has not. *)
Definition fire (c : cont) (st : state) : option state :=
  match c with
  | OnContent run p language desired =>
      match promises st !! p with
      | Some (Fulfilled doc) =>
          Some (unlessCancelled run (setContent (DocCacheValue.normalized doc)) st)
      | Some Rejected =>
          Some (unlessCancelled run (setContent (notFound language desired)) st)
      | _ => None
      end
  | OnTopics run entries =>
      if forallb (fun e => isSettled (promises st) (fst e)) entries
      then Some (unlessCancelled run
                   (setTopics (List.map (loadedTopic (promises st)) entries)) st)
      else None
  end.

Definition runCallback (i : nat) (st : state) : state :=
  match pending st !! i with
  | Some c =>
      match fire c st with
      | Some st' => setPending (delete i (pending st')) st'
      | None => st
      end
  | None => st
  end.

Definition step (st : state) (ev : event) : state :=
  match ev with
  | Render language topic => render language topic st
  | Unmount => cleanup st
  | Settle p => settle p st
  | Run i => runCallback i st
  end.

Definition exec_events (evs : list event) (st : state) : state :=
  fold_left step evs st.

(** The content a request is meant to end with. *)
Definition expectedContent (language desired : jstring) : jstring :=
  match resolved docFiles localeCompare language desired with
  | Some k =>
      match lookupFile docFiles k with
      | Some (Some raw) => normalizeMd raw
      | _ => notFound language desired
      end
  | None => notFound language desired
  end.

(** The topic list of stage 2, computed from the store alone. *)
Definition refinedTopic (i : Item.t) : Topic.t :=
  match lookupFile docFiles (Item.fileKey i) with
  | Some (Some raw) =>
      Topic.Make (Item.displaySlug i)
        (match heading raw with
         | Some t => t
         | None => Item.title i
         end)
  | _ => toTopic i
  end.

(** Every promise created so far has settled. *)
Definition allSettled (st : state) : Prop :=
  forall q, (q < length (promises st))%nat -> isSettled (promises st) q = true.

(** *** Invariants of the cache and of the page *)

(** What the promise of a key settles to. *)
Definition outcomeOf (l : loader) : pstate :=
  match l with
  | Some raw => Fulfilled (docValue raw)
  | None => Rejected
  end.

(** Every cached promise belongs to a key of the store and is either still
    pending on that key or settled to what the store holds for it; the
    loaders called are exactly the cached keys, each once. *)
Record cacheOk (st : state) : Prop := CacheOk {
  cache_promise :
    forall k p, docCache st !! k = Some p ->
      exists l, lookupFile docFiles k = Some l
        /\ (promises st !! p = Some (Pending k)
            \/ promises st !! p = Some (outcomeOf l));
  cache_calls_nodup : NoDup (loaderCalls st);
  cache_calls :
    forall k, In k (loaderCalls st) <-> is_Some (docCache st !! k)
}.

(** The promise a callback waits for is the cached promise of the key its
    request resolved to. *)
Definition contOk (st : state) (c : cont) : Prop :=
  match c with
  | OnContent _ p language desired =>
      exists k, resolved docFiles localeCompare language desired = Some k
        /\ docCache st !! k = Some p
  | OnTopics _ entries =>
      Forall (fun e => exists k, docCache st !! k = Some (fst e)) entries
  end.

(** The callbacks of the mounted run are those of its request. *)
Definition contOfMount (st : state) (m : mount) (c : cont) : Prop :=
  match c with
  | OnContent run _ language desired =>
      run = mrun m -> language = mlanguage m /\ desired = mtopic m
  | OnTopics run entries =>
      run = mrun m ->
      Forall2 (fun e i => docCache st !! Item.fileKey i = Some (fst e)
                          /\ snd e = toTopic i)
        entries (items docFiles localeCompare (mlanguage m))
  end.

Definition isOnContent (run : nat) (c : cont) : Prop :=
  match c with
  | OnContent r _ _ _ => r = run
  | OnTopics _ _ => False
  end.

Definition isOnTopics (run : nat) (c : cont) : Prop :=
  match c with
  | OnContent _ _ _ _ => False
  | OnTopics r _ => r = run
  end.

Record pageOk (st : state) : Prop := PageOk {
  page_conts : Forall (contOk st) (pending st);
  page_runs : Forall (fun c => (contRun c < length (cancelled st))%nat) (pending st);
  (* every callback of a run other than the mounted one is cancelled *)
  page_stale :
    Forall (fun c => Some (contRun c) = mrun <$> mounted st
                     \/ isCancelled (contRun c) st = true) (pending st);
  page_live :
    forall m, mounted st = Some m -> cancelled st !! mrun m = Some false;
  page_mount :
    forall m, mounted st = Some m -> Forall (contOfMount st m) (pending st);
  (* the content is that of the mounted request, or its callback is pending *)
  page_content :
    forall m, mounted st = Some m ->
      content st = expectedContent (mlanguage m) (mtopic m)
      \/ Exists (isOnContent (mrun m)) (pending st);
  (* the topics are the refined list, or the first list with the refinement
     pending *)
  page_topics :
    forall m, mounted st = Some m ->
      topics st = List.map refinedTopic (items docFiles localeCompare (mlanguage m))
      \/ (topics st = List.map toTopic (items docFiles localeCompare (mlanguage m))
          /\ Exists (isOnTopics (mrun m)) (pending st))
}.

(** What a state shows besides the cache. *)
Definition sameView (st st' : state) : Prop :=
  content st' = content st /\ topics st' = topics st
  /\ cancelled st' = cancelled st /\ mounted st' = mounted st
  /\ pending st' = pending st.

Definition sameCache (st st' : state) : Prop :=
  docCache st' = docCache st /\ promises st' = promises st
  /\ loaderCalls st' = loaderCalls st.

(** Entries of the cache are kept as they are. *)
Definition cacheGrows (st st' : state) : Prop :=
  forall k p, docCache st !! k = Some p -> docCache st' !! k = Some p.

Definition isRender (ev : event) : bool :=
  match ev with
  | Render _ _ | Unmount => true
  | _ => false
  end.

(** Events of the loaders and of the scheduler only. *)
Definition quiet (evs : list event) : bool := forallb (fun ev => negb (isRender ev)) evs.

(** A schedule that settles every promise and then runs the callbacks in
    order. *)
Definition drain (st : state) : list event :=
  List.map Settle (seq 0 (length (promises st)))
  ++ repeat (Run 0) (length (pending st)).

End Page.

(** ** Rendering: heading anchors, links, navigation and the outline *)

(** *** The [Heading] components *)

Definition notGt (c : jchar) : bool := negb (lit ">" c).

(** [/<[^>]+>/g] *)
Definition re_tag : regex :=
  Re [one (lit "<"); plus notGt; one (lit ">")] false.

(** [String(children).replace(/<[^>]+>/g, "")], from the string
    [String(children)]. *)
Definition headingText (children : jstring) : jstring :=
  replaceAll re_tag (fun _ => []) children.

(** The [id] a heading is rendered with. *)
Definition headingId (toLowerCase : jstring -> jstring) (children : jstring) : jstring :=
  slugify toLowerCase (headingText children).

(** *** Direct reading of the fallback title *)

Definition sepToSpace (c : jchar) : jchar := if isSep c then chr " " else c.

(** Every word character that does not follow a word character is turned
    to upper case; [afterWord] tells that the previous unit was a word
    character. *)
Fixpoint capitalize (afterWord : bool) (s : jstring) : jstring :=
  match s with
  | [] => []
  | c :: s' =>
      (if isWord c && negb afterWord then asciiUpper c else c)
      :: capitalize (isWord c) s'
  end.

(** A pattern that starts with one character of a class. *)
Definition startsWithOne (re : regex) : Prop :=
  exists cs r, atoms re = one cs :: r.

(** *** Links *)

(** [/^https?:\/\//i] *)
Definition re_http : regex :=
  Re [Bol; one (litCi "h"); one (litCi "t"); one (litCi "t"); one (litCi "p");
      opt (litCi "s"); one (lit ":"); one (lit "/"); one (lit "/")] false.

(** [/^\.\//] *)
Definition re_dotslash : regex := Re [Bol; one (lit "."); one (lit "/")] false.

(** [re.test(s)] for a pattern without the [g] flag. *)
Definition test (re : regex) (s : jstring) : bool :=
  match exec re s with
  | Some _ => true
  | None => false
  end.

(** What the [a] component renders: an anchor opening a new tab, a router
    link, or a plain anchor. *)
Inductive anchor : Type :=
  | NewTab (href : jstring)
  | RouterLink (to : jstring)
  | SamePage (href : jstring).

Section Links.

(** [buildLanguagePrefix(language)], computed outside this file. *)
Variable prefix : jstring.

Definition docsBasePath : jstring := prefix ++ u "/" ++ u "docs".

(** [slug && slug !== "index" ? `${docsBasePath}/${slug}` : docsBasePath];
    an absent argument is [None], and the empty string is falsy. *)
Definition buildDocPath (slug : option jstring) : jstring :=
  match slug with
  | Some s =>
      if negb (isEmpty s) && negb (eqs s (u "index"))
      then docsBasePath ++ u "/" ++ s
      else docsBasePath
  | None => docsBasePath
  end.

(** The [a] component, from [href]; [url] is [String(href || "")]. *)
Definition linkOf (href : option jstring) : anchor :=
  let url := match href with Some h => h | None => [] end in
  if test re_http url then NewTab url
  else if startsWith url (u "./") then
    let slug := replaceFirst re_md (fun _ => [])
                  (replaceFirst re_dotslash (fun _ => []) url) in
    RouterLink (buildDocPath (Some slug))
  else SamePage url.

End Links.

(** The topic a slug names: the index topic when the slug is absent or
    empty. *)
Definition slugOrIndex (slug : option jstring) : jstring :=
  match slug with
  | Some s => if isEmpty s then u "index" else s
  | None => u "index"
  end.

(** *** The links to the previous and the next topic *)

(** [Array.prototype.findIndex]: the first index whose element satisfies
    [p], or -1. *)
Fixpoint findIndexFrom {A : Type} (p : A -> bool) (l : list A) (i : Z) : Z :=
  match l with
  | [] => (-1)%Z
  | x :: l' => if p x then i else findIndexFrom p l' (i + 1)%Z
  end.

Definition findIndex {A : Type} (p : A -> bool) (l : list A) : Z :=
  findIndexFrom p l 0%Z.

(** [prev] and [next] of the block below the article. *)
Definition pager (topics : list Topic.t) (currentTopic : jstring)
  : option Topic.t * option Topic.t :=
  let idx := findIndex (fun t => eqs (Topic.slug t) currentTopic) topics in
  let prev := if (0 <? idx)%Z then topics !! Z.to_nat (idx - 1) else None in
  let next :=
    if (0 <=? idx)%Z && (idx <? Z.of_nat (length topics) - 1)%Z
    then topics !! Z.to_nat (idx + 1) else None in
  (prev, next).

(** [if (!prev && !next) return null] *)
Definition pagerShown (topics : list Topic.t) (currentTopic : jstring) : bool :=
  match pager topics currentTopic with
  | (None, None) => false
  | _ => true
  end.

(** *** The rows of the outline *)

(** [String(idx)] for an array index: its decimal digits. *)
Definition decimal (n : nat) : jstring :=
  u (NilEmpty.string_of_uint (Nat.to_uint n)).

(** [toc.filter((i) => i.level <= 3)] *)
Definition shownToc (toc : list TocItem.t) : list TocItem.t :=
  List.filter (fun i => (TocItem.level i <=? 3)%nat) toc.

(** [key={`${i.id}-${idx}`}], [idx] being the index among the rows shown. *)
Definition tocKey (i : TocItem.t) (idx : nat) : jstring :=
  TocItem.id i ++ u "-" ++ decimal idx.

Definition tocKeys (toc : list TocItem.t) : list jstring :=
  imap (fun idx i => tocKey i idx) (shownToc toc).

(** [className={i.level > 2 ? "ml-3" : ""}] *)
Definition tocIndented (i : TocItem.t) : bool := (2 <? TocItem.level i)%nat.

(** *** The active heading *)

(** What the callback reads of an [IntersectionObserverEntry].  A ratio is a
    number between 0 and 1; the sign of a difference of two such numbers is
    that of the exact difference, so ratios are compared as rationals. *)
Module Entry.
Record t : Type := Make {
  isIntersecting : bool;
  intersectionRatio : Q;
  targetId : jstring
}.
End Entry.

(** The sign of [b.intersectionRatio - a.intersectionRatio]. *)
Definition byRatioDesc (a b : Entry.t) : comparison :=
  Qcompare (Entry.intersectionRatio b) (Entry.intersectionRatio a).

(** The callback of the intersection observer: [activeId] after it. *)
Definition onIntersect (entries : list Entry.t) (activeId : jstring) : jstring :=
  let visible := sort byRatioDesc (List.filter Entry.isIntersecting entries) in
  match visible with
  | e :: _ => if negb (isEmpty (Entry.targetId e)) then Entry.targetId e else activeId
  | [] => activeId
  end.

(** *** Further invariants of the cache *)

(** Every promise created is the cached promise of a key, and was created
    together with the call of that key's loader. *)
Definition allCached (st : state) : Prop :=
  length (promises st) = length (loaderCalls st)
  /\ forall p, (p < length (promises st))%nat ->
       exists k, docCache st !! k = Some p.

(** Every document of a language is in the cache. *)
Definition languageCached (docFiles : list (jstring * loader)) (language : jstring)
  (st : state) : Prop :=
  forall k, In k (keys docFiles language) -> is_Some (docCache st !! k).

(** A store of three English documents, one of which fails to load. *)
Definition sampleFiles : list (jstring * loader) :=
  [(u "../content/en/index.md", Some (u "# Home" ++ [CR; LF] ++ u "Welcome<br>"));
   (u "../content/en/001_intro.md", Some (u "## Intro"));
   (u "../content/en/bad.md", None)].

(* ================================================================= *)
(** * Verification *)

(** ** Facts about the matcher *)

Ltac prop_bools :=
  repeat match goal with
  | H : _ && _ = true |- _ => apply andb_true_iff in H; destruct H
  | H : _ || _ = false |- _ => apply orb_false_iff in H; destruct H
  | H : negb _ = true |- _ => apply negb_true_iff in H
  | H : negb _ = false |- _ => apply negb_false_iff in H
  | H : N.eqb _ _ = true |- _ => apply N.eqb_eq in H
  | H : N.eqb _ _ = false |- _ => apply N.eqb_neq in H
  | H : N.leb _ _ = true |- _ => apply N.leb_le in H
  | H : N.leb _ _ = false |- _ => apply N.leb_gt in H
  | H : N.ltb _ _ = true |- _ => apply N.ltb_lt in H
  | H : N.ltb _ _ = false |- _ => apply N.ltb_ge in H
  end.

Lemma slugUnit_keep c : slugUnit c = true -> slugKeep c = true.
Proof.
  unfold slugUnit, slugKeep. intros H.
  apply orb_true_iff in H as [H|H]; [apply orb_true_iff in H as [H|H]|];
    rewrite H; rewrite ?orb_true_r; reflexivity.
Qed.

Lemma slugUnit_nospace c : slugUnit c = true -> isSpace c = false.
Proof.
  intros H. destruct (isSpace c) eqn:E; [|reflexivity]. exfalso.
  unfold slugUnit, isLower, isDigit, lit, chr in H. cbn in H.
  unfold isSpace in E.
  repeat match goal with
  | H : _ || _ = true |- _ => apply orb_true_iff in H; destruct H
  end; prop_bools; lia.
Qed.

Lemma slugUnit_lower c : slugUnit c = true -> asciiLower c = c.
Proof.
  intros H. unfold asciiLower. destruct (isUpper c) eqn:E; [|reflexivity].
  exfalso. unfold slugUnit, isLower, isDigit, lit, chr in H. cbn in H.
  unfold isUpper in E.
  repeat match goal with
  | H : _ || _ = true |- _ => apply orb_true_iff in H; destruct H
  end; prop_bools; lia.
Qed.

Lemma slugUnit_ascii c : slugUnit c = true -> isAscii c = true.
Proof.
  intros H. unfold isAscii. apply N.ltb_lt.
  unfold slugUnit, isLower, isDigit, lit, chr in H. cbn in H.
  repeat match goal with
  | H : _ || _ = true |- _ => apply orb_true_iff in H; destruct H
  end; prop_bools; lia.
Qed.

Lemma keep_nospace_unit c :
  slugKeep c = true -> isSpace c = false -> slugUnit c = true.
Proof.
  unfold slugKeep, slugUnit. intros H E. rewrite E in H.
  rewrite orb_false_r in H. exact H.
Qed.

Lemma maxRun_le cs hi s : (maxRun cs hi s <= length s)%nat.
Proof.
  revert hi. induction s as [|c s IH]; intros hi.
  - destruct hi as [[|h]|]; simpl; lia.
  - destruct hi as [[|h]|]; simpl; [lia| |];
      (destruct (cs c); [|lia]); match goal with |- context [maxRun cs ?h s] =>
        specialize (IH h) end; lia.
Qed.

Lemma between_skipn n (s : jstring) :
  (n <= length s)%nat -> between s (skipn n s) = firstn n s.
Proof.
  intros H. unfold between. rewrite length_skipn. f_equal. lia.
Qed.

Lemma length_between_skipn n (s : jstring) :
  (n <= length s)%nat -> length (between s (skipn n s)) = n.
Proof.
  intros H. rewrite between_skipn by exact H. rewrite length_firstn. lia.
Qed.

(** A single class member, unquantified. *)
Lemma matchSeq_one ml cs r p s :
  matchSeq ml (one cs :: r) p s =
  match s with
  | c :: s' => if cs c then matchSeq ml r (Some c) s' else None
  | [] => None
  end.
Proof.
  unfold one. cbn [matchSeq]. destruct s as [|c s']; [reflexivity|].
  cbn [maxRun option_map Nat.pred]. destruct (cs c).
  - replace (maxRun cs (Some 0%nat) s') with 0%nat by (destruct s'; reflexivity).
    cbn. rewrite drop_0. destruct (matchSeq ml r (Some c) s'); reflexivity.
  - reflexivity.
Qed.

(** An optional class member. *)
Lemma matchSeq_opt ml cs r p s :
  matchSeq ml (opt cs :: r) p s =
  match s with
  | c :: s' =>
      if cs c
      then match matchSeq ml r (Some c) s' with
           | Some res => Some res
           | None => matchSeq ml r p s
           end
      else matchSeq ml r p s
  | [] => matchSeq ml r p s
  end.
Proof.
  unfold opt. cbn [matchSeq]. destruct s as [|c s'].
  - cbn. destruct (matchSeq ml r p []); reflexivity.
  - cbn [maxRun option_map Nat.pred]. destruct (cs c).
    + replace (maxRun cs (Some 0%nat) s') with 0%nat by (destruct s'; reflexivity).
      cbn. rewrite drop_0. destruct (matchSeq ml r (Some c) s'); [reflexivity|].
      destruct (matchSeq ml r p (c :: s')); reflexivity.
    + cbn. destruct (matchSeq ml r p (c :: s')); reflexivity.
Qed.

(** A trailing [cs+] takes its longest run. *)
Lemma matchSeq_plus_last ml cs p s :
  matchSeq ml [plus cs] p s =
  match maxRun cs None s with
  | O => None
  | S n => Some ([], skipn (S n) s)
  end.
Proof.
  unfold plus. cbn [matchSeq]. destruct (maxRun cs None s); reflexivity.
Qed.

(** Global replacement of single class members works unit by unit. *)
Lemma gsub_one ml cs f p s :
  gsub (Re [one cs] ml) f p s 0 =
  flat_map (fun c => if cs c then f [c] else [c]) s.
Proof.
  revert p. induction s as [|c s IH]; intros p.
  - reflexivity.
  - cbn [gsub flat_map]. unfold matchAt. cbn [atoms multiline].
    rewrite matchSeq_one. destruct (cs c).
    + cbn [matchSeq]. unfold between. cbn [length].
      replace (S (length s) - length s)%nat with 1%nat by lia.
      cbn. rewrite IH. reflexivity.
    + rewrite IH. reflexivity.
Qed.

Lemma flat_map_drop (cs : jchar -> bool) (s : jstring) :
  flat_map (fun c => if cs c then [] else [c]) s = List.filter (fun c => negb (cs c)) s.
Proof.
  induction s as [|c s IH]; [reflexivity|]. cbn. destruct (cs c); cbn; congruence.
Qed.

(** Global replacement of whitespace runs by a constant. *)
Lemma gsub_spaces p s :
  gsub re_spaces (fun _ => u "-") p s 0 = hyphenate false s
  /\ gsub re_spaces (fun _ => u "-") p s (maxRun isSpace None s) = hyphenate true s.
Proof.
  revert p. induction s as [|c s IH]; intros p.
  - split; reflexivity.
  - assert (H0 : gsub re_spaces (fun _ => u "-") p (c :: s) 0
                 = hyphenate false (c :: s)).
    { cbn [gsub hyphenate]. unfold matchAt.
      change (atoms re_spaces) with [plus isSpace].
      rewrite matchSeq_plus_last. cbn [maxRun option_map].
      destruct (isSpace c).
      - rewrite length_between_skipn
          by (pose proof (maxRun_le isSpace None s); cbn [length]; lia).
        rewrite (proj2 (IH (Some c))). reflexivity.
      - rewrite (proj1 (IH (Some c))). reflexivity. }
    split; [exact H0|].
    cbn [maxRun option_map]. destruct (isSpace c) eqn:E.
    + cbn [gsub hyphenate]. rewrite E. apply IH.
    + rewrite H0. cbn [hyphenate]. rewrite E. reflexivity.
Qed.

Lemma Forall_dropWhile (P : jchar -> Prop) p s :
  Forall P s -> Forall P (dropWhile p s).
Proof.
  induction 1 as [|c s Hc Hs IH]; cbn; [constructor|].
  destruct (p c); [exact IH|constructor; assumption].
Qed.

Lemma Forall_trim (P : jchar -> Prop) s : Forall P s -> Forall P (trim s).
Proof.
  intros H. unfold trim, trimEnd, trimStart.
  apply Forall_rev, Forall_dropWhile, Forall_rev, Forall_dropWhile, H.
Qed.

Lemma dropWhile_none p s :
  Forall (fun c => p c = false) s -> dropWhile p s = s.
Proof. destruct 1 as [|c s Hc Hs]; cbn; [reflexivity|]. rewrite Hc. reflexivity. Qed.

Lemma trim_nospace s : Forall (fun c => isSpace c = false) s -> trim s = s.
Proof.
  intros H. unfold trim, trimEnd, trimStart.
  rewrite (dropWhile_none _ s H).
  rewrite dropWhile_none by (apply Forall_rev, H). apply rev_involutive.
Qed.

Lemma hyphenate_nospace b s :
  Forall (fun c => isSpace c = false) s -> hyphenate b s = s.
Proof.
  intros H. revert b. induction H as [|c s Hc Hs IH]; intros b; cbn; [reflexivity|].
  rewrite Hc, IH. reflexivity.
Qed.

Lemma hyphenate_units b s :
  Forall (fun c => slugKeep c = true) s ->
  Forall (fun c => slugUnit c = true) (hyphenate b s).
Proof.
  intros H. revert b. induction H as [|c s Hc Hs IH]; intros b; cbn; [constructor|].
  destruct (isSpace c) eqn:E.
  - destruct b; [apply IH|]. constructor; [reflexivity|apply IH].
  - constructor; [apply keep_nospace_unit; assumption|apply IH].
Qed.

Lemma filter_all (p : jchar -> bool) s :
  Forall (fun c => p c = true) s -> List.filter p s = s.
Proof.
  induction 1 as [|c s Hc Hs IH]; cbn; [reflexivity|]. rewrite Hc, IH. reflexivity.
Qed.

Lemma Forall_filter_self (p : jchar -> bool) s :
  Forall (fun c => p c = true) (List.filter p s).
Proof.
  induction s as [|c s IH]; cbn; [constructor|].
  destruct (p c) eqn:E; [constructor; assumption|assumption].
Qed.

Section SlugifyFacts.

Variable toLowerCase : jstring -> jstring.
Hypothesis lower_ascii :
  forall s, forallb isAscii s = true -> toLowerCase s = List.map asciiLower s.

(** [slugify] as the four steps read off the patterns. *)
Lemma slugify_steps x :
  slugify toLowerCase x
  = hyphenate false (trim (List.filter slugKeep (toLowerCase x))).
Proof.
  unfold slugify, replaceAll. rewrite (proj1 (gsub_spaces None _)).
  unfold re_nonslug. rewrite gsub_one. change (u "") with (@nil jchar).
  rewrite flat_map_drop. do 2 f_equal. apply filter_ext.
  intros c. apply negb_involutive.
Qed.

Lemma slugify_units x : Forall (fun c => slugUnit c = true) (slugify toLowerCase x).
Proof.
  rewrite slugify_steps. apply hyphenate_units, Forall_trim, Forall_filter_self.
Qed.

Lemma slugify_fixed y :
  Forall (fun c => slugUnit c = true) y -> slugify toLowerCase y = y.
Proof.
  intros H. rewrite slugify_steps.
  assert (Hn : Forall (fun c => isSpace c = false) y)
    by (eapply List.Forall_impl; [|exact H]; apply slugUnit_nospace).
  rewrite lower_ascii.
  - assert (Hm : List.map asciiLower y = y).
    { clear Hn. induction H as [|c s Hc Hs IH]; cbn; [reflexivity|].
      rewrite (slugUnit_lower c Hc). f_equal. exact IH. }
    rewrite Hm. rewrite filter_all
      by (eapply List.Forall_impl; [|exact H]; apply slugUnit_keep).
    rewrite trim_nospace by exact Hn. apply hyphenate_nospace, Hn.
  - apply forallb_forall. intros c Hc. apply slugUnit_ascii.
    rewrite List.Forall_forall in H. apply H, Hc.
Qed.

(** C9: [slugify] lowercases, drops every unit outside [[a-z0-9\s-]], trims,
    and turns each run of whitespace into one hyphen; it maps
    "Hello, World! 2.0" to "hello-world-20" and "  multi   space  " to
    "multi-space"; and it is idempotent. *)
Theorem slugify_spec :
  (forall x, slugify toLowerCase x
             = hyphenate false (trim (List.filter slugKeep (toLowerCase x))))
  /\ slugify toLowerCase (u "Hello, World! 2.0") = u "hello-world-20"
  /\ slugify toLowerCase (u "  multi   space  ") = u "multi-space"
  /\ (forall x, slugify toLowerCase (slugify toLowerCase x) = slugify toLowerCase x).
Proof.
  split; [exact slugify_steps|]. split; [|split].
  - rewrite slugify_steps, lower_ascii by reflexivity. vm_compute. reflexivity.
  - rewrite slugify_steps, lower_ascii by reflexivity. vm_compute. reflexivity.
  - intros x. apply slugify_fixed, slugify_units.
Qed.

End SlugifyFacts.

Lemma slugify_spec_witness :
  (forall s, forallb isAscii s = true -> lowerAsciiOnly s = List.map asciiLower s)
  /\ slugify lowerAsciiOnly (slugify lowerAsciiOnly (u "Hello, World! 2.0"))
     = slugify lowerAsciiOnly (u "Hello, World! 2.0").
Proof.
  split; [intros s _; reflexivity|].
  apply (slugify_spec lowerAsciiOnly (fun s _ => eq_refl)).
Defined.

(** ** [normalizeMd] *)

(** Whatever the pattern, the output of a global replacement is made of
    input units and of units of the replacements. *)
Lemma gsub_Forall (P : jchar -> Prop) re f s :
  Forall P s -> (forall m, Forall P (f m)) ->
  forall p k, Forall P (gsub re f p s k).
Proof.
  intros Hs Hf. induction Hs as [|c s Hc Hs IH]; intros p k.
  - destruct k; cbn; [|constructor].
    destruct (matchAt re p []) as [[ms e]|]; [|constructor].
    rewrite app_nil_r. apply Hf.
  - destruct k; cbn [gsub]; [|apply IH].
    destruct (matchAt re p (c :: s)) as [[ms e]|].
    + apply Forall_app. split; [apply Hf|].
      destruct (length (between (c :: s) e)); [constructor; [exact Hc|]|]; apply IH.
    + constructor; [exact Hc|apply IH].
Qed.

Lemma split_Forall (P : jchar -> Prop) sep s :
  Forall P s -> Forall (Forall P) (split sep s).
Proof.
  induction 1 as [|c s Hc Hs IH]; cbn.
  - repeat constructor.
  - destruct (N.eqb c sep); [constructor; [constructor|exact IH]|].
    destruct (split sep s) as [|l ls]; [repeat constructor; exact Hc|].
    inversion IH; subst. constructor; [constructor|]; assumption.
Qed.

Lemma join_Forall (P : jchar -> Prop) sep ls :
  Forall P sep -> Forall (Forall P) ls -> Forall P (join sep ls).
Proof.
  intros Hsep. induction 1 as [|l ls Hl Hls IH]; cbn; [constructor|].
  destruct ls as [|l' ls']; [exact Hl|].
  apply Forall_app. split; [exact Hl|]. apply Forall_app. split; [exact Hsep|exact IH].
Qed.

Lemma normalizeLines_Forall (P : jchar -> Prop) ls :
  P LF -> Forall (Forall P) ls -> forall b, Forall (Forall P) (normalizeLines ls b).
Proof.
  intros HLF. induction 1 as [|t ls Ht Hls IH]; intros b; cbn; [constructor|].
  destruct (isFenceLine t); [constructor; [exact Ht|apply IH]|].
  destruct b; (constructor; [|apply IH]); [exact Ht|].
  apply gsub_Forall; [exact Ht|]. intros _. constructor; [exact HLF|constructor].
Qed.

(** The first replacement is the direct unification of line endings. *)
Lemma unifyEol_direct raw : unifyEol raw = unifySpec raw.
Proof.
  unfold unifyEol, replaceAll. generalize (@None jchar).
  remember (length raw) as n eqn:Hn.
  assert (Hle : (length raw <= n)%nat) by lia. clear Hn.
  revert raw Hle. induction n as [|n IH]; intros raw Hle p.
  - destruct raw; [reflexivity|cbn in Hle; lia].
  - destruct raw as [|c s]; [reflexivity|]. cbn in Hle.
    cbn [gsub unifySpec]. unfold matchAt.
    change (atoms re_eol) with [one (eqc CR); opt (eqc LF)].
    rewrite matchSeq_one. fold (eqc CR c). destruct (eqc CR c) eqn:Ec.
    + assert (Hc : eqc CR c = true) by exact Ec. rewrite matchSeq_opt.
      destruct s as [|d s'].
      * cbn. reflexivity.
      * cbn [matchSeq]. destruct (eqc LF d) eqn:Ed.
        -- unfold between. cbn [length].
           replace (S (S (length s')) - length s')%nat with 2%nat by lia.
           cbn [firstn length app gsub]. f_equal. apply IH. cbn in Hle. lia.
        -- unfold between. cbn [length].
           replace (S (S (length s')) - S (length s'))%nat with 1%nat by lia.
           cbn [firstn length app]. f_equal. apply IH. lia.
    + f_equal. apply IH. lia.
Qed.

Lemma eqc_sym a c : eqc a c = eqc c a.
Proof. unfold eqc. apply N.eqb_sym. Qed.

Lemma unifySpec_noCR s : Forall (fun c => c <> CR) (unifySpec s).
Proof.
  remember (length s) as n eqn:Hn.
  assert (Hle : (length s <= n)%nat) by lia. clear Hn.
  revert s Hle. induction n as [|n IH]; intros s Hle.
  - destruct s; [constructor|cbn in Hle; lia].
  - destruct s as [|c s]; [constructor|]. cbn in Hle. cbn [unifySpec].
    destruct (eqc CR c) eqn:Ec.
    + constructor; [discriminate|]. destruct s as [|d s']; [constructor|].
      cbn in Hle. destruct (eqc LF d); apply IH; cbn; lia.
    + constructor; [|apply IH; lia]. intros ->. unfold eqc in Ec.
      rewrite N.eqb_refl in Ec. discriminate.
Qed.

(** The loop over the lines, read through the parity of the delimiter lines
    seen so far. *)
Lemma normalizeLines_parity ls b :
  normalizeLines ls b =
  imap (fun i t =>
          if isFenceLine t || xorb b (insideFence ls i) then t else breakTags t) ls.
Proof.
  revert b. induction ls as [|t ls IH]; intros b; [reflexivity|].
  cbn [normalizeLines]. rewrite imap_cons.
  unfold insideFence at 1. cbn [firstn List.filter length Nat.odd].
  rewrite xorb_false_r.
  destruct (isFenceLine t) eqn:Et.
  - cbn [orb]. f_equal. rewrite IH. apply imap_ext. intros i x _. cbn.
    unfold insideFence. cbn [firstn List.filter]. rewrite Et. cbn [length].
    rewrite Nat.odd_succ, <- Nat.negb_odd. destruct b, (Nat.odd _); reflexivity.
  - cbn [orb]. assert (Hext : imap ((fun i t0 =>
        if isFenceLine t0 || xorb b (insideFence (t :: ls) i) then t0
        else breakTags t0) ∘ S) ls = normalizeLines ls b).
    { rewrite IH. apply imap_ext. intros i x _. cbn.
      unfold insideFence. cbn [firstn List.filter]. rewrite Et. reflexivity. }
    rewrite Hext. destruct b; reflexivity.
Qed.

(** *** Locality of matching *)

Lemma maxRun_local cs x rest : cs x = false ->
  forall a hi, maxRun cs hi (a ++ x :: rest) = maxRun cs hi a.
Proof.
  intros Hx. induction a as [|c a IH]; intros hi.
  - cbn. rewrite Hx. destruct hi as [[|h]|]; reflexivity.
  - cbn. destruct hi as [[|h]|]; [reflexivity| |];
      (destruct (cs c); [|reflexivity]); rewrite IH; reflexivity.
Qed.

Lemma prevAfter_app p (a t : jstring) n :
  (n <= length a)%nat -> prevAfter p (a ++ t) n = prevAfter p a n.
Proof.
  intros H. destruct n as [|n]; [reflexivity|]. cbn.
  rewrite nth_error_app1 by lia. reflexivity.
Qed.

Lemma skipn_app_le (a t : jstring) n :
  (n <= length a)%nat -> skipn n (a ++ t) = skipn n a ++ t.
Proof.
  intros H. rewrite skipn_app. replace (n - length a)%nat with 0%nat by lia.
  rewrite drop_0. reflexivity.
Qed.

Lemma atEol_app ml (a : jstring) x t t' : atEol ml (a ++ x :: t) = atEol ml (a ++ x :: t').
Proof. destruct a; reflexivity. Qed.

Lemma head_app_cons (a : jstring) x t t' : head (a ++ x :: t) = head (a ++ x :: t').
Proof. destruct a; reflexivity. Qed.

Lemma lookOk_app ml (a : jstring) x t l :
  rejects x (Ahead [l]) = true ->
  lookOk ml (a ++ x :: t) l = lookOk ml (a ++ [x]) l.
Proof.
  intros H. destruct l as [cs|]; cbn.
  - destruct a; reflexivity.
  - apply atEol_app.
Qed.

Lemma existsb_lookOk_app ml (a : jstring) x t alts :
  rejects x (Ahead alts) = true ->
  existsb (lookOk ml (a ++ x :: t)) alts = existsb (lookOk ml (a ++ [x])) alts.
Proof.
  induction alts as [|l alts IH]; intros H; [reflexivity|].
  cbn in H. apply andb_true_iff in H as [Hl Ha]. cbn [existsb].
  rewrite IH by exact Ha. f_equal. apply lookOk_app. cbn. rewrite Hl. reflexivity.
Qed.

(** A pattern none of whose classes accepts [x] never reads past an [x]:
    its match on [a ++ x :: rest] is decided by [a], and ends inside [a]. *)
Lemma matchSeq_local ml x r :
  forallb (rejects x) r = true ->
  forall a p, exists o : option mresult,
    (forall rest, matchSeq ml r p (a ++ x :: rest) = option_map (attach (x :: rest)) o)
    /\ (forall ms e, o = Some (ms, e) -> (length e <= length a)%nat).
Proof.
  induction r as [|at_ r IH]; intros Hr a p.
  - exists (Some ([], a)). split.
    + intros rest. reflexivity.
    + intros ms e [= <- <-]. lia.
  - cbn in Hr. apply andb_true_iff in Hr as [Hat Hr]. specialize (IH Hr).
    destruct at_ as [cs lo hi| | | |alts| |].
    + cbn in Hat. apply negb_true_iff in Hat.
      assert (Hback : forall n, (n <= length a)%nat -> exists o : option mresult,
        (forall rest, backFrom (matchSeq ml r) lo p (a ++ x :: rest) n
                      = option_map (attach (x :: rest)) o)
        /\ (forall ms e, o = Some (ms, e) -> (length e <= length a)%nat)).
      { induction n as [|n IHn]; intros Hn.
        - destruct (IH (skipn 0 a) (prevAfter p a 0)) as [o [Ho Hb]].
          destruct (lo <=? 0)%nat eqn:El.
          + exists o. split.
            * intros rest. cbn [backFrom]. rewrite El.
              rewrite prevAfter_app, skipn_app_le by lia. rewrite Ho.
              destruct o; reflexivity.
            * intros ms e He. specialize (Hb ms e He).
              rewrite length_skipn in Hb. lia.
          + exists None. split; [|discriminate].
            intros rest. cbn [backFrom]. rewrite El. reflexivity.
        - destruct (IHn ltac:(lia)) as [o' [Ho' Hb']].
          destruct (IH (skipn (S n) a) (prevAfter p a (S n))) as [o [Ho Hb]].
          destruct (lo <=? S n)%nat eqn:El.
          + destruct o as [res|].
            * exists (Some res). split.
              -- intros rest. cbn [backFrom]. rewrite El.
                 rewrite prevAfter_app, skipn_app_le by lia.
                 rewrite Ho. reflexivity.
              -- intros ms e [= ->]. specialize (Hb ms e eq_refl).
                 rewrite length_skipn in Hb. lia.
            * exists o'. split; [|exact Hb'].
              intros rest. cbn [backFrom]. rewrite El.
              rewrite prevAfter_app, skipn_app_le by lia.
              rewrite Ho. cbn [option_map]. apply Ho'.
          + exists o'. split; [|exact Hb'].
            intros rest. cbn [backFrom]. rewrite El. apply Ho'. }
      destruct (Hback (maxRun cs hi a) (maxRun_le cs hi a)) as [o [Ho Hb]].
      exists o. split; [|exact Hb]. intros rest. cbn [matchSeq].
      rewrite maxRun_local by exact Hat. apply Ho.
    + destruct (IH a p) as [o [Ho Hb]]. destruct (atBol ml p) eqn:E.
      * exists o. split; [|exact Hb]. intros rest. cbn [matchSeq]. rewrite E. apply Ho.
      * exists None. split; [|discriminate]. intros rest. cbn [matchSeq].
        rewrite E. reflexivity.
    + destruct (IH a p) as [o [Ho Hb]]. destruct (atEol ml (a ++ [x])) eqn:E.
      * exists o. split; [|exact Hb]. intros rest. cbn [matchSeq].
        rewrite (atEol_app ml a x rest []), E. apply Ho.
      * exists None. split; [|discriminate]. intros rest. cbn [matchSeq].
        rewrite (atEol_app ml a x rest []), E. reflexivity.
    + destruct (IH a p) as [o [Ho Hb]].
      destruct (xorb (isWordAt p) (isWordAt (head (a ++ [x])))) eqn:E.
      * exists o. split; [|exact Hb]. intros rest. cbn [matchSeq].
        rewrite (head_app_cons a x rest []), E. apply Ho.
      * exists None. split; [|discriminate]. intros rest. cbn [matchSeq].
        rewrite (head_app_cons a x rest []), E. reflexivity.
    + destruct (IH a p) as [o [Ho Hb]].
      destruct (existsb (lookOk ml (a ++ [x])) alts) eqn:E.
      * exists o. split; [|exact Hb]. intros rest. cbn [matchSeq].
        rewrite existsb_lookOk_app, E by exact Hat. apply Ho.
      * exists None. split; [|discriminate]. intros rest. cbn [matchSeq].
        rewrite existsb_lookOk_app, E by exact Hat. reflexivity.
    + destruct (IH a p) as [o [Ho Hb]].
      exists (mark a o). split.
      * intros rest. cbn [matchSeq]. rewrite Ho.
        destruct o as [[ms e]|]; reflexivity.
      * intros ms e He. destruct o as [[ms' e']|]; [|discriminate].
        cbn in He. injection He as <- <-. apply (Hb ms' e' eq_refl).
    + destruct (IH a p) as [o [Ho Hb]].
      exists (mark a o). split.
      * intros rest. cbn [matchSeq]. rewrite Ho.
        destruct o as [[ms e]|]; reflexivity.
      * intros ms e He. destruct o as [[ms' e']|]; [|discriminate].
        cbn in He. injection He as <- <-. apply (Hb ms' e' eq_refl).
Qed.

(** A pattern that looks at nothing behind the position matches the same
    whatever precedes. *)
Lemma matchSeq_forward ml r :
  forallb forwardOnly r = true ->
  forall p q s, matchSeq ml r p s = matchSeq ml r q s.
Proof.
  induction r as [|at_ r IH]; intros Hr p q s; [reflexivity|].
  cbn in Hr. apply andb_true_iff in Hr as [Hat Hr]. specialize (IH Hr).
  destruct at_ as [cs lo hi| | | |alts| |]; try discriminate; cbn [matchSeq].
  - generalize (maxRun cs hi s). intros n. induction n as [|n IHn]; cbn [backFrom].
    + rewrite (IH (prevAfter p s 0) (prevAfter q s 0)). reflexivity.
    + rewrite (IH (prevAfter p s (S n)) (prevAfter q s (S n))), IHn. reflexivity.
  - rewrite (IH p q). reflexivity.
  - rewrite (IH p q). reflexivity.
  - rewrite (IH p q). reflexivity.
  - rewrite (IH p q). reflexivity.
Qed.

Lemma gsub_forward re f :
  forallb forwardOnly (atoms re) = true ->
  forall s p q k, gsub re f p s k = gsub re f q s k.
Proof.
  intros Hr. induction s as [|c s IH]; intros p q k.
  - destruct k; [|reflexivity]. cbn. unfold matchAt.
    rewrite (matchSeq_forward _ _ Hr p q). reflexivity.
  - destruct k; [|reflexivity]. cbn [gsub]. unfold matchAt.
    rewrite (matchSeq_forward _ _ Hr p q). reflexivity.
Qed.

(** Passing over the rest of a match. *)
Lemma gsub_skip re f (a b : jstring) p :
  exists q, gsub re f p (a ++ b) (length a) = gsub re f q b 0.
Proof.
  revert p. induction a as [|c a IH]; intros p; [exists p; reflexivity|].
  cbn [app length gsub]. apply IH.
Qed.

(** *** The break-tag pattern *)

Lemma asciiLower_other c d :
  asciiLower c = d -> isLower d = false -> c = d.
Proof.
  unfold asciiLower. destruct (isUpper c) eqn:E; [|tauto].
  intros <- H. exfalso. unfold isUpper, isLower in *. prop_bools.
  apply andb_false_iff in H as [H|H]; prop_bools; lia.
Qed.

Lemma asciiLower_letter c d :
  asciiLower c = d -> isLower d = true -> c = d \/ c = (d - 32)%N.
Proof.
  unfold asciiLower. destruct (isUpper c) eqn:E; [|tauto].
  intros <- H. right. lia.
Qed.

Lemma matchSeq_Rep ml cs lo hi r p s :
  matchSeq ml (Rep cs lo hi :: r) p s
  = backFrom (matchSeq ml r) lo p s (maxRun cs hi s).
Proof. reflexivity. Qed.

Lemma matchSeq_Bol ml r p s :
  matchSeq ml (Bol :: r) p s = if atBol ml p then matchSeq ml r p s else None.
Proof. reflexivity. Qed.

Lemma matchSeq_Open ml r p s :
  matchSeq ml (Open :: r) p s = mark s (matchSeq ml r p s).
Proof. reflexivity. Qed.

Lemma matchSeq_Close ml r p s :
  matchSeq ml (Close :: r) p s = mark s (matchSeq ml r p s).
Proof. reflexivity. Qed.

Lemma matchSeq_Ahead ml alts r p s :
  matchSeq ml (Ahead alts :: r) p s
  = if existsb (lookOk ml s) alts then matchSeq ml r p s else None.
Proof. reflexivity. Qed.

Lemma lookahead_standsAlone post :
  standsAlone post = true ->
  existsb (lookOk false post) [LSet isSpace; LEnd] = true.
Proof.
  destruct post as [|d post]; cbn; [reflexivity|]. intros ->. reflexivity.
Qed.

Lemma one_ok ml cs r p c s res :
  cs c = true -> matchSeq ml r (Some c) s = Some res ->
  matchSeq ml (one cs :: r) p (c :: s) = Some res.
Proof. intros Hc H. rewrite matchSeq_one, Hc. exact H. Qed.

Lemma opt_yes_ok ml cs r p c s res :
  cs c = true -> matchSeq ml r (Some c) s = Some res ->
  matchSeq ml (opt cs :: r) p (c :: s) = Some res.
Proof. intros Hc H. rewrite matchSeq_opt, Hc, H. reflexivity. Qed.

Lemma opt_no_ok ml cs r p c s res :
  cs c = false -> matchSeq ml r p (c :: s) = Some res ->
  matchSeq ml (opt cs :: r) p (c :: s) = Some res.
Proof. intros Hc H. rewrite matchSeq_opt, Hc. exact H. Qed.

Lemma star_none_ok ml cs r p c s res :
  cs c = false -> matchSeq ml r p (c :: s) = Some res ->
  matchSeq ml (star cs :: r) p (c :: s) = Some res.
Proof.
  intros Hc H. unfold star. rewrite matchSeq_Rep. cbn [maxRun option_map].
  rewrite Hc. cbn [backFrom Nat.leb prevAfter]. rewrite ?drop_0, H. reflexivity.
Qed.

Lemma star_one_ok ml cs r p c d s res :
  cs c = true -> cs d = false -> matchSeq ml r (Some c) (d :: s) = Some res ->
  matchSeq ml (star cs :: r) p (c :: d :: s) = Some res.
Proof.
  intros Hc Hd H. unfold star. rewrite matchSeq_Rep. cbn [maxRun option_map].
  rewrite Hc, Hd. cbn [backFrom Nat.leb prevAfter nth_error skipn].
  rewrite ?drop_0, H. reflexivity.
Qed.

Lemma ahead_ok ml alts r p s res :
  existsb (lookOk ml s) alts = true -> matchSeq ml r p s = Some res ->
  matchSeq ml (Ahead alts :: r) p s = Some res.
Proof. intros Ha H. rewrite matchSeq_Ahead, Ha. exact H. Qed.

(** A marker of the specification, standing alone, is a match of the
    pattern, and the match is exactly the marker. *)
Lemma br_match_marker m post p :
  isBreakTag m = true -> standsAlone post = true ->
  matchAt re_br p (m ++ post) = Some ([], post).
Proof.
  intros Hm Hpost. apply lookahead_standsAlone in Hpost.
  unfold isBreakTag in Hm. cbn [existsb] in Hm. unfold eqs in Hm.
  repeat (apply orb_true_iff in Hm as [Hm|Hm]); try discriminate;
    apply bool_decide_eq_true in Hm;
    vm_compute (u _) in Hm;
    repeat (destruct m as [|? m]; try discriminate Hm);
    cbn [List.map] in Hm;
    repeat match goal with
    | H : _ :: _ = _ :: _ |- _ => injection H as ? H
    end;
    repeat match goal with
    | H : asciiLower ?c = ?d |- _ =>
        first [ apply asciiLower_other in H; [subst c|reflexivity]
              | apply asciiLower_letter in H; [destruct H; subst c|reflexivity] ]
    end;
    unfold matchAt, re_br; cbn [atoms multiline app];
    repeat first
      [ apply one_ok; [vm_compute; reflexivity|]
      | apply star_none_ok; [vm_compute; reflexivity|]
      | apply star_one_ok; [vm_compute; reflexivity|vm_compute; reflexivity|]
      | apply opt_yes_ok; [vm_compute; reflexivity|]
      | apply opt_no_ok; [vm_compute; reflexivity|]
      | apply ahead_ok; [exact Hpost|] ];
    reflexivity.
Qed.

Lemma length_between (s e : jstring) :
  length (between s e) = (length s - length e)%nat.
Proof. unfold between. rewrite length_firstn. lia. Qed.

Lemma between_app (m e : jstring) : between (m ++ e) e = m.
Proof.
  unfold between. rewrite length_app.
  replace (length m + length e - length e)%nat with (length m) by lia.
  rewrite firstn_app, Nat.sub_diag, firstn_all. cbn. apply app_nil_r.
Qed.

Lemma breakTag_head m :
  isBreakTag m = true -> exists m', m = chr "<" :: m'.
Proof.
  intros Hm. unfold isBreakTag in Hm. cbn [existsb] in Hm. unfold eqs in Hm.
  repeat (apply orb_true_iff in Hm as [Hm|Hm]); try discriminate;
    apply bool_decide_eq_true in Hm; vm_compute (u _) in Hm;
    (destruct m as [|c m]; [discriminate|]); cbn [List.map] in Hm;
    injection Hm as Hc _; apply asciiLower_other in Hc; try reflexivity;
    subst c; exists m; reflexivity.
Qed.

(** Up to a ["<"], the scan for break tags does not depend on what follows
    it: the pattern holds a single ["<"], at its start. *)
Lemma gsub_br_split t pre :
  forall k p, (k <= length pre)%nat ->
  exists X, forall rest,
    gsub re_br (fun _ => t) p (pre ++ chr "<" :: rest) k
    = X ++ gsub re_br (fun _ => t) None (chr "<" :: rest) 0.
Proof.
  assert (Hfw : forallb forwardOnly (atoms re_br) = true) by reflexivity.
  induction pre as [|c pre IH]; intros k p Hk.
  - exists []. intros rest. cbn in Hk. replace k with 0%nat by lia.
    apply (gsub_forward _ _ Hfw).
  - destruct k as [|k].
    + destruct (IH 0%nat (Some c) ltac:(lia)) as [X0 HX0].
      destruct (lit "<" c) eqn:Ec.
      * destruct (matchSeq_local false (chr "<") (List.tl (atoms re_br))
                    eq_refl pre (Some c)) as [o [Ho Hb]].
        destruct o as [[ms e]|].
        -- specialize (Hb ms e eq_refl).
           destruct (IH (length pre - length e)%nat (Some c) ltac:(lia)) as [X HX].
           exists (t ++ X). intros rest. cbn [app gsub]. unfold matchAt.
           change (atoms re_br) with (one (lit "<") :: List.tl (atoms re_br)).
           rewrite matchSeq_one, Ec. change (multiline re_br) with false.
           rewrite Ho. cbn [option_map attach fst snd].
           rewrite length_between. cbn [length]. rewrite !length_app. cbn [length].
           replace (S (length pre + S (length rest))
                    - (length e + S (length rest)))%nat
             with (S (length pre - length e)) by lia.
           rewrite HX, app_assoc. reflexivity.
        -- exists (c :: X0). intros rest. cbn [app gsub]. unfold matchAt.
           change (atoms re_br) with (one (lit "<") :: List.tl (atoms re_br)).
           rewrite matchSeq_one, Ec. change (multiline re_br) with false.
           rewrite Ho. cbn [option_map]. rewrite HX0. reflexivity.
      * exists (c :: X0). intros rest. cbn [app gsub]. unfold matchAt.
        change (atoms re_br) with (one (lit "<") :: List.tl (atoms re_br)).
        rewrite matchSeq_one, Ec. rewrite HX0. reflexivity.
    + cbn in Hk. destruct (IH k (Some c) ltac:(lia)) as [X HX].
      exists X. intros rest. cbn [app gsub]. apply HX.
Qed.

(** Every standalone marker of a line is replaced by a line break; what
    precedes it is rewritten as it is before any ["<"], what follows it as
    on its own. *)
Lemma breakTags_marker pre m post :
  isBreakTag m = true -> standsAlone post = true ->
  breakTags (pre ++ m ++ post)
  = removelast (breakTags (pre ++ u "<")) ++ [LF] ++ breakTags post.
Proof.
  intros Hm Hpost. destruct (breakTag_head m Hm) as [m' ->].
  unfold breakTags, replaceAll.
  destruct (gsub_br_split [LF] pre 0 None ltac:(lia)) as [X HX].
  change (u "<") with [chr "<"]. rewrite (HX []).
  change ((chr "<" :: m') ++ post) with (chr "<" :: m' ++ post). rewrite HX.
  replace (gsub re_br (fun _ => [LF]) None [chr "<"] 0) with [chr "<"]
    by reflexivity.
  rewrite removelast_last. f_equal.
  change (chr "<" :: m' ++ post) with ((chr "<" :: m') ++ post).
  change ((chr "<" :: m') ++ post) with (chr "<" :: (m' ++ post)).
  cbn [gsub].
  change (chr "<" :: m' ++ post) with ((chr "<" :: m') ++ post).
  rewrite (br_match_marker _ post None Hm Hpost), between_app.
  cbn [length]. f_equal.
  destruct (gsub_skip re_br (fun _ => [LF]) m' post (Some (chr "<"))) as [q Hq].
  rewrite Hq. apply gsub_forward. reflexivity.
Qed.

Lemma normalizeMd_noCR raw : Forall (fun c => c <> CR) (normalizeMd raw).
Proof.
  unfold normalizeMd. apply join_Forall; [repeat constructor; discriminate|].
  apply normalizeLines_Forall; [discriminate|].
  apply split_Forall. rewrite unifyEol_direct. apply unifySpec_noCR.
Qed.

(** C2: [normalizeMd] turns CR LF and lone CR into LF, so that no CR is left;
    over the lines of the unified text, a line whose left-trimmed content
    starts with three backticks flips the fence state and is copied
    unchanged, a line inside a fence is copied unchanged, and in any other
    line every standalone break marker ([<br>], [<br/>], [<br />] in any
    letter case, followed by whitespace or the end of the line) is replaced
    by a line break. *)
Theorem normalizeMd_spec :
  (forall raw, unifyEol raw = unifySpec raw)
  /\ (forall raw, Forall (fun c => c <> CR) (normalizeMd raw))
  /\ (forall raw,
        let ls := split LF (unifySpec raw) in
        normalizeMd raw
        = join [LF]
            (imap (fun i t =>
                     if isFenceLine t || insideFence ls i then t else breakTags t)
                  ls))
  /\ (forall ls i t, ls !! i = Some t ->
        normalizeLines ls false !! i
        = Some (if isFenceLine t || insideFence ls i then t else breakTags t))
  /\ (forall pre m post, isBreakTag m = true -> standsAlone post = true ->
        breakTags (pre ++ m ++ post)
        = removelast (breakTags (pre ++ u "<")) ++ [LF] ++ breakTags post)
  /\ normalizeMd (u "a<br>" ++ [CR; LF] ++ u "b<BR/> c<br />" ++ [CR] ++ u "d<br>e")
     = u "a" ++ [LF; LF] ++ u "b" ++ [LF] ++ u " c" ++ [LF; LF] ++ u "d<br>e"
  /\ normalizeMd (u "```" ++ [LF] ++ u "`<br>`" ++ [CR; LF] ++ u "x<br>"
                  ++ [LF] ++ u "  ```" ++ [LF] ++ u "y<br>")
     = u "```" ++ [LF] ++ u "`<br>`" ++ [LF] ++ u "x<br>"
       ++ [LF] ++ u "  ```" ++ [LF] ++ u "y" ++ [LF].
Proof.
  split; [exact unifyEol_direct|]. split; [exact normalizeMd_noCR|].
  split.
  { intros raw ls. unfold normalizeMd. rewrite unifyEol_direct.
    rewrite normalizeLines_parity. reflexivity. }
  split; [|split; [exact breakTags_marker|]].
  - intros ls i t Hi. rewrite normalizeLines_parity, list_lookup_imap, Hi.
    reflexivity.
  - split; vm_compute; reflexivity.
Qed.

Lemma normalizeMd_spec_witness :
  breakTags (u "a" ++ u "<BR/>" ++ u " b")
  = removelast (breakTags (u "a" ++ u "<")) ++ [LF] ++ breakTags (u " b")
  /\ normalizeLines [u "```"; u "<br>"; u "```"; u "<br>"] false !! 1%nat
     = Some (u "<br>").
Proof.
  split.
  - apply normalizeMd_spec; reflexivity.
  - apply (proj1 (proj2 (proj2 (proj2 normalizeMd_spec)))
             [u "```"; u "<br>"; u "```"; u "<br>"] 1%nat (u "<br>")).
    reflexivity.
Defined.

(** ** Greedy repetition *)

Lemma takeWhile_dropWhile cs s : takeWhile cs s ++ dropWhile cs s = s.
Proof.
  induction s as [|c s IH]; [reflexivity|]. cbn. destruct (cs c); [|reflexivity].
  cbn. rewrite IH. reflexivity.
Qed.

Lemma maxRun_takeWhile cs s : maxRun cs None s = length (takeWhile cs s).
Proof.
  induction s as [|c s IH]; [reflexivity|]. cbn. destruct (cs c); [|reflexivity].
  cbn. rewrite IH. reflexivity.
Qed.

Lemma maxRun_capped cs h s :
  maxRun cs (Some h) s = Nat.min h (maxRun cs None s).
Proof.
  revert h. induction s as [|c s IH]; intros h.
  - destruct h; cbn; [reflexivity|]. reflexivity.
  - destruct h as [|h]; [reflexivity|]. cbn. destruct (cs c); [|reflexivity].
    rewrite IH. reflexivity.
Qed.

Lemma skipn_takeWhile cs s : skipn (length (takeWhile cs s)) s = dropWhile cs s.
Proof.
  induction s as [|c s IH]; [reflexivity|]. cbn. destruct (cs c); [|reflexivity].
  cbn. exact IH.
Qed.

Lemma dropWhile_head cs s c s' : dropWhile cs s = c :: s' -> cs c = false.
Proof.
  induction s as [|d s IH]; [discriminate|]. cbn. destruct (cs d) eqn:E; [exact IH|].
  intros [= <- _]. exact E.
Qed.

(** Below the longest run, the input still starts with a class member. *)
Lemma skipn_in_run cs hi s j :
  (j < maxRun cs hi s)%nat -> exists c s', skipn j s = c :: s' /\ cs c = true.
Proof.
  revert hi j. induction s as [|c s IH]; intros hi j Hj.
  - destruct hi as [[|h]|]; cbn in Hj; lia.
  - destruct hi as [[|h]|]; cbn in Hj; [lia| |];
      (destruct (cs c) eqn:Ec; [|lia]);
      (destruct j as [|j]; [exists c, s; split; [reflexivity|exact Ec]|]);
      cbn [skipn]; eapply IH; apply Nat.succ_lt_mono; exact Hj.
Qed.

Lemma backFrom_skip_fail k lo p s n :
  (forall j, (j < n)%nat -> k (prevAfter p s j) (skipn j s) = None) ->
  backFrom k lo p s n
  = if (lo <=? n)%nat then k (prevAfter p s n) (skipn n s) else None.
Proof.
  induction n as [|n IH]; intros H; cbn [backFrom].
  - destruct (lo <=? 0)%nat; [|reflexivity].
    destruct (k (prevAfter p s 0) (skipn 0 s)); reflexivity.
  - rewrite IH by (intros j Hj; apply H; lia).
    rewrite (H n) by lia.
    destruct (lo <=? S n)%nat.
    + destruct (k (prevAfter p s (S n)) (skipn (S n) s)); [reflexivity|].
      destruct (lo <=? n)%nat; reflexivity.
    + destruct (lo <=? n)%nat; reflexivity.
Qed.

Lemma backFrom_top k lo p s n res :
  (lo <= n)%nat -> k (prevAfter p s n) (skipn n s) = Some res ->
  backFrom k lo p s n = Some res.
Proof.
  intros Hlo H. apply Nat.leb_le in Hlo.
  destruct n; cbn [backFrom]; rewrite Hlo, H; reflexivity.
Qed.

Lemma backFrom_none k lo p s n :
  (forall j, (j <= n)%nat -> (lo <= j)%nat ->
             k (prevAfter p s j) (skipn j s) = None) ->
  backFrom k lo p s n = None.
Proof.
  induction n as [|n IH]; intros H; cbn [backFrom].
  - destruct (lo <=? 0)%nat eqn:E; [|reflexivity].
    apply Nat.leb_le in E. rewrite (H 0%nat) by lia. reflexivity.
  - rewrite IH by (intros j Hj; apply H; lia).
    destruct (lo <=? S n)%nat eqn:E; [|reflexivity].
    apply Nat.leb_le in E. rewrite (H (S n)) by lia. reflexivity.
Qed.

(** A quantified class followed by a pattern that cannot start on a member
    of the class: only the longest run can be the match. *)
Lemma matchSeq_Rep_disjoint ml cs lo hi r p s :
  (forall p' c s', cs c = true -> matchSeq ml r p' (c :: s') = None) ->
  matchSeq ml (Rep cs lo hi :: r) p s =
  if (lo <=? maxRun cs hi s)%nat
  then matchSeq ml r (prevAfter p s (maxRun cs hi s)) (skipn (maxRun cs hi s) s)
  else None.
Proof.
  intros Hdis. rewrite matchSeq_Rep. apply backFrom_skip_fail.
  intros j Hj. destruct (skipn_in_run cs hi s j Hj) as [c [s' [-> Hc]]].
  apply Hdis, Hc.
Qed.

Lemma forallb_maxRun cs s :
  forallb cs s = true <-> maxRun cs None s = length s.
Proof.
  induction s as [|c s IH]; cbn; [tauto|]. destruct (cs c); cbn.
  - rewrite IH. lia.
  - split; [discriminate|lia].
Qed.

(** The pattern tail [(.+)$], without the [m] flag: the rest of the input,
    when it is non-empty and holds no line terminator. *)
Lemma matchSeq_text_end p s :
  matchSeq false [Open; plus dot; Close; Eol] p s
  = if negb (isEmpty s) && forallb dot s then Some ([s; []], []) else None.
Proof.
  cbn [matchSeq]. unfold plus. fold (backFrom (fun p' s' =>
    mark s' (if atEol false s' then Some ([], s') else None)) 1 p s
    (maxRun dot None s)).
  destruct (forallb dot s) eqn:Ea.
  - apply forallb_maxRun in Ea. rewrite Ea. destruct s as [|c s]; [reflexivity|].
    cbn [isEmpty negb andb length backFrom Nat.leb].
    change (S (length s)) with (length (c :: s)).
    rewrite skipn_all. reflexivity.
  - rewrite andb_false_r. rewrite backFrom_none; [reflexivity|].
    intros j Hj _. assert (Hlt : (j < length s)%nat).
    { pose proof (maxRun_le dot None s).
      destruct (Nat.eq_dec (maxRun dot None s) (length s)) as [E|E]; [|lia].
      apply forallb_maxRun in E. congruence. }
    destruct (skipn j s) eqn:Es.
    + apply (f_equal (@length _)) in Es. rewrite length_skipn in Es. cbn in Es. lia.
    + reflexivity.
Qed.

Lemma forallb_skipn_false (cs : jchar -> bool) (a b : jstring) j :
  (j <= length a)%nat -> forallb cs b = false -> forallb cs (skipn j (a ++ b)) = false.
Proof.
  intros Hj Hb. rewrite skipn_app_le by exact Hj. rewrite forallb_app, Hb.
  apply andb_false_r.
Qed.

(** [\s+(.+)$] on input whose whitespace run is followed by something. *)
Lemma matchSeq_space_text p s :
  dropWhile isSpace s <> [] \/ takeWhile isSpace s = [] ->
  matchSeq false [plus isSpace; Open; plus dot; Close; Eol] p s
  = if negb (isEmpty (takeWhile isSpace s)) && forallb dot (dropWhile isSpace s)
    then Some ([dropWhile isSpace s; []], [])
    else None.
Proof.
  intros Hrest. unfold plus at 1. rewrite matchSeq_Rep.
  rewrite maxRun_takeWhile.
  destruct (takeWhile isSpace s) as [|w gap] eqn:Eg.
  - cbn [length backFrom Nat.leb isEmpty negb andb]. reflexivity.
  - cbn [isEmpty negb andb]. destruct Hrest as [Hrest|]; [|discriminate].
    destruct (forallb dot (dropWhile isSpace s)) eqn:Ed.
    + apply backFrom_top; [cbn; lia|].
      rewrite <- Eg, skipn_takeWhile, matchSeq_text_end, Ed.
      destruct (dropWhile isSpace s); [contradiction|]. reflexivity.
    + apply backFrom_none. intros j Hj _.
      assert (Hf : forallb dot (skipn j s) = false).
      { rewrite <- (takeWhile_dropWhile isSpace s), Eg.
        apply forallb_skipn_false; assumption. }
      rewrite matchSeq_text_end, Hf, andb_false_r. reflexivity.
Qed.

(** A pattern anchored by [^], without the [m] flag, matches at the start
    of the input only. *)
Lemma execFrom_anchored re c s :
  head (atoms re) = Some Bol -> multiline re = false ->
  execFrom re (Some c) s = None.
Proof.
  intros Ha Hm. revert c. induction s as [|d s IH]; intros c; cbn [execFrom];
    unfold matchAt; rewrite Hm; destruct (atoms re) as [|a r]; try discriminate;
    injection Ha as ->; cbn [matchSeq atBol andb]; [reflexivity|apply IH].
Qed.

Lemma exec_anchored re s :
  head (atoms re) = Some Bol -> multiline re = false ->
  exec re s = match matchAt re None s with
              | Some (ms, e) => Some (between s e :: groups ms)
              | None => None
              end.
Proof.
  intros Ha Hm. unfold exec. destruct s as [|c s]; cbn [execFrom].
  - destruct (matchAt re None []) as [[ms e]|]; reflexivity.
  - destruct (matchAt re None (c :: s)) as [[ms e]|]; [reflexivity|].
    apply execFrom_anchored; assumption.
Qed.

(** ** The table of contents *)

Lemma between_nil (s : jstring) : between s [] = s.
Proof. unfold between. cbn [length]. rewrite Nat.sub_0_r. apply firstn_all. Qed.

Lemma between_dropWhile cs s : between s (dropWhile cs s) = takeWhile cs s.
Proof.
  rewrite <- (takeWhile_dropWhile cs s) at 1. apply between_app.
Qed.

(** A trimmed string does not end with whitespace. *)
Lemma trim_last s x c : trim s = x ++ [c] -> isSpace c = false.
Proof.
  unfold trim, trimEnd. intros H. apply (f_equal (@rev _)) in H.
  rewrite rev_involutive, rev_app_distr in H. cbn in H.
  apply (dropWhile_head _ _ _ _ H).
Qed.

Lemma takeWhile_all cs s : forallb cs (takeWhile cs s) = true.
Proof.
  induction s as [|c s IH]; [reflexivity|]. cbn. destruct (cs c) eqn:E; [|reflexivity].
  cbn. rewrite E. exact IH.
Qed.

(** In a trimmed line, a whitespace run is followed by something. *)
Lemma trim_gap_rest line pre :
  trim line = pre ++ dropWhile (lit "#") (trim line) ->
  let after := dropWhile (lit "#") (trim line) in
  dropWhile isSpace after <> [] \/ takeWhile isSpace after = [].
Proof.
  intros Ht after. destruct (takeWhile isSpace after) as [|w gap] eqn:Eg; [right; reflexivity|].
  left. intros Hr.
  pose proof (takeWhile_dropWhile isSpace after) as Hsplit.
  rewrite Hr, Eg, app_nil_r in Hsplit.
  assert (Hall : forallb isSpace after = true)
    by (rewrite <- Hsplit, <- Eg; apply takeWhile_all).
  fold after in Ht. rewrite <- Hsplit in Ht.
  destruct (exists_last (l := w :: gap) ltac:(discriminate)) as [x [c Hx]].
  rewrite Hx, app_assoc in Ht. apply trim_last in Ht.
  rewrite <- Hsplit, Hx, forallb_app in Hall. cbn in Hall.
  apply andb_true_iff in Hall as [_ Hall]. rewrite Ht in Hall. discriminate.
Qed.

Lemma hash_not_space c : lit "#" c = true -> isSpace c = false.
Proof. intros H. unfold lit in H. apply N.eqb_eq in H. subst c. reflexivity. Qed.

Lemma tocline_after_hash p c s :
  lit "#" c = true ->
  matchSeq false [Close; plus isSpace; Open; plus dot; Close; Eol] p (c :: s) = None.
Proof.
  intros Hc. rewrite matchSeq_Close. unfold plus at 1.
  rewrite matchSeq_Rep. cbn [maxRun option_map].
  rewrite (hash_not_space c Hc). reflexivity.
Qed.

(** The match of the heading-line pattern on a trimmed line. *)
Lemma tocline_match line :
  let t := trim line in
  let hashes := takeWhile (lit "#") t in
  let rest := dropWhile isSpace (dropWhile (lit "#") t) in
  exec re_tocline t
  = if (1 <=? length hashes)%nat && (length hashes <=? 6)%nat
       && negb (isEmpty (takeWhile isSpace (dropWhile (lit "#") t)))
       && negb (isEmpty rest) && forallb dot rest
    then Some [t; hashes; rest]
    else None.
Proof.
  intros t hashes rest. rewrite exec_anchored by reflexivity.
  unfold matchAt. change (multiline re_tocline) with false.
  change (atoms re_tocline) with
    [Bol; Open; Rep (lit "#") 1 (Some 6%nat); Close; plus isSpace;
     Open; plus dot; Close; Eol].
  rewrite matchSeq_Bol, matchSeq_Open. cbn [atBol].
  rewrite matchSeq_Rep_disjoint by (intros; apply tocline_after_hash; assumption).
  rewrite maxRun_capped, maxRun_takeWhile. fold hashes.
  destruct (Nat.le_gt_cases (length hashes) 6) as [Hle|Hgt].
  - rewrite Nat.min_r by exact Hle. rewrite (proj2 (Nat.leb_le _ _) Hle).
    destruct (1 <=? length hashes)%nat eqn:E1; [|reflexivity].
    cbn [andb]. unfold hashes at 2. rewrite skipn_takeWhile.
    rewrite matchSeq_Close.
    assert (Ht : t = hashes ++ dropWhile (lit "#") t)
      by (symmetry; apply takeWhile_dropWhile).
    rewrite matchSeq_space_text by (apply (trim_gap_rest line hashes Ht)).
    fold rest.
    destruct (negb (isEmpty (takeWhile isSpace (dropWhile (lit "#") t)))) eqn:Eg;
      [|reflexivity].
    cbn [andb]. destruct (forallb dot rest) eqn:Ed.
    + destruct (trim_gap_rest line hashes Ht) as [Hr|Hr].
      * fold t rest in Hr. destruct rest as [|r0 rest'] eqn:Er; [contradiction|].
        cbn [isEmpty negb andb mark groups]. rewrite between_nil.
        rewrite between_dropWhile, between_nil. reflexivity.
      * fold t in Hr. rewrite Hr in Eg. discriminate.
    + rewrite andb_false_r. reflexivity.
  - rewrite Nat.min_l by lia. cbn [Nat.leb].
    rewrite (proj2 (Nat.leb_gt _ _) Hgt), andb_false_r. cbn [andb].
    destruct (skipn_in_run (lit "#") None t 6) as [c [s' [Hs Hc]]];
      [rewrite maxRun_takeWhile; exact Hgt|].
    rewrite Hs, tocline_after_hash by exact Hc. reflexivity.
Qed.

Lemma stripBackticks_filter s :
  replaceAll re_backtick (fun _ => []) s = List.filter notBacktick s.
Proof.
  unfold replaceAll, re_backtick. rewrite gsub_one, flat_map_drop. reflexivity.
Qed.

Lemma Forall_takeWhile (P : jchar -> Prop) p s :
  Forall P s -> Forall P (takeWhile p s).
Proof.
  induction 1 as [|c s Hc Hs IH]; cbn; [constructor|].
  destruct (p c); constructor; assumption.
Qed.

Lemma Forall_filter (P : jchar -> Prop) p s :
  Forall P s -> Forall P (List.filter p s).
Proof.
  induction 1 as [|c s Hc Hs IH]; cbn; [constructor|].
  destruct (p c); [constructor|]; assumption.
Qed.

Lemma dropWhile_app_all cs (a b : jstring) :
  forallb cs a = true -> dropWhile cs (a ++ b) = dropWhile cs b.
Proof.
  induction a as [|c a IH]; [reflexivity|]. cbn. intros H.
  apply andb_true_iff in H as [Hc Ha]. rewrite Hc. apply IH, Ha.
Qed.

Lemma takeWhile_repeat_hash n c s :
  lit "#" c = false ->
  takeWhile (lit "#") (repeat (chr "#") n ++ c :: s) = repeat (chr "#") n
  /\ dropWhile (lit "#") (repeat (chr "#") n ++ c :: s) = c :: s.
Proof.
  intros Hc. induction n as [|n [IH1 IH2]]; cbn [repeat app takeWhile dropWhile].
  - rewrite Hc. split; reflexivity.
  - replace (lit "#" (chr "#")) with true by reflexivity.
    rewrite IH1, IH2. split; reflexivity.
Qed.

Lemma tocLine_direct toLowerCase line :
  tocLine toLowerCase line = tocLineSpec toLowerCase line.
Proof.
  unfold tocLine, tocLineSpec. rewrite tocline_match.
  match goal with |- context [if ?b then Some [_; _; _] else None] =>
    destruct b end; [|reflexivity].
  unfold tocEntry. rewrite stripBackticks_filter. reflexivity.
Qed.

Lemma toc_fold toLowerCase lines acc :
  fold_left
    (fun items line =>
       match tocLine toLowerCase line with
       | Some it => items ++ [it]
       | None => items
       end) lines acc
  = acc ++ omap (tocLine toLowerCase) lines.
Proof.
  revert acc. induction lines as [|l lines IH]; intros acc; cbn.
  - rewrite app_nil_r. reflexivity.
  - rewrite IH. destruct (tocLine toLowerCase l); [|reflexivity].
    rewrite <- app_assoc. reflexivity.
Qed.

(** The loop of [toc] keeps, in order, one entry for each line that has
    one. *)
Lemma toc_omap toLowerCase content :
  toc toLowerCase content = omap (tocLine toLowerCase) (split LF content).
Proof. unfold toc. apply toc_fold. Qed.

Section TocFacts.

Variable toLowerCase : jstring -> jstring.
Hypothesis lower_ascii :
  forall s, forallb isAscii s = true -> toLowerCase s = List.map asciiLower s.

Lemma slugify_ascii s :
  forallb isAscii s = true -> slugify toLowerCase s = slugify lowerAsciiOnly s.
Proof. intros H. unfold slugify. rewrite lower_ascii by exact H. reflexivity. Qed.

Lemma tocLine_ascii line :
  Forall (fun c => isAscii c = true) line ->
  tocLine toLowerCase line = tocLine lowerAsciiOnly line.
Proof.
  intros H. rewrite !tocLine_direct. unfold tocLineSpec.
  match goal with |- context [if ?b then _ else None] => destruct b end;
    [|reflexivity].
  unfold tocEntry. rewrite slugify_ascii; [reflexivity|].
  apply forallb_forall, List.Forall_forall.
  apply Forall_trim, Forall_filter, Forall_dropWhile, Forall_dropWhile, Forall_trim.
  exact H.
Qed.

Lemma toc_ascii content :
  forallb isAscii content = true ->
  toc toLowerCase content = toc lowerAsciiOnly content.
Proof.
  intros H. rewrite !toc_omap.
  assert (Hl : Forall (Forall (fun c => isAscii c = true)) (split LF content)).
  { apply split_Forall, List.Forall_forall, forallb_forall, H. }
  induction Hl as [|l ls Hl Hls IH]; [reflexivity|].
  cbn [omap list_omap]. rewrite (tocLine_ascii l Hl), IH. reflexivity.
Qed.

(** A trimmed line of one to six ["#"], a space and text. *)
Lemma tocLine_heading line n text :
  trim line = repeat (chr "#") n ++ chr " " :: text ->
  (1 <= n <= 6)%nat -> forallb dot text = true ->
  tocLine toLowerCase line
  = Some (tocEntry toLowerCase (repeat (chr "#") n) text).
Proof.
  intros Ht Hn Hdot. rewrite tocLine_direct. unfold tocLineSpec.
  pose proof (trim_gap_rest line (takeWhile (lit "#") (trim line))
                (eq_sym (takeWhile_dropWhile _ _))) as Hgap.
  cbn zeta in Hgap. rewrite Ht in *.
  destruct (takeWhile_repeat_hash n (chr " ") text eq_refl) as [-> ->].
  rewrite (proj2 (takeWhile_repeat_hash n (chr " ") text eq_refl)) in Hgap.
  rewrite repeat_length.
  rewrite (proj2 (Nat.leb_le 1 n)), (proj2 (Nat.leb_le n 6)) by lia.
  change (takeWhile isSpace (chr " " :: text))
    with (chr " " :: takeWhile isSpace text) in *.
  change (dropWhile isSpace (chr " " :: text)) with (dropWhile isSpace text) in *.
  destruct Hgap as [Hrest|]; [|discriminate].
  cbn [isEmpty negb andb].
  assert (Hsplit := takeWhile_dropWhile isSpace text).
  assert (Hd : forallb dot (dropWhile isSpace text) = true).
  { rewrite <- Hsplit, forallb_app in Hdot. apply andb_true_iff in Hdot. tauto. }
  rewrite Hd. destruct (dropWhile isSpace text) as [|r0 rest] eqn:Er; [contradiction|].
  cbn [isEmpty negb andb]. f_equal. unfold tocEntry.
  assert (Htw : forallb isSpace (takeWhile isSpace text) = true)
    by apply takeWhile_all.
  revert Hsplit Htw. generalize (takeWhile isSpace text). intros tw Hsplit Htw.
  assert (Htx : trim (List.filter notBacktick (r0 :: rest))
                = trim (List.filter notBacktick text)).
  { rewrite <- Hsplit. rewrite List.filter_app.
    rewrite (filter_all notBacktick tw).
    - unfold trim, trimStart. rewrite dropWhile_app_all by exact Htw.
      reflexivity.
    - apply List.Forall_forall. intros c Hc.
      assert (Hs : isSpace c = true)
        by (rewrite forallb_forall in Htw; apply Htw, Hc).
      unfold notBacktick. destruct (lit "`" c) eqn:Eb; [|reflexivity].
      unfold lit in Eb. apply N.eqb_eq in Eb. subst c. discriminate. }
  rewrite Htx. reflexivity.
Qed.

(** C8: the outline holds, in document order and with nothing filtered or
    merged, one entry for every line of the text (split at LF, fenced or not)
    whose trimmed form is one to six ["#"], whitespace, and text free of line
    terminators: its level is the number of ["#"], its text the rest without
    backticks, trimmed, and its id the slug of that text.  The text
    "# Title\n\nSome text\n## Sub `code` Heading\n" yields the entries
    (1, "Title", "title") and (2, "Sub code Heading", "sub-code-heading"). *)
Theorem toc_spec :
  (forall content,
     toc toLowerCase content = omap (tocLine toLowerCase) (split LF content))
  /\ (forall line, tocLine toLowerCase line = tocLineSpec toLowerCase line)
  /\ (forall line n text,
        trim line = repeat (chr "#") n ++ chr " " :: text ->
        (1 <= n <= 6)%nat -> forallb dot text = true ->
        tocLine toLowerCase line
        = Some (TocItem.Make
                  (slugify toLowerCase (trim (List.filter notBacktick text)))
                  (trim (List.filter notBacktick text)) n))
  /\ toc toLowerCase
       (u "# Title" ++ [LF; LF] ++ u "Some text" ++ [LF]
        ++ u "## Sub `code` Heading" ++ [LF])
     = [TocItem.Make (u "title") (u "Title") 1;
        TocItem.Make (u "sub-code-heading") (u "Sub code Heading") 2]
  /\ toc toLowerCase
       (u "```" ++ [LF] ++ u "# not code" ++ [LF] ++ u "```" ++ [LF] ++ u "# # Same"
        ++ [LF] ++ u "# # Same")
     = [TocItem.Make (u "not-code") (u "not code") 1;
        TocItem.Make (u "same") (u "# Same") 1;
        TocItem.Make (u "same") (u "# Same") 1].
Proof.
  split; [apply toc_omap|]. split; [apply tocLine_direct|]. split; [|split].
  - intros line n text Ht Hn Hdot.
    rewrite (tocLine_heading line n text Ht Hn Hdot). unfold tocEntry.
    rewrite repeat_length. reflexivity.
  - rewrite toc_ascii by reflexivity. vm_compute. reflexivity.
  - rewrite toc_ascii by reflexivity. vm_compute. reflexivity.
Qed.

End TocFacts.

Lemma toc_spec_witness :
  (forall s, forallb isAscii s = true -> lowerAsciiOnly s = List.map asciiLower s)
  /\ tocLine lowerAsciiOnly (u "  ### The `x` flag  ")
     = Some (TocItem.Make (u "the-x-flag") (u "The x flag") 3).
Proof.
  split; [intros s _; reflexivity|].
  apply (proj1 (proj2 (proj2 (toc_spec lowerAsciiOnly (fun s _ => eq_refl))))
           (u "  ### The `x` flag  ") 3%nat (u "The `x` flag"));
    [reflexivity|lia|reflexivity].
Defined.

(** ** Enumeration and ordering of the documents *)

Lemma md_match p s :
  matchAt re_md p s = if eqs s (u ".md") then Some ([], []) else None.
Proof.
  unfold matchAt. change (multiline re_md) with false.
  change (atoms re_md) with [one (lit "."); one (lit "m"); one (lit "d"); Eol].
  unfold eqs. change (u ".md") with [chr "."; chr "m"; chr "d"].
  destruct s as [|c1 s]; [reflexivity|]. rewrite matchSeq_one.
  destruct (lit "." c1) eqn:E1;
    [|rewrite bool_decide_eq_false_2; [reflexivity|]; intros [= -> _]; discriminate].
  destruct s as [|c2 s];
    [rewrite bool_decide_eq_false_2; [reflexivity|discriminate]|].
  rewrite matchSeq_one.
  destruct (lit "m" c2) eqn:E2;
    [|rewrite bool_decide_eq_false_2; [reflexivity|]; intros [= _ -> _]; discriminate].
  destruct s as [|c3 s];
    [rewrite bool_decide_eq_false_2; [reflexivity|discriminate]|].
  rewrite matchSeq_one.
  destruct (lit "d" c3) eqn:E3;
    [|rewrite bool_decide_eq_false_2; [reflexivity|]; intros [= _ _ -> _]; discriminate].
  unfold lit in *. apply N.eqb_eq in E1, E2, E3. subst.
  destruct s as [|c4 s].
  - rewrite bool_decide_eq_true_2 by reflexivity. reflexivity.
  - rewrite bool_decide_eq_false_2 by discriminate. reflexivity.
Qed.

Lemma stripMd_direct filename :
  replaceFirst re_md (fun _ => []) filename = stripMd filename.
Proof.
  unfold replaceFirst. generalize (@None jchar).
  induction filename as [|c s IH]; intros p.
  - reflexivity.
  - cbn [replaceFrom stripMd]. rewrite md_match.
    destruct (eqs (c :: s) (u ".md")) eqn:E.
    + reflexivity.
    + rewrite IH. reflexivity.
Qed.

Lemma digit_not_sep c : isDigit c = true -> isSep c = false.
Proof.
  intros H. unfold isSep, lit, chr. cbn. unfold isDigit in H. prop_bools.
  apply orb_false_iff. split; apply N.eqb_neq; lia.
Qed.

Lemma order_after_digit p c s :
  isDigit c = true ->
  matchSeq false [Close; one isSep; Open; plus dot; Close; Eol] p (c :: s) = None.
Proof.
  intros Hc. rewrite matchSeq_Close, matchSeq_one, (digit_not_sep c Hc). reflexivity.
Qed.

(** The match of the order-prefix pattern on a stem. *)
Lemma order_match base :
  exec re_order base
  = match orderPrefix base with
    | Some (digits, rem) => Some [base; digits; rem]
    | None => None
    end.
Proof.
  rewrite exec_anchored by reflexivity. unfold matchAt.
  change (multiline re_order) with false.
  change (atoms re_order) with
    [Bol; Open; Rep isDigit 2 (Some 3%nat); Close; one isSep;
     Open; plus dot; Close; Eol].
  rewrite matchSeq_Bol, matchSeq_Open. cbn [atBol].
  rewrite matchSeq_Rep_disjoint by (intros; apply order_after_digit; assumption).
  rewrite maxRun_capped, maxRun_takeWhile. unfold orderPrefix.
  set (digits := takeWhile isDigit base).
  destruct (Nat.le_gt_cases (length digits) 3) as [Hle|Hgt].
  - rewrite Nat.min_r by exact Hle. rewrite (proj2 (Nat.leb_le _ _) Hle).
    unfold digits at 3. rewrite skipn_takeWhile.
    destruct (2 <=? length digits)%nat eqn:E2.
    + rewrite matchSeq_Close. destruct (dropWhile isDigit base) as [|sep rem] eqn:Ea;
        [reflexivity|].
      rewrite matchSeq_one. cbn [andb]. destruct (isSep sep); [|reflexivity].
      rewrite matchSeq_text_end. cbn [andb].
      destruct (negb (isEmpty rem) && forallb dot rem); [|reflexivity].
      cbn [mark groups]. rewrite !between_nil, <- Ea, between_dropWhile. reflexivity.
    + destruct (dropWhile isDigit base); reflexivity.
  - rewrite Nat.min_l by lia.
    rewrite (proj2 (Nat.leb_gt _ _) Hgt), andb_false_r. cbn [Nat.leb andb].
    destruct (skipn_in_run isDigit None base 3) as [c [s' [Hs Hc]]];
      [rewrite maxRun_takeWhile; exact Hgt|].
    rewrite Hs, order_after_digit by exact Hc.
    destruct (dropWhile isDigit base); reflexivity.
Qed.

(** Each entry, read directly from its key. *)
Lemma toItem_direct k :
  toItem k =
  let base := stripMd (lastSegment k) in
  Item.Make k base (snd (orderAndSlug base))
            (fallbackTitle (snd (orderAndSlug base))) (fst (orderAndSlug base)).
Proof.
  unfold toItem, orderAndSlug. rewrite stripMd_direct, order_match. cbn zeta.
  destruct (orderPrefix (stripMd (lastSegment k))) as [[digits rem]|].
  - reflexivity.
  - destruct (eqs (stripMd (lastSegment k)) (u "index")); reflexivity.
Qed.

Section SortFacts.

Context {A : Type} (cmp : A -> A -> comparison).
Hypothesis cmp_antisym : forall a b, cmp b a = CompOpp (cmp a b).
Hypothesis cmp_trans :
  forall a b c, cmp a b <> Gt -> cmp b c <> Gt -> cmp a c <> Gt.

Lemma insertSorted_perm x l : Permutation (insertSorted cmp x l) (x :: l).
Proof using Type.
  induction l as [|y l IH]; cbn; [reflexivity|].
  destruct (cmp x y); try reflexivity.
  rewrite IH. apply perm_swap.
Qed.

Lemma sort_perm l : Permutation (sort cmp l) l.
Proof using Type.
  induction l as [|x l IH]; cbn; [reflexivity|].
  rewrite insertSorted_perm, IH. reflexivity.
Qed.

Lemma insertSorted_sorted x l :
  StronglySorted (fun a b => cmp a b <> Gt) l ->
  StronglySorted (fun a b => cmp a b <> Gt) (insertSorted cmp x l).
Proof using cmp_antisym cmp_trans.
  induction 1 as [|y l Hl IH Hy]; cbn.
  - constructor; constructor.
  - destruct (cmp x y) eqn:E.
    + constructor; [constructor; assumption|].
      constructor; [congruence|].
      eapply List.Forall_impl; [|exact Hy]. intros z Hz.
      apply (cmp_trans x y z); [congruence|exact Hz].
    + constructor; [constructor; assumption|].
      constructor; [congruence|].
      eapply List.Forall_impl; [|exact Hy]. intros z Hz.
      apply (cmp_trans x y z); [congruence|exact Hz].
    + constructor; [exact IH|].
      assert (Hp : Permutation (x :: l) (insertSorted cmp x l))
        by (symmetry; apply insertSorted_perm).
      apply (Permutation_Forall Hp).
      constructor; [|exact Hy]. rewrite cmp_antisym, E. discriminate.
Qed.

Lemma sort_sorted l : StronglySorted (fun a b => cmp a b <> Gt) (sort cmp l).
Proof using cmp_antisym cmp_trans.
  induction l as [|x l IH]; cbn; [constructor|]. apply insertSorted_sorted, IH.
Qed.

End SortFacts.

Lemma orderEq_eq a b : orderEq a b = true <-> a = b.
Proof.
  destruct a as [|m|], b as [|n|]; cbn; try (split; [discriminate|discriminate]);
    try tauto.
  rewrite N.eqb_eq. split; [intros ->; reflexivity|intros [= ->]; reflexivity].
Qed.

Lemma orderLt_irrefl a : ~ orderLt a a.
Proof. destruct a; cbn; [tauto|lia|tauto]. Qed.

Lemma orderLt_trans a b c : orderLt a b -> orderLt b c -> orderLt a c.
Proof. destruct a, b, c; cbn; try tauto; lia. Qed.

Lemma orderSub_lt a b : a <> b -> (orderSub a b <> Gt <-> orderLt a b).
Proof.
  destruct a as [|m|], b as [|n|]; cbn; intros Hne;
    try (split; [intros _; exact I|discriminate]);
    try (split; [congruence|tauto]).
  rewrite N.compare_ngt_iff. split; intros H.
  - assert (m <> n) by congruence. lia.
  - lia.
Qed.

Lemma takeWhile_app_stop cs (a : jstring) c s :
  forallb cs a = true -> cs c = false ->
  takeWhile cs (a ++ c :: s) = a /\ dropWhile cs (a ++ c :: s) = c :: s.
Proof.
  intros Ha Hc. induction a as [|x a IH]; cbn.
  - rewrite Hc. split; reflexivity.
  - cbn in Ha. apply andb_true_iff in Ha as [Hx Ha]. rewrite Hx.
    destruct (IH Ha) as [-> ->]. split; reflexivity.
Qed.

Lemma sep_not_digit c : isSep c = true -> isDigit c = false.
Proof.
  intros H. destruct (isDigit c) eqn:E; [|reflexivity].
  rewrite (digit_not_sep c E) in H. discriminate.
Qed.

(** [orderPrefix] in the words of the specification. *)
Lemma orderPrefix_iff base digits rem :
  orderPrefix base = Some (digits, rem) <->
  exists sep,
    base = digits ++ sep :: rem
    /\ (2 <= length digits <= 3)%nat /\ forallb isDigit digits = true
    /\ isSep sep = true /\ rem <> [] /\ forallb dot rem = true.
Proof.
  unfold orderPrefix. split.
  - pose proof (takeWhile_dropWhile isDigit base) as Hsplit.
    pose proof (takeWhile_all isDigit base) as Hall.
    destruct (dropWhile isDigit base) as [|sep r]; [discriminate|].
    destruct (_ && _) eqn:E; [|discriminate].
    intros [= <- <-]. exists sep.
    repeat (apply andb_true_iff in E as [E ?]).
    apply Nat.leb_le in E. repeat split; try assumption.
    + symmetry. exact Hsplit.
    + apply Nat.leb_le. assumption.
    + destruct r; [discriminate|discriminate].
  - intros [sep [-> [[H2 H3] [Hd [Hs [Hr Hdot]]]]]].
    destruct (takeWhile_app_stop isDigit digits sep rem Hd (sep_not_digit sep Hs))
      as [-> ->].
    rewrite (proj2 (Nat.leb_le _ _) H2), (proj2 (Nat.leb_le _ _) H3), Hs, Hdot.
    destruct rem; [contradiction|reflexivity].
Qed.

Section OrderFacts.

Variable localeCompare : jstring -> jstring -> comparison.
Hypothesis locale_antisym :
  forall a b, localeCompare b a = CompOpp (localeCompare a b).
Hypothesis locale_trans :
  forall a b c, localeCompare a b <> Gt -> localeCompare b c <> Gt ->
                localeCompare a c <> Gt.

(** The comparator of [items.sort] is the order of the specification. *)
Lemma compareItems_le a b :
  compareItems localeCompare a b <> Gt <-> itemLe localeCompare a b.
Proof using Type.
  unfold compareItems, itemLe.
  destruct (orderEq (Item.order a) (Item.order b)) eqn:E.
  - apply orderEq_eq in E. split.
    + intros H. right. split; assumption.
    + intros [H|[_ H]]; [|exact H]. rewrite E in H.
      destruct (orderLt_irrefl _ H).
  - assert (Hne : Item.order a <> Item.order b).
    { intros H. apply orderEq_eq in H. congruence. }
    rewrite (orderSub_lt _ _ Hne). split; [tauto|].
    intros [H|[H _]]; [exact H|contradiction].
Qed.

Lemma orderEq_sym a b : orderEq a b = orderEq b a.
Proof.
  destruct a, b; cbn; try reflexivity. apply N.eqb_sym.
Qed.

Lemma compareItems_antisym a b :
  compareItems localeCompare b a = CompOpp (compareItems localeCompare a b).
Proof using locale_antisym.
  unfold compareItems. rewrite (orderEq_sym (Item.order b)).
  destruct (orderEq (Item.order a) (Item.order b)); [apply locale_antisym|].
  destruct (Item.order a), (Item.order b); cbn; try reflexivity.
  apply N.compare_antisym.
Qed.

Lemma compareItems_trans a b c :
  compareItems localeCompare a b <> Gt -> compareItems localeCompare b c <> Gt ->
  compareItems localeCompare a c <> Gt.
Proof using locale_trans.
  rewrite !compareItems_le. unfold itemLe.
  intros [Hab|[Eab Hab]] [Hbc|[Ebc Hbc]].
  - left. eapply orderLt_trans; eassumption.
  - left. rewrite <- Ebc. exact Hab.
  - left. rewrite Eab. exact Hbc.
  - right. split; [congruence|]. eapply locale_trans; eassumption.
Qed.

(** C1: every key under the language's namespace gives one entry, whose stem
    is the file name without [".md"]; a stem of two or three ASCII digits,
    ["_"] or ["-"], and a remainder gets the digits (base 10) as order and the
    remainder as display slug; the stem "index" gets negative infinity; any
    other stem gets positive infinity and is its own display slug.  The list
    is sorted ascending by order, ties broken by the locale comparison of the
    titles.  For index.md, 001_intro.md, 010-advanced.md and readme.md the
    order is index, intro, advanced, readme. *)
Theorem items_spec :
  (forall k,
     toItem k =
     let base := stripMd (lastSegment k) in
     Item.Make k base (snd (orderAndSlug base))
               (fallbackTitle (snd (orderAndSlug base))) (fst (orderAndSlug base)))
  /\ (forall base digits rem,
        orderPrefix base = Some (digits, rem) <->
        exists sep,
          base = digits ++ sep :: rem
          /\ (2 <= length digits <= 3)%nat /\ forallb isDigit digits = true
          /\ isSep sep = true /\ rem <> [] /\ forallb dot rem = true)
  /\ (forall docFiles language,
        Permutation (items docFiles localeCompare language)
          (List.map toItem
             (List.filter (fun k => startsWith k (u "../content/" ++ language ++ u "/"))
                          (List.map fst docFiles))))
  /\ (forall docFiles language,
        StronglySorted (itemLe localeCompare) (items docFiles localeCompare language))
  /\ (forall l1 l2 l3 l4 l5 : loader,
        List.map Item.displaySlug
          (items [(u "../content/en/index.md", l1);
                  (u "../content/ko/000_first.md", l5);
                  (u "../content/en/001_intro.md", l2);
                  (u "../content/en/010-advanced.md", l3);
                  (u "../content/en/readme.md", l4)] localeCompare (u "en"))
        = [u "index"; u "intro"; u "advanced"; u "readme"])
  /\ (forall l1 l2 l3 l4 : loader,
        List.map (fun i => (Item.slug i, Item.order i))
          (items [(u "../content/en/readme.md", l4);
                  (u "../content/en/010-advanced.md", l3);
                  (u "../content/en/001_intro.md", l2);
                  (u "../content/en/index.md", l1)] localeCompare (u "en"))
        = [(u "index", NegInf); (u "001_intro", Fin 1);
           (u "010-advanced", Fin 10); (u "readme", PosInf)]).
Proof using locale_antisym locale_trans.
  split; [exact toItem_direct|]. split; [exact orderPrefix_iff|].
  split; [|split; [|split]].
  - intros docFiles language. apply sort_perm.
  - intros docFiles language. unfold items.
    pose proof (sort_sorted (compareItems localeCompare) compareItems_antisym
                  compareItems_trans
                  (List.map toItem (keys docFiles language))) as H.
    induction H as [|x l Hl IH Hx]; constructor; [exact IH|].
    eapply List.Forall_impl; [|exact Hx]. intros y. apply compareItems_le.
  - intros. vm_compute. reflexivity.
  - intros. vm_compute. reflexivity.
Qed.

End OrderFacts.

Lemma codeUnitCompare_antisym a b :
  codeUnitCompare b a = CompOpp (codeUnitCompare a b).
Proof.
  revert b. induction a as [|x a IH]; intros [|y b]; cbn; try reflexivity.
  rewrite (N.compare_antisym x y). destruct (N.compare x y); cbn; auto.
Qed.

Lemma codeUnitCompare_trans a b c :
  codeUnitCompare a b <> Gt -> codeUnitCompare b c <> Gt ->
  codeUnitCompare a c <> Gt.
Proof.
  revert b c. induction a as [|x a IH]; intros [|y b] [|z c]; cbn;
    try congruence.
  destruct (N.compare_spec x y) as [->|Hxy|Hxy]; [| |congruence].
  - destruct (N.compare_spec y z) as [->|Hyz|Hyz]; [| |congruence].
    + apply IH.
    + congruence.
  - intros _. destruct (N.compare_spec y z) as [->|Hyz|Hyz]; [| |congruence].
    + intros _. rewrite (proj2 (N.compare_lt_iff x z) Hxy). discriminate.
    + intros _. rewrite (proj2 (N.compare_lt_iff x z)) by lia. discriminate.
Qed.

Lemma items_spec_witness :
  StronglySorted (itemLe codeUnitCompare)
    (items [(u "../content/en/b.md", None); (u "../content/en/a.md", None);
            (u "../content/en/02_z.md", None)] codeUnitCompare (u "en")).
Proof.
  apply (items_spec codeUnitCompare codeUnitCompare_antisym codeUnitCompare_trans).
Defined.

(** ** The title of a document *)

Lemma lineTerminator_space c : isLineTerminator c = true -> isSpace c = true.
Proof.
  unfold isLineTerminator. intros H.
  repeat (apply orb_true_iff in H as [H|H]); apply N.eqb_eq in H; subst c;
    reflexivity.
Qed.

Lemma nonspace_dot c : isSpace c = false -> dot c = true.
Proof.
  intros H. unfold dot. destruct (isLineTerminator c) eqn:E; [|reflexivity].
  rewrite (lineTerminator_space c E) in H. discriminate.
Qed.

Lemma atEol_dropWhile_dot x : atEol true (dropWhile dot x) = true.
Proof.
  destruct (dropWhile dot x) as [|c s] eqn:E; [reflexivity|].
  apply dropWhile_head in E. unfold dot in E. apply negb_false_iff in E.
  cbn. exact E.
Qed.

(** The pattern tail [(.+)$] under the [m] flag: the longest run free of
    line terminators, which must not be empty. *)
Lemma matchSeq_text_eol p x :
  matchSeq true [Open; plus dot; Close; Eol] p x
  = if isEmpty (takeWhile dot x) then None
    else Some ([x; dropWhile dot x], dropWhile dot x).
Proof.
  rewrite matchSeq_Open. unfold plus.
  rewrite matchSeq_Rep_disjoint.
  - rewrite maxRun_takeWhile, skipn_takeWhile.
    destruct (takeWhile dot x) as [|c t]; [reflexivity|].
    cbn [length Nat.leb isEmpty]. rewrite matchSeq_Close. cbn [matchSeq].
    rewrite atEol_dropWhile_dot. reflexivity.
  - intros p' c s' Hc. rewrite matchSeq_Close. cbn [matchSeq atEol andb].
    unfold dot in Hc. apply negb_true_iff in Hc. rewrite Hc. reflexivity.
Qed.

Lemma takeWhile_none cs c s : cs c = false -> takeWhile cs (c :: s) = [].
Proof. intros H. cbn. rewrite H. reflexivity. Qed.

Lemma Forall_skipn_jstring (P : jchar -> Prop) j (s : jstring) :
  Forall P s -> Forall P (skipn j s).
Proof.
  intros H. revert j. induction H as [|c s Hc Hs IH]; intros [|j]; cbn;
    try constructor; try assumption. apply IH.
Qed.

Lemma trim_spaces s : Forall (fun c => isSpace c = true) s -> trim s = [].
Proof.
  intros H. unfold trim, trimStart.
  assert (E : dropWhile isSpace s = []).
  { induction H as [|c s Hc Hs IH]; [reflexivity|]. cbn. rewrite Hc. exact IH. }
  rewrite E. reflexivity.
Qed.

Lemma backFrom_some k lo p s n :
  backFrom k lo p s n <> None ->
  exists j res, (lo <= j <= n)%nat
    /\ k (prevAfter p s j) (skipn j s) = Some res
    /\ backFrom k lo p s n = Some res.
Proof.
  induction n as [|n IH]; cbn [backFrom].
  - destruct (lo <=? 0)%nat eqn:E; [|congruence]. apply Nat.leb_le in E.
    destruct (k (prevAfter p s 0) (skipn 0 s)) as [res|] eqn:Ek; [|congruence].
    intros _. exists 0%nat, res. repeat split; try lia; assumption.
  - destruct (lo <=? S n)%nat eqn:E.
    + apply Nat.leb_le in E.
      destruct (k (prevAfter p s (S n)) (skipn (S n) s)) as [res|] eqn:Ek.
      * intros _. exists (S n), res. repeat split; try lia; assumption.
      * intros H. destruct (IH H) as [j [res [Hj [Hk Hb]]]].
        exists j, res. repeat split; try lia; assumption.
    + intros H. destruct (IH H) as [j [res [Hj [Hk Hb]]]].
      exists j, res. repeat split; try lia; assumption.
Qed.

(** [\s+(.+)$] under the [m] flag on input that is whitespace to its end. *)
Lemma heading_blank_tail p w gapTail :
  forallb isSpace (w :: gapTail) = true ->
  match matchSeq true [plus isSpace; Open; plus dot; Close; Eol] p (w :: gapTail) with
  | Some (ms, e) =>
      exists g1, groups ms = [g1] /\ trim g1 = [] /\ existsb dot gapTail = true
  | None => existsb dot gapTail = false
  end.
Proof.
  intros Hws. unfold plus at 1. rewrite matchSeq_Rep.
  assert (Hrun : maxRun isSpace None (w :: gapTail) = length (w :: gapTail))
    by (apply forallb_maxRun, Hws).
  rewrite Hrun.
  destruct (existsb dot gapTail) eqn:Ex.
  - assert (Hne : backFrom (matchSeq true [Open; plus dot; Close; Eol]) 1 p
                    (w :: gapTail) (length (w :: gapTail)) <> None).
    { intros Hnone. apply existsb_exists in Ex as [c [Hin Hc]].
      apply In_nth_error in Hin as [i Hi].
      assert (Hlen : (i < length gapTail)%nat)
        by (apply nth_error_Some; congruence).
      destruct (nth_error_split _ _ Hi) as [l1 [l2 [Hsplit Hl1]]].
      (* the attempt after giving back down to position [S i] succeeds *)
      assert (Hk : matchSeq true [Open; plus dot; Close; Eol]
                     (prevAfter p (w :: gapTail) (S i)) (skipn (S i) (w :: gapTail))
                   <> None).
      { cbn [skipn]. rewrite Hsplit, <- Hl1, skipn_app, Nat.sub_diag, skipn_all.
        cbn [app skipn]. rewrite matchSeq_text_eol. cbn [takeWhile].
        rewrite Hc. discriminate. }
      revert Hnone Hk.
      generalize (matchSeq true [Open; plus dot; Close; Eol]). intros k.
      assert (Hle : (S i <= length (w :: gapTail))%nat) by (cbn; lia).
      revert Hle. generalize (length (w :: gapTail)). intros n.
      induction n as [|n IHn]; intros Hle; [lia|]. cbn [backFrom].
      destruct (Nat.eq_dec (S i) (S n)) as [E|E].
      - rewrite <- E. cbn [Nat.leb]. intros H Hk.
        destruct (k (prevAfter p (w :: gapTail) (S i)) (skipn (S i) (w :: gapTail)));
          congruence.
      - cbn [Nat.leb]. intros H Hk.
        destruct (k (prevAfter p (w :: gapTail) (S n)) (skipn (S n) (w :: gapTail)));
          [discriminate|].
        apply IHn; [lia| |exact Hk]. destruct n; [lia|]. exact H. }
    destruct (backFrom_some _ _ _ _ _ Hne) as [j [res [Hj [Hk Hb]]]].
    rewrite Hb. rewrite matchSeq_text_eol in Hk.
    destruct (isEmpty (takeWhile dot (skipn j (w :: gapTail)))); [discriminate|].
    injection Hk as <-. exists (between (skipn j (w :: gapTail))
                                  (dropWhile dot (skipn j (w :: gapTail)))).
    split; [reflexivity|]. split; [|reflexivity].
    rewrite between_dropWhile. apply trim_spaces.
    apply Forall_takeWhile, Forall_skipn_jstring.
    apply List.Forall_forall, forallb_forall, Hws.
  - rewrite backFrom_none; [reflexivity|].
    intros j Hj Hlo. rewrite matchSeq_text_eol.
    destruct j as [|j]; [lia|]. cbn [skipn].
    destruct (skipn j gapTail) as [|c t] eqn:Es; [reflexivity|].
    assert (Hin : In c gapTail).
    { rewrite <- (firstn_skipn j gapTail), Es. apply in_or_app. right. left.
      reflexivity. }
    assert (Hc : dot c = false).
    { destruct (dot c) eqn:Ec; [|reflexivity].
      assert (existsb dot gapTail = true)
        by (apply existsb_exists; exists c; split; assumption).
      congruence. }
    rewrite (takeWhile_none dot c t Hc). reflexivity.
Qed.

Lemma heading_after_space p c s :
  isSpace c = true ->
  matchSeq true
    [one (lit "#"); plus isSpace; Open; plus dot; Close; Eol] p (c :: s) = None.
Proof.
  intros Hc. rewrite matchSeq_one. destruct (lit "#" c) eqn:E; [|reflexivity].
  rewrite (hash_not_space c E) in Hc. discriminate.
Qed.

(** One attempt of the title pattern, at a given position. *)
Lemma heading_at prev s :
  match matchAt re_heading prev s with
  | Some (ms, e) =>
      exists g1 gs, groups ms = g1 :: gs
        /\ (if atBol true prev then headingAt s else None) = Some (trim g1)
  | None => (if atBol true prev then headingAt s else None) = None
  end.
Proof.
  unfold matchAt. change (multiline re_heading) with true.
  change (atoms re_heading) with
    [Bol; star isSpace; one (lit "#"); plus isSpace; Open; plus dot; Close; Eol].
  rewrite matchSeq_Bol. destruct (atBol true prev); [|reflexivity].
  unfold star.
  rewrite matchSeq_Rep_disjoint by (intros; apply heading_after_space; assumption).
  cbn [Nat.leb]. rewrite maxRun_takeWhile, skipn_takeWhile. unfold headingAt.
  destruct (dropWhile isSpace s) as [|c s2]; rewrite matchSeq_one; [reflexivity|].
  destruct (lit "#" c); [|reflexivity].
  pose proof (takeWhile_dropWhile isSpace s2) as Hsplit.
  pose proof (takeWhile_all isSpace s2) as Hall.
  destruct (takeWhile isSpace s2) as [|w gapTail] eqn:Eg.
  - unfold plus at 1. rewrite matchSeq_Rep, maxRun_takeWhile, Eg. reflexivity.
  - destruct (dropWhile isSpace s2) as [|r0 rest] eqn:Er.
    + rewrite app_nil_r in Hsplit. rewrite <- Hsplit.
      pose proof (heading_blank_tail (Some c) w gapTail Hall) as Hb.
      destruct (matchSeq true [plus isSpace; Open; plus dot; Close; Eol]
                  (Some c) (w :: gapTail)) as [[ms e]|].
      * destruct Hb as [g1 [Hg [Ht ->]]]. exists g1, []. rewrite Ht.
        split; [exact Hg|reflexivity].
      * rewrite Hb. reflexivity.
    + assert (Hr0 : dot r0 = true)
        by (apply nonspace_dot, (dropWhile_head _ _ _ _ Er)).
      unfold plus at 1. rewrite matchSeq_Rep, maxRun_takeWhile, Eg.
      rewrite (backFrom_top _ 1 (Some c) s2 (length (w :: gapTail))
                 ([r0 :: rest; dropWhile dot (r0 :: rest)],
                  dropWhile dot (r0 :: rest))).
      * exists (takeWhile dot (r0 :: rest)), []. split; [|reflexivity].
        cbn [groups]. rewrite between_dropWhile. reflexivity.
      * cbn. lia.
      * rewrite <- Eg, skipn_takeWhile, Er, matchSeq_text_eol.
        cbn [takeWhile]. rewrite Hr0. reflexivity.
Qed.

(** The leftmost match of the title pattern is the scan of the raw text. *)
Lemma heading_scan s :
  forall prev,
    match execFrom re_heading prev s with
    | Some (_ :: g1 :: _) => Some (trim g1)
    | _ => None
    end = headingScan (atBol true prev) s.
Proof.
  induction s as [|c s IH]; intros prev; cbn [execFrom headingScan];
    pose proof (heading_at prev) as H.
  - specialize (H []). destruct (matchAt re_heading prev []) as [[ms e]|].
    + destruct H as [g1 [gs [Hg Ht]]]. rewrite Hg, Ht. reflexivity.
    + rewrite H. reflexivity.
  - specialize (H (c :: s)). destruct (matchAt re_heading prev (c :: s)) as [[ms e]|].
    + destruct H as [g1 [gs [Hg Ht]]]. rewrite Hg, Ht. reflexivity.
    + rewrite H. apply (IH (Some c)).
Qed.

(** The title pattern is applied to the raw text, and is the scan. *)
Lemma heading_direct raw : heading raw = headingScan true raw.
Proof. unfold heading, exec. apply (heading_scan raw None). Qed.

(** No title is ever read from a line that starts with two ["#"]. *)
Lemma headingAt_double s :
  headingAt (chr "#" :: chr "#" :: s) = None.
Proof. reflexivity. Qed.

(** C3, as amended: the title of a loaded document comes from the raw text,
    not the normalized one: it is read at the first line start after which
    come optional whitespace, exactly one ["#"], whitespace, and text up to
    the end of its line; a line of two or more ["#"] never qualifies; the
    title is that text, trimmed. *)
Theorem title_spec :
  (forall raw, DocCacheValue.title (docValue raw) = headingScan true raw)
  /\ (forall s, headingAt (chr "#" :: chr "#" :: s) = None)
  /\ (forall lead gap text rest,
        forallb isSpace lead = true -> forallb isSpace gap = true -> gap <> [] ->
        forallb dot text = true -> forallb isSpace (firstn 1 text) = false ->
        atEol true rest = true ->
        headingAt (lead ++ chr "#" :: gap ++ text ++ rest) = Some (trim text))
  /\ DocCacheValue.title (docValue (u "## Sub")) = None
  /\ DocCacheValue.title (docValue (u "# A<br>")) = Some (u "A<br>")
  /\ DocCacheValue.normalized (docValue (u "# A<br>")) = u "# A" ++ [LF]
  /\ DocCacheValue.title
       (docValue (u "intro" ++ [CR; LF] ++ u "## Two" ++ [LF] ++ u "  #  One  "
                  ++ [LF] ++ u "# Other"))
     = Some (u "One").
Proof.
  split; [exact heading_direct|]. split; [exact headingAt_double|].
  split; [|repeat split; vm_compute; reflexivity].
  intros lead gap text rest Hlead Hgap Hne Htext Hfirst Hrest.
  destruct text as [|t0 text]; [discriminate|]. cbn in Hfirst.
  rewrite andb_true_r in Hfirst.
  unfold headingAt. rewrite dropWhile_app_all by exact Hlead.
  cbn [dropWhile]. change (isSpace (chr "#")) with false.
  change (lit "#" (chr "#")) with true. cbv iota.
  destruct (takeWhile_app_stop isSpace gap t0 (text ++ rest) Hgap Hfirst)
    as [Ht Hd].
  change ((t0 :: text) ++ rest) with (t0 :: text ++ rest).
  rewrite Ht, Hd. destruct gap as [|w gap]; [contradiction|].
  f_equal. f_equal.
  change (t0 :: text ++ rest) with ((t0 :: text) ++ rest).
  destruct rest as [|r rest].
  - rewrite app_nil_r. clear -Htext.
    induction (t0 :: text) as [|c s IH]; [reflexivity|]. cbn in *.
    apply andb_true_iff in Htext as [-> Hs]. f_equal. apply IH, Hs.
  - cbn in Hrest. assert (Hr : dot r = false)
      by (unfold dot; rewrite Hrest; reflexivity).
    apply (takeWhile_app_stop dot (t0 :: text) r rest Htext Hr).
Qed.

Lemma title_spec_witness :
  headingAt (u "  " ++ chr "#" :: u " " ++ u "Guide to x" ++ [CR; LF] ++ u "more")
  = Some (trim (u "Guide to x")).
Proof.
  apply (proj1 (proj2 (proj2 title_spec)) (u "  ") (u " ") (u "Guide to x")
           ([CR; LF] ++ u "more"));
    first [reflexivity | discriminate].
Defined.

(** The title as the specification words it (any heading level, read from the
    normalized text) is not the title the code extracts: a document whose
    only heading is of level 2 has no title. *)
Lemma title_claim_counterexample :
  DocCacheValue.title (docValue (u "## Sub"))
  <> claimedTitle (DocCacheValue.normalized (docValue (u "## Sub"))).
Proof. vm_compute. discriminate. Qed.

(** ** The cache *)

Lemma lookupFile_In docFiles k :
  In k (List.map fst docFiles) -> exists l, lookupFile docFiles k = Some l.
Proof.
  intros H. unfold lookupFile.
  destruct (List.find (fun e => eqs (fst e) k) docFiles) as [e|] eqn:E.
  - exists (snd e). reflexivity.
  - exfalso. apply in_map_iff in H as [e [He Hin]].
    apply (find_none _ _ E) in Hin. unfold eqs in Hin.
    rewrite bool_decide_eq_true_2 in Hin by exact He. discriminate.
Qed.

Section CacheFacts.

Variable docFiles : list (jstring * loader).


Lemma cacheOk_same st st' : sameCache st st' -> cacheOk docFiles st -> cacheOk docFiles st'.
Proof.
  intros [Hc [Hp Hl]] [H1 H2 H3]. constructor; rewrite ?Hc, ?Hp, ?Hl; assumption.
Qed.

Lemma cacheGrows_refl st : cacheGrows st st.
Proof. intros k p H. exact H. Qed.

Lemma cacheGrows_trans a b c : cacheGrows a b -> cacheGrows b c -> cacheGrows a c.
Proof. intros H1 H2 k p H. apply H2, H1, H. Qed.

Lemma cacheGrows_same st st' : docCache st' = docCache st -> cacheGrows st st'.
Proof. intros E k p H. rewrite E. exact H. Qed.

Lemma loadDoc_view k st : sameView st (snd (loadDoc docFiles k st)).
Proof.
  unfold loadDoc. destruct (lookupFile docFiles k);
    [destruct (docCache st !! k)|]; repeat split.
Qed.

Lemma loadDoc_grows k st : cacheGrows st (snd (loadDoc docFiles k st)).
Proof.
  unfold loadDoc. destruct (lookupFile docFiles k);
    [destruct (docCache st !! k) eqn:E|]; cbn;
    try (apply cacheGrows_same; reflexivity).
  intros k' p' H. cbn. rewrite lookup_insert_ne; [exact H|]. congruence.
Qed.

(** A call for a key already cached returns the cached promise and does
    nothing else. *)
Lemma loadDoc_hit k l p st :
  lookupFile docFiles k = Some l -> docCache st !! k = Some p ->
  loadDoc docFiles k st = (p, st).
Proof. intros Hl Hc. unfold loadDoc. rewrite Hl, Hc. reflexivity. Qed.

(** The first call for a key invokes its loader and caches a fresh promise. *)
Lemma loadDoc_miss k l st :
  lookupFile docFiles k = Some l -> docCache st !! k = None ->
  fst (loadDoc docFiles k st) = length (promises st)
  /\ docCache (snd (loadDoc docFiles k st)) = <[k := length (promises st)]> (docCache st)
  /\ promises (snd (loadDoc docFiles k st)) = promises st ++ [Pending k]
  /\ loaderCalls (snd (loadDoc docFiles k st)) = loaderCalls st ++ [k].
Proof.
  intros Hl Hc. unfold loadDoc. rewrite Hl, Hc. repeat split.
Qed.

Lemma loadDoc_cached k l st :
  lookupFile docFiles k = Some l ->
  docCache (snd (loadDoc docFiles k st)) !! k = Some (fst (loadDoc docFiles k st)).
Proof.
  intros Hl. destruct (docCache st !! k) as [p|] eqn:Hc.
  - rewrite (loadDoc_hit k l p st Hl Hc). exact Hc.
  - destruct (loadDoc_miss k l st Hl Hc) as [-> [-> _]]. apply lookup_insert_eq.
Qed.

Lemma lookup_app_some {A} (l1 l2 : list A) i x :
  l1 !! i = Some x -> (l1 ++ l2) !! i = Some x.
Proof. intros H. rewrite lookup_app_l; [exact H|]. eapply lookup_lt_Some, H. Qed.

Lemma loadDoc_cacheOk k st : cacheOk docFiles st -> cacheOk docFiles (snd (loadDoc docFiles k st)).
Proof.
  intros [H1 H2 H3]. destruct (lookupFile docFiles k) as [l|] eqn:Hl.
  - destruct (docCache st !! k) as [p|] eqn:Hc.
    + rewrite (loadDoc_hit k l p st Hl Hc). constructor; assumption.
    + destruct (loadDoc_miss k l st Hl Hc) as [_ [Ec [Ep El]]].
      constructor; rewrite ?Ec, ?Ep, ?El.
      * intros k' p'. destruct (decide (k = k')) as [<-|Hne].
        -- rewrite lookup_insert_eq. intros [= <-]. exists l. split; [exact Hl|].
           left. rewrite lookup_app_r by lia. rewrite Nat.sub_diag. reflexivity.
        -- rewrite lookup_insert_ne by exact Hne. intros H.
           destruct (H1 k' p' H) as [l' [Hl' [Hp|Hp]]]; exists l';
             (split; [exact Hl'|]); [left|right]; apply lookup_app_some, Hp.
      * apply NoDup_app. split; [exact H2|]. split; [|apply NoDup_singleton].
        intros x Hx Hx'. apply list_elem_of_singleton in Hx'. subst x.
        apply list_elem_of_In, H3 in Hx. rewrite Hc in Hx. destruct Hx; discriminate.
      * intros k'. rewrite in_app_iff. destruct (decide (k = k')) as [<-|Hne].
        -- rewrite lookup_insert_eq. split; [eauto|]. intros _. right. left.
           reflexivity.
        -- rewrite lookup_insert_ne by exact Hne. rewrite <- H3. cbn.
           split; [intros [H|[H|[]]]; [exact H|contradiction]|tauto].
  - unfold loadDoc. rewrite Hl. cbn. constructor; cbn; try assumption.
    intros k' p' H. destruct (H1 k' p' H) as [l' [Hl' [Hp|Hp]]]; exists l';
      (split; [exact Hl'|]); [left|right]; apply lookup_app_some, Hp.
Qed.

End CacheFacts.

(** ** The page *)

Lemma Exists_delete_other {A} (P : A -> Prop) (l : list A) i c :
  Exists P l -> l !! i = Some c -> ~ P c -> Exists P (delete i l).
Proof.
  intros Hex. revert i. induction Hex as [x l Hx|x l Hl IH]; intros i Hi Hc.
  - destruct i as [|i]; cbn in *.
    + injection Hi as ->. contradiction.
    + left. exact Hx.
  - destruct i as [|i]; cbn in *.
    + exact Hl.
    + right. apply IH; assumption.
Qed.

Section PageFacts.

Variable docFiles : list (jstring * loader).
Variable localeCompare : jstring -> jstring -> comparison.

Lemma settle_view p st : sameView st (settle docFiles p st).
Proof.
  unfold settle, sameView.
  destruct (promises st !! p) as [[k|doc|]|]; cbn; auto.
  destruct (lookupFile docFiles k) as [[raw|]|]; cbn; auto.
Qed.

Lemma settle_cache p st :
  docCache (settle docFiles p st) = docCache st
  /\ loaderCalls (settle docFiles p st) = loaderCalls st.
Proof.
  unfold settle. destruct (promises st !! p) as [[k|doc|]|]; cbn; auto.
  destruct (lookupFile docFiles k) as [[raw|]|]; cbn; auto.
Qed.

Lemma settle_promises p st k :
  promises st !! p = Some (Pending k) ->
  promises (settle docFiles p st)
  = <[p := match lookupFile docFiles k with
           | Some l => outcomeOf l
           | None => Rejected
           end]> (promises st).
Proof.
  intros H. unfold settle. rewrite H.
  destruct (lookupFile docFiles k) as [[raw|]|]; reflexivity.
Qed.

Lemma settle_cacheOk p st :
  cacheOk docFiles st -> cacheOk docFiles (settle docFiles p st).
Proof.
  intros Hok. destruct (promises st !! p) as [[k|doc|]|] eqn:Ep;
    try (unfold settle; rewrite Ep; exact Hok).
  destruct Hok as [H1 H2 H3]. destruct (settle_cache p st) as [Ec El].
  constructor; rewrite ?Ec, ?El; try assumption.
  intros k' p' H. destruct (H1 k' p' H) as [l [Hl Hp]]. exists l.
  split; [exact Hl|]. rewrite (settle_promises p st k Ep).
  destruct (decide (p = p')) as [<-|Hne].
  - right. rewrite list_lookup_insert_eq by (eapply lookup_lt_Some, Ep).
    destruct Hp as [Hp|Hp]; rewrite Ep in Hp.
    + injection Hp as ->. rewrite Hl. reflexivity.
    + destruct l; discriminate.
  - rewrite list_lookup_insert_ne by exact Hne. exact Hp.
Qed.

Lemma contOk_grows st st' c :
  cacheGrows st st' -> contOk docFiles localeCompare st c ->
  contOk docFiles localeCompare st' c.
Proof.
  intros Hg. destruct c as [run p l d|run entries]; cbn.
  - intros [k [Hr Hc]]. exists k. split; [exact Hr|apply Hg, Hc].
  - intros H. eapply List.Forall_impl; [|exact H]. intros e [k Hk].
    exists k. apply Hg, Hk.
Qed.

Lemma contOfMount_grows st st' m c :
  cacheGrows st st' -> contOfMount docFiles localeCompare st m c ->
  contOfMount docFiles localeCompare st' m c.
Proof.
  intros Hg. destruct c as [run p l d|run entries]; cbn; [tauto|].
  intros H Hr. specialize (H Hr).
  eapply Forall2_impl; [exact H|]. intros e i [Hc He]. split; [apply Hg, Hc|exact He].
Qed.

(** The page invariant looks at the cache only through its entries, which
    are kept. *)
Lemma pageOk_grows st st' :
  cacheGrows st st' -> sameView st st' ->
  pageOk docFiles localeCompare st -> pageOk docFiles localeCompare st'.
Proof.
  intros Hg [Ec [Et [Ea [Em Ep]]]] [H1 H2 H3 H4 H5 H6 H7].
  constructor; unfold isCancelled in *; rewrite ?Ec, ?Et, ?Ea, ?Em, ?Ep;
    try assumption.
  - eapply List.Forall_impl; [|exact H1]. intros c. apply contOk_grows, Hg.
  - intros m Hm. eapply List.Forall_impl; [|exact (H5 m Hm)].
    intros c. apply contOfMount_grows, Hg.
Qed.

Lemma sameView_trans a b c : sameView a b -> sameView b c -> sameView a c.
Proof.
  intros [H1 [H2 [H3 [H4 H5]]]] [G1 [G2 [G3 [G4 G5]]]].
  repeat split; congruence.
Qed.

Lemma sameView_refl a : sameView a a.
Proof. repeat split. Qed.

(** All the [loadDoc] calls of stage 2. *)
Lemma loadAll_spec its :
  forall st,
    let r := loadAll docFiles its st in
    sameView st (snd r) /\ cacheGrows st (snd r)
    /\ (cacheOk docFiles st -> cacheOk docFiles (snd r))
    /\ (Forall (fun i => is_Some (lookupFile docFiles (Item.fileKey i))) its ->
        Forall2 (fun e i => docCache (snd r) !! Item.fileKey i = Some (fst e)
                            /\ snd e = toTopic i) (fst r) its).
Proof.
  induction its as [|i its IH]; intros st; cbn [loadAll].
  - cbn. split; [apply sameView_refl|]. split; [apply cacheGrows_refl|].
    split; [tauto|]. intros _. constructor.
  - pose proof (loadDoc_view docFiles (Item.fileKey i) st) as Hv.
    pose proof (loadDoc_grows docFiles (Item.fileKey i) st) as Hg.
    pose proof (loadDoc_cacheOk docFiles (Item.fileKey i) st) as Hok.
    pose proof (fun l => loadDoc_cached docFiles (Item.fileKey i) l st) as Hc.
    destruct (loadDoc docFiles (Item.fileKey i) st) as [p st1]. cbn [fst snd] in *.
    specialize (IH st1). destruct (loadAll docFiles its st1) as [es st2].
    cbn [fst snd] in *. destruct IH as [Hv2 [Hg2 [Hok2 Hf2]]].
    split; [eapply sameView_trans; eassumption|].
    split; [eapply cacheGrows_trans; eassumption|]. split; [tauto|].
    intros Hall. inversion Hall as [|? ? [l Hl] Hrest]; subst.
    constructor; [|apply Hf2, Hrest]. cbn. split; [|reflexivity].
    apply Hg2, (Hc l Hl).
Qed.

Lemma keys_have_loaders language :
  Forall (fun i => is_Some (lookupFile docFiles (Item.fileKey i)))
    (items docFiles localeCompare language).
Proof.
  apply List.Forall_forall. intros i Hi. unfold items in Hi.
  apply (Permutation_in _ (sort_perm _ _)) in Hi.
  apply in_map_iff in Hi as [k [<- Hk]]. unfold keys in Hk.
  apply filter_In in Hk as [Hk _].
  destruct (lookupFile_In docFiles k Hk) as [l Hl].
  unfold toItem. destruct (exec re_order _) as [[|? [|? [|? ?]]]|];
    try destruct (eqs _ _); cbn; rewrite Hl; eauto.
Qed.

Lemma cleanup_cache st : sameCache st (cleanup st).
Proof. unfold cleanup. destruct (mounted st); repeat split. Qed.

Lemma cleanup_mounted st : mounted (cleanup st) = None.
Proof. unfold cleanup. destruct (mounted st) eqn:E; [reflexivity|exact E]. Qed.

Lemma cleanup_ok st :
  pageOk docFiles localeCompare st -> pageOk docFiles localeCompare (cleanup st).
Proof.
  intros Hok. unfold cleanup. destruct (mounted st) as [m|] eqn:Em; [|exact Hok].
  destruct Hok as [H1 H2 H3 H4 H5 H6 H7]. specialize (H4 m Em).
  constructor; cbn; try discriminate.
  - exact H1.
  - rewrite length_insert. exact H2.
  - rewrite Em in H3. eapply List.Forall_impl; [|exact H3].
    intros c [Hc|Hc]; right; unfold isCancelled in *; cbn in *.
    + injection Hc as ->.
      rewrite list_lookup_insert_eq by (eapply lookup_lt_Some, H4). reflexivity.
    + destruct (decide (mrun m = contRun c)) as [E|E].
      * rewrite E, list_lookup_insert_eq; [reflexivity|].
        rewrite <- E. eapply lookup_lt_Some, H4.
      * rewrite list_lookup_insert_ne by exact E. exact Hc.
Qed.

Lemma unlessCancelled_fresh st f cs m content' topics' :
  unlessCancelled (length cs) f
    (State (docCache st) (promises st) (loaderCalls st) content' topics'
           (cs ++ [false]) m (pending st))
  = f (State (docCache st) (promises st) (loaderCalls st) content' topics'
             (cs ++ [false]) m (pending st)).
Proof.
  unfold unlessCancelled, isCancelled. cbn.
  rewrite lookup_app_r by lia. rewrite Nat.sub_diag. reflexivity.
Qed.

Ltac fields :=
  cbn [docCache promises loaderCalls content topics cancelled mounted pending
       setContent setTopics setPending setPromises fst snd] in *.

(** The second half of the effect: the [loadDoc] calls of stage 2 and the
    callback waiting for them. *)
Lemma stage2_spec run its stB :
  let r := loadAll docFiles its stB in
  let st' := setPending (pending (snd r) ++ [OnTopics run (fst r)]) (snd r) in
  content st' = content stB /\ topics st' = topics stB
  /\ cancelled st' = cancelled stB /\ mounted st' = mounted stB
  /\ pending st' = pending stB ++ [OnTopics run (fst r)]
  /\ cacheGrows stB st'
  /\ (cacheOk docFiles stB -> cacheOk docFiles st')
  /\ (Forall (fun i => is_Some (lookupFile docFiles (Item.fileKey i))) its ->
      Forall2 (fun e i => docCache st' !! Item.fileKey i = Some (fst e)
                          /\ snd e = toTopic i) (fst r) its).
Proof.
  intros r st'. pose proof (loadAll_spec its stB) as Ha. cbn zeta in Ha.
  fold r in Ha. destruct Ha as [[W1 [W2 [W3 [W4 W5]]]] [Hg [Hok Hf]]].
  subst st'. fields. rewrite W5.
  split; [exact W1|]. split; [exact W2|]. split; [exact W3|].
  split; [exact W4|]. split; [reflexivity|]. split; [exact Hg|].
  split; [|exact Hf].
  intros H. apply (cacheOk_same docFiles (snd r)); [repeat split|]. apply Hok, H.
Qed.

(** What one run of the effect leaves behind. *)
Lemma runEffect_spec language desired st :
  let run := length (cancelled st) in
  let its := items docFiles localeCompare language in
  let st' := runEffect docFiles localeCompare language desired st in
  cancelled st' = cancelled st ++ [false]
  /\ mounted st' = Some (Mount run language desired)
  /\ topics st' = List.map toTopic its
  /\ cacheGrows st st'
  /\ (cacheOk docFiles st -> cacheOk docFiles st')
  /\ exists entries,
       Forall2 (fun e i => docCache st' !! Item.fileKey i = Some (fst e)
                           /\ snd e = toTopic i) entries its
       /\ ((exists k p,
              resolved docFiles localeCompare language desired = Some k
              /\ docCache st' !! k = Some p
              /\ pending st' = pending st ++ [OnContent run p language desired;
                                              OnTopics run entries]
              /\ content st' = content st)
           \/ (content st' = notFound language desired
               /\ expectedContent docFiles localeCompare language desired
                  = notFound language desired
               /\ pending st' = pending st ++ [OnTopics run entries])).
Proof.
  intros run its st'. subst st'. unfold runEffect.
  rewrite unlessCancelled_fresh. fold run. fold its.
  set (st1 := setTopics _ _).
  assert (Hcont : content st1 = content st) by reflexivity.
  assert (Hpend : pending st1 = pending st) by reflexivity.
  assert (Hcan : cancelled st1 = cancelled st ++ [false]) by reflexivity.
  assert (Hmnt : mounted st1 = Some (Mount run language desired)) by reflexivity.
  assert (Htop : topics st1 = List.map toTopic its) by reflexivity.
  assert (Hc1 : sameCache st st1) by (repeat split).
  assert (Hg1 : cacheGrows st st1) by (apply cacheGrows_same; reflexivity).
  clearbody st1.
  assert (Hnf : forall stB,
    let r := loadAll docFiles its stB in
    let st' := setPending (pending (snd r) ++ [OnTopics run (fst r)]) (snd r) in
    stB = setContent (notFound language desired) st1 ->
    expectedContent docFiles localeCompare language desired
      = notFound language desired ->
    cancelled st' = cancelled st ++ [false]
    /\ mounted st' = Some (Mount run language desired)
    /\ topics st' = List.map toTopic its
    /\ cacheGrows st st'
    /\ (cacheOk docFiles st -> cacheOk docFiles st')
    /\ exists entries,
         Forall2 (fun e i => docCache st' !! Item.fileKey i = Some (fst e)
                             /\ snd e = toTopic i) entries its
         /\ ((exists k p,
                resolved docFiles localeCompare language desired = Some k
                /\ docCache st' !! k = Some p
                /\ pending st' = pending st ++ [OnContent run p language desired;
                                                OnTopics run entries]
                /\ content st' = content st)
             \/ (content st' = notFound language desired
                 /\ expectedContent docFiles localeCompare language desired
                    = notFound language desired
                 /\ pending st' = pending st ++ [OnTopics run entries]))).
  { intros stB r st' HB Hexp.
    destruct (stage2_spec run its stB) as [S1 [S2 [S3 [S4 [S5 [S6 [S7 S8]]]]]]].
    fold r in S1, S2, S3, S4, S5, S6, S7, S8. fold st' in S1, S2, S3, S4, S5, S6, S7, S8.
    rewrite S3, S4, S2, HB. fields.
    split; [exact Hcan|]. split; [exact Hmnt|]. split; [exact Htop|].
    split. { intros k' p' H. apply S6. rewrite HB. fields. apply Hg1, H. }
    split. { intros H. apply S7. rewrite HB.
             apply (cacheOk_same docFiles st1); [repeat split|].
             apply (cacheOk_same docFiles st); assumption. }
    exists (fst r). split; [apply S8, keys_have_loaders|]. right.
    rewrite S1, S5, HB. fields. rewrite Hpend. repeat split. exact Hexp. }
  destruct (resolved docFiles localeCompare language desired) as [k|] eqn:Hres.
  - destruct (lookupFile docFiles k) as [l|] eqn:Hl.
    + pose proof (loadDoc_view docFiles k st1) as Hv.
      pose proof (loadDoc_grows docFiles k st1) as Hg.
      pose proof (loadDoc_cacheOk docFiles k st1) as Hok.
      pose proof (loadDoc_cached docFiles k l st1 Hl) as Hc.
      destruct (loadDoc docFiles k st1) as [p st2]. fields.
      destruct Hv as [V1 [V2 [V3 [V4 V5]]]].
      set (st3 := setPending _ st2).
      pose proof (stage2_spec run its st3) as Hs. cbn zeta in Hs.
      destruct (loadAll docFiles its st3) as [entries st4]. fields.
      destruct Hs as [S1 [S2 [S3 [S4 [S5 [S6 [S7 S8]]]]]]].
      subst st3. fields.
      split; [congruence|]. split; [congruence|]. split; [congruence|].
      split. { intros k' p' H. apply S6. fields. apply Hg, Hg1, H. }
      split. { intros H. apply S7.
               apply (cacheOk_same docFiles st2); [repeat split|].
               apply Hok, (cacheOk_same docFiles st); assumption. }
      exists entries. split; [apply S8, keys_have_loaders|]. left.
      exists k, p. split; [reflexivity|].
      split; [apply S6; fields; exact Hc|].
      split; [|congruence].
      rewrite S5, V5, Hpend, <- app_assoc. reflexivity.
    + specialize (Hnf _ eq_refl). cbn zeta in Hnf.
      destruct (loadAll docFiles its (setContent (notFound language desired) st1))
        as [entries st4].
      apply Hnf. unfold expectedContent. rewrite Hres, Hl. reflexivity.
  - specialize (Hnf _ eq_refl). cbn zeta in Hnf.
    destruct (loadAll docFiles its (setContent (notFound language desired) st1))
      as [entries st4].
    apply Hnf. unfold expectedContent. rewrite Hres. reflexivity.
Qed.

Lemma isCancelled_app st' st r :
  cancelled st' = cancelled st ++ [false] ->
  (r < length (cancelled st))%nat ->
  isCancelled r st' = isCancelled r st.
Proof.
  intros E Hr. unfold isCancelled. rewrite E, lookup_app_l by exact Hr. reflexivity.
Qed.

Lemma runEffect_ok language desired st :
  mounted st = None ->
  pageOk docFiles localeCompare st ->
  pageOk docFiles localeCompare (runEffect docFiles localeCompare language desired st).
Proof.
  intros Hm [H1 H2 H3 _ _ _ _].
  destruct (runEffect_spec language desired st)
    as [Ecan [Emnt [Etop [Hg [_ [entries [Hf Hcase]]]]]]].
  set (st' := runEffect docFiles localeCompare language desired st) in *.
  set (run := length (cancelled st)) in *.
  assert (Erun : run = length (cancelled st)) by reflexivity. clearbody run.
  assert (Hold : Forall (contOk docFiles localeCompare st') (pending st)).
  { eapply List.Forall_impl; [|exact H1]. intros c. apply contOk_grows, Hg. }
  assert (Hruns : Forall (fun c => (contRun c < length (cancelled st'))%nat)
                    (pending st)).
  { eapply List.Forall_impl; [|exact H2]. intros c Hc. rewrite Ecan, length_app.
    cbn in *. lia. }
  assert (Hstale : Forall (fun c => Some (contRun c) = mrun <$> mounted st'
                                    \/ isCancelled (contRun c) st' = true)
                     (pending st)).
  { rewrite Hm in H3. apply List.Forall_forall. intros c Hc.
    rewrite List.Forall_forall in H2, H3. right.
    rewrite (isCancelled_app st' st _ Ecan) by (rewrite <- Erun; apply H2, Hc).
    destruct (H3 c Hc) as [H|H]; [discriminate|exact H]. }
  assert (Hmount : Forall (contOfMount docFiles localeCompare st'
                             (Mount run language desired)) (pending st)).
  { apply List.Forall_forall. intros c Hc. rewrite List.Forall_forall in H2.
    specialize (H2 c Hc). destruct c as [r p l d|r es]; cbn in *; intros ->;
      lia. }
  assert (Hnew : (run < length (cancelled st'))%nat)
    by (rewrite Ecan, length_app; cbn; lia).
  assert (Htopics : contOk docFiles localeCompare st' (OnTopics run entries)).
  { cbn. clear -Hf. induction Hf as [|e i es its [He _] _ IH]; constructor;
      [eexists; exact He|exact IH]. }
  assert (Hlive : cancelled st' !! run = Some false).
  { rewrite Ecan, lookup_app_r by lia. rewrite Erun, Nat.sub_diag. reflexivity. }
  constructor.
  - destruct Hcase as [[k [p [Hr [Hc [Ep _]]]]]|[_ [_ Ep]]]; rewrite Ep;
      apply Forall_app; (split; [exact Hold|]).
    + constructor; [exists k; split; assumption|].
      constructor; [exact Htopics|constructor].
    + constructor; [exact Htopics|constructor].
  - destruct Hcase as [[k [p [Hr [Hc [Ep _]]]]]|[_ [_ Ep]]]; rewrite Ep;
      apply Forall_app; (split; [exact Hruns|]).
    + constructor; [exact Hnew|]. constructor; [exact Hnew|constructor].
    + constructor; [exact Hnew|constructor].
  - assert (Hl : forall c, contRun c = run ->
                   Some (contRun c) = mrun <$> mounted st'
                   \/ isCancelled (contRun c) st' = true).
    { intros c Hc. left. rewrite Emnt, Hc. reflexivity. }
    destruct Hcase as [[k [p [Hr [Hc [Ep _]]]]]|[_ [_ Ep]]]; rewrite Ep;
      apply Forall_app; (split; [exact Hstale|]).
    + constructor; [apply Hl; reflexivity|].
      constructor; [apply Hl; reflexivity|constructor].
    + constructor; [apply Hl; reflexivity|constructor].
  - intros m Em. rewrite Emnt in Em. injection Em as <-. exact Hlive.
  - intros m Em. rewrite Emnt in Em. injection Em as <-.
    destruct Hcase as [[k [p [Hr [Hc [Ep _]]]]]|[_ [_ Ep]]]; rewrite Ep;
      apply Forall_app; (split; [exact Hmount|]).
    + constructor; [cbn; intros _; split; reflexivity|].
      constructor; [cbn; intros _; exact Hf|constructor].
    + constructor; [cbn; intros _; exact Hf|constructor].
  - intros m Em. rewrite Emnt in Em. injection Em as <-. cbn [mrun mlanguage mtopic].
    destruct Hcase as [[k [p [Hr [Hc [Ep _]]]]]|[Ec [Ex Ep]]].
    + right. rewrite Ep. apply Exists_app. right. left. reflexivity.
    + left. rewrite Ec, Ex. reflexivity.
  - intros m Em. rewrite Emnt in Em. injection Em as <-. cbn [mrun mlanguage mtopic].
    right. split; [exact Etop|].
    destruct Hcase as [[k [p [Hr [Hc [Ep _]]]]]|[_ [_ Ep]]]; rewrite Ep;
      apply Exists_app; right; [right|]; left; reflexivity.
Qed.

Lemma render_spec language topic st :
  cacheGrows st (render docFiles localeCompare language topic st)
  /\ (cacheOk docFiles st ->
      cacheOk docFiles (render docFiles localeCompare language topic st))
  /\ (pageOk docFiles localeCompare st ->
      pageOk docFiles localeCompare (render docFiles localeCompare language topic st)).
Proof.
  unfold render.
  assert (Hrun : forall st0, mounted st0 = None ->
    cacheGrows st0 (runEffect docFiles localeCompare language topic st0)
    /\ (cacheOk docFiles st0 ->
        cacheOk docFiles (runEffect docFiles localeCompare language topic st0))
    /\ (pageOk docFiles localeCompare st0 ->
        pageOk docFiles localeCompare
          (runEffect docFiles localeCompare language topic st0))).
  { intros st0 Hm.
    destruct (runEffect_spec language topic st0) as [_ [_ [_ [Hg [Hok _]]]]].
    split; [exact Hg|]. split; [exact Hok|]. apply runEffect_ok, Hm. }
  destruct (mounted st) as [m|] eqn:Em.
  - destruct (eqs (mlanguage m) language && eqs (mtopic m) topic).
    + split; [apply cacheGrows_refl|tauto].
    + destruct (Hrun (cleanup st) (cleanup_mounted st)) as [Hg [Hok Hp]].
      destruct (cleanup_cache st) as [Ec [Ep El]].
      split; [|split].
      * intros k p H. apply Hg. rewrite Ec. exact H.
      * intros H. apply Hok, (cacheOk_same docFiles st); [repeat split; assumption|exact H].
      * intros H. apply Hp, cleanup_ok, H.
  - apply Hrun, Em.
Qed.

(** The invariant after a callback has run and left the queue. *)
Lemma pageOk_fired st st' i c :
  pageOk docFiles localeCompare st ->
  pending st !! i = Some c ->
  docCache st' = docCache st -> cancelled st' = cancelled st ->
  mounted st' = mounted st -> pending st' = delete i (pending st) ->
  (forall m, mounted st = Some m ->
     content st' = expectedContent docFiles localeCompare (mlanguage m) (mtopic m)
     \/ (content st' = content st /\ ~ isOnContent (mrun m) c)) ->
  (forall m, mounted st = Some m ->
     topics st' = List.map (refinedTopic docFiles)
                    (items docFiles localeCompare (mlanguage m))
     \/ (topics st' = topics st /\ ~ isOnTopics (mrun m) c)) ->
  pageOk docFiles localeCompare st'.
Proof.
  intros [H1 H2 H3 H4 H5 H6 H7] Hi Ec Ea Em Ep Hcont Htop.
  assert (Hg : cacheGrows st st') by (apply cacheGrows_same, Ec).
  constructor; unfold isCancelled in *; rewrite ?Ea, ?Em, ?Ep.
  - apply Forall_delete. eapply List.Forall_impl; [|exact H1].
    intros x. apply contOk_grows, Hg.
  - apply Forall_delete, H2.
  - apply Forall_delete, H3.
  - exact H4.
  - intros m Hm. apply Forall_delete. eapply List.Forall_impl; [|exact (H5 m Hm)].
    intros x. apply contOfMount_grows, Hg.
  - intros m Hm. destruct (Hcont m Hm) as [E|[E Hn]]; [left; exact E|].
    rewrite E. destruct (H6 m Hm) as [H|H]; [left; exact H|right].
    eapply Exists_delete_other; eassumption.
  - intros m Hm. destruct (Htop m Hm) as [E|[E Hn]]; [left; exact E|].
    rewrite E. destruct (H7 m Hm) as [H|[H Hex]]; [left; exact H|right].
    split; [exact H|]. eapply Exists_delete_other; eassumption.
Qed.

(** A settled promise of a cached key holds what the store holds. *)
Lemma settled_outcome st k p :
  cacheOk docFiles st -> docCache st !! k = Some p ->
  isSettled (promises st) p = true ->
  exists l, lookupFile docFiles k = Some l /\ promises st !! p = Some (outcomeOf l).
Proof.
  intros Hok Hc Hs. destruct (cache_promise _ _ Hok k p Hc) as [l [Hl [Hp|Hp]]].
  - unfold isSettled in Hs. rewrite Hp in Hs. discriminate.
  - exists l. split; assumption.
Qed.

Lemma loadedTopics_refined st entries its :
  cacheOk docFiles st ->
  Forall2 (fun e i => docCache st !! Item.fileKey i = Some (fst e)
                      /\ snd e = toTopic i) entries its ->
  forallb (fun e => isSettled (promises st) (fst e)) entries = true ->
  List.map (loadedTopic (promises st)) entries
  = List.map (refinedTopic docFiles) its.
Proof.
  intros Hok Hf. induction Hf as [|e i es its' [Hc He] _ IH]; [reflexivity|].
  cbn [forallb List.map]. intros Hs. apply andb_true_iff in Hs as [Hs Hrest].
  rewrite (IH Hrest). f_equal.
  destruct (settled_outcome st _ _ Hok Hc Hs) as [l [Hl Hp]].
  unfold loadedTopic, refinedTopic. rewrite Hp, Hl, He.
  destruct l as [raw|]; reflexivity.
Qed.

Lemma runCallback_spec i st :
  cacheOk docFiles st -> pageOk docFiles localeCompare st ->
  sameCache st (runCallback i st)
  /\ pageOk docFiles localeCompare (runCallback i st).
Proof.
  intros Hok Hpage. unfold runCallback.
  destruct (pending st !! i) as [c|] eqn:Hi; [|split; [repeat split|exact Hpage]].
  pose proof (Forall_lookup_1 _ _ _ _ (page_conts _ _ _ Hpage) Hi) as Hc.
  pose proof (Forall_lookup_1 _ _ _ _ (page_stale _ _ _ Hpage) Hi) as Hst.
  assert (Hcur : forall m, mounted st = Some m ->
            isCancelled (contRun c) st = false -> contRun c = mrun m
            /\ contOfMount docFiles localeCompare st m c).
  { intros m Hm Hnc. destruct Hst as [H|H]; [|congruence].
    rewrite Hm in H. injection H as H. split; [exact H|].
    apply (Forall_lookup_1 _ _ _ _ (page_mount _ _ _ Hpage m Hm) Hi). }
  assert (Hother : forall m, mounted st = Some m ->
            isCancelled (contRun c) st = true -> contRun c <> mrun m).
  { intros m Hm Hcan E. pose proof (page_live _ _ _ Hpage m Hm) as Hl.
    unfold isCancelled in Hcan. rewrite E, Hl in Hcan. discriminate. }
  destruct c as [run p language desired|run entries]; cbn [fire].
  - cbn in Hc. destruct Hc as [k [Hres Hck]].
    assert (Hexp : forall v, promises st !! p = Some v ->
              isSettled (promises st) p = true ->
              forall m, mounted st = Some m -> isCancelled run st = false ->
              match v with
              | Fulfilled doc => DocCacheValue.normalized doc
              | _ => notFound language desired
              end = expectedContent docFiles localeCompare (mlanguage m) (mtopic m)).
    { intros v Hv Hs m Hm Hnc. destruct (Hcur m Hm Hnc) as [_ Hcm].
      cbn in Hcm. destruct (Hcm ltac:(destruct Hst as [H|H]; [rewrite Hm in H;
        injection H as H; exact H|cbn in H; congruence])) as [<- <-].
      destruct (settled_outcome st k p Hok Hck Hs) as [l [Hl Hp]].
      unfold expectedContent. rewrite Hres, Hl. rewrite Hv in Hp.
      injection Hp as ->. destruct l; reflexivity. }
    destruct (promises st !! p) as [[kp|doc|]|] eqn:Hp;
      try (split; [repeat split|exact Hpage]).
    + split; [unfold unlessCancelled; destruct (isCancelled run st); repeat split|].
      apply (pageOk_fired st _ i (OnContent run p language desired) Hpage Hi);
        try (unfold unlessCancelled; destruct (isCancelled run st); reflexivity).
      * intros m Hm. unfold unlessCancelled.
        destruct (isCancelled run st) eqn:Ecan.
        -- right. split; [reflexivity|]. cbn. apply (Hother m Hm Ecan).
        -- left. apply (Hexp (Fulfilled doc) eq_refl);
             [unfold isSettled; rewrite Hp; reflexivity|exact Hm|reflexivity].
      * intros m Hm. right. split; [|cbn; tauto].
        unfold unlessCancelled. destruct (isCancelled run st); reflexivity.
    + split; [unfold unlessCancelled; destruct (isCancelled run st); repeat split|].
      apply (pageOk_fired st _ i (OnContent run p language desired) Hpage Hi);
        try (unfold unlessCancelled; destruct (isCancelled run st); reflexivity).
      * intros m Hm. unfold unlessCancelled.
        destruct (isCancelled run st) eqn:Ecan.
        -- right. split; [reflexivity|]. cbn. apply (Hother m Hm Ecan).
        -- left. apply (Hexp Rejected eq_refl);
             [unfold isSettled; rewrite Hp; reflexivity|exact Hm|reflexivity].
      * intros m Hm. right. split; [|cbn; tauto].
        unfold unlessCancelled. destruct (isCancelled run st); reflexivity.
  - destruct (forallb (fun e => isSettled (promises st) (fst e)) entries) eqn:Hs;
      [|split; [repeat split|exact Hpage]].
    split; [unfold unlessCancelled; destruct (isCancelled run st); repeat split|].
    apply (pageOk_fired st _ i (OnTopics run entries) Hpage Hi);
      try (unfold unlessCancelled; destruct (isCancelled run st); reflexivity).
    + intros m Hm. right. split; [|cbn; tauto].
      unfold unlessCancelled. destruct (isCancelled run st); reflexivity.
    + intros m Hm. unfold unlessCancelled.
      destruct (isCancelled run st) eqn:Ecan.
      * right. split; [reflexivity|]. cbn. apply (Hother m Hm Ecan).
      * left. destruct (Hcur m Hm Ecan) as [Hr Hcm]. cbn in Hr, Hcm.
        cbn [topics setTopics setPending].
        apply loadedTopics_refined; [exact Hok|apply Hcm, Hr|exact Hs].
Qed.

Lemma initial_ok :
  cacheOk docFiles initial /\ pageOk docFiles localeCompare initial.
Proof.
  split.
  - constructor.
    + intros k p H. cbn in H. rewrite lookup_empty in H. discriminate.
    + cbn. apply NoDup_nil_2.
    + intros k. cbn. rewrite lookup_empty. split; [intros []|].
      intros [x Hx]. discriminate.
  - constructor; cbn; try (intros m Hm; discriminate); constructor.
Qed.

(** Every event keeps both invariants and every entry of the cache. *)
Lemma step_spec st ev :
  cacheOk docFiles st -> pageOk docFiles localeCompare st ->
  cacheOk docFiles (step docFiles localeCompare st ev)
  /\ pageOk docFiles localeCompare (step docFiles localeCompare st ev)
  /\ cacheGrows st (step docFiles localeCompare st ev).
Proof.
  intros Hok Hpage. destruct ev as [language topic| |p|i]; cbn [step].
  - destruct (render_spec language topic st) as [Hg [Hc Hp]].
    split; [apply Hc, Hok|]. split; [apply Hp, Hpage|exact Hg].
  - destruct (cleanup_cache st) as [Ec [Ep El]].
    split; [apply (cacheOk_same docFiles st); [repeat split; assumption|exact Hok]|].
    split; [apply cleanup_ok, Hpage|apply cacheGrows_same, Ec].
  - destruct (settle_cache p st) as [Ec El].
    split; [apply settle_cacheOk, Hok|].
    split; [|apply cacheGrows_same, Ec].
    apply (pageOk_grows st); [apply cacheGrows_same, Ec|apply settle_view|exact Hpage].
  - destruct (runCallback_spec i st Hok Hpage) as [Hs Hp].
    split; [apply (cacheOk_same docFiles st); assumption|].
    split; [exact Hp|]. destruct Hs as [Ec _]. apply cacheGrows_same, Ec.
Qed.

Lemma exec_events_ok evs st :
  cacheOk docFiles st -> pageOk docFiles localeCompare st ->
  cacheOk docFiles (exec_events docFiles localeCompare evs st)
  /\ pageOk docFiles localeCompare (exec_events docFiles localeCompare evs st)
  /\ cacheGrows st (exec_events docFiles localeCompare evs st).
Proof.
  revert st. induction evs as [|ev evs IH]; intros st Hok Hpage; cbn.
  - split; [exact Hok|]. split; [exact Hpage|apply cacheGrows_refl].
  - destruct (step_spec st ev Hok Hpage) as [Hok1 [Hp1 Hg1]].
    destruct (IH _ Hok1 Hp1) as [Hok2 [Hp2 Hg2]].
    split; [exact Hok2|]. split; [exact Hp2|].
    eapply cacheGrows_trans; eassumption.
Qed.

Lemma reachable_ok evs :
  cacheOk docFiles (exec_events docFiles localeCompare evs initial)
  /\ pageOk docFiles localeCompare (exec_events docFiles localeCompare evs initial).
Proof.
  destruct initial_ok as [H1 H2].
  destruct (exec_events_ok evs initial H1 H2) as [H3 [H4 _]]. split; assumption.
Qed.

(** C4: the cache starts empty and is filled only by [loadDoc]: the loaders
    invoked are exactly the cached keys, each invoked once; a call for a key
    not yet cached invokes its loader once and caches a fresh pending
    promise; every later call for that key, while the promise is pending or
    after, returns that same promise and invokes nothing; no event removes an
    entry or replaces its promise. *)
Theorem cache_spec :
  docCache initial = ∅
  /\ forall evs,
       let st := exec_events docFiles localeCompare evs initial in
       NoDup (loaderCalls st)
       /\ (forall k, In k (loaderCalls st) <-> is_Some (docCache st !! k))
       /\ (forall k l, lookupFile docFiles k = Some l -> docCache st !! k = None ->
             docCache (snd (loadDoc docFiles k st)) !! k
               = Some (fst (loadDoc docFiles k st))
             /\ promises (snd (loadDoc docFiles k st)) !! fst (loadDoc docFiles k st)
                = Some (Pending k)
             /\ loaderCalls (snd (loadDoc docFiles k st)) = loaderCalls st ++ [k])
       /\ (forall k p, docCache st !! k = Some p -> loadDoc docFiles k st = (p, st))
       /\ (forall k p more,
             docCache st !! k = Some p ->
             docCache (exec_events docFiles localeCompare more st) !! k = Some p).
Proof.
  split; [reflexivity|]. intros evs st.
  destruct (reachable_ok evs) as [Hok Hpage]. fold st in Hok, Hpage.
  split; [apply (cache_calls_nodup _ _ Hok)|].
  split; [apply (cache_calls _ _ Hok)|]. split; [|split].
  - intros k l Hl Hc. destruct (loadDoc_miss docFiles k l st Hl Hc) as [E1 [E2 [E3 E4]]].
    rewrite E1, E2, E3, E4. split; [apply lookup_insert_eq|].
    split; [|reflexivity]. rewrite lookup_app_r by lia.
    rewrite Nat.sub_diag. reflexivity.
  - intros k p Hc. destruct (cache_promise _ _ Hok k p Hc) as [l [Hl _]].
    apply (loadDoc_hit docFiles k l p st Hl Hc).
  - intros k p more Hc.
    destruct (exec_events_ok more st Hok Hpage) as [_ [_ Hg]]. apply Hg, Hc.
Qed.

(** *** Requests and their results *)

Lemma eqs_true (a b : jstring) : eqs a b = true -> a = b.
Proof. unfold eqs. apply bool_decide_eq_true. Qed.

(** After a render, the mounted run is one for the rendered parameters. *)
Lemma render_mounted language topic st :
  exists m, mounted (render docFiles localeCompare language topic st) = Some m
            /\ mlanguage m = language /\ mtopic m = topic.
Proof.
  unfold render. destruct (mounted st) as [m|] eqn:Em.
  - destruct (eqs (mlanguage m) language && eqs (mtopic m) topic) eqn:E.
    + apply andb_true_iff in E as [E1 E2]. exists m.
      split; [exact Em|]. split; apply eqs_true; assumption.
    + destruct (runEffect_spec language topic (cleanup st)) as [_ [H _]].
      eexists. split; [exact H|]. split; reflexivity.
  - destruct (runEffect_spec language topic st) as [_ [H _]].
    eexists. split; [exact H|]. split; reflexivity.
Qed.

Lemma runCallback_view i st :
  mounted (runCallback i st) = mounted st
  /\ cancelled (runCallback i st) = cancelled st.
Proof.
  unfold runCallback. destruct (pending st !! i) as [c|]; [|split; reflexivity].
  destruct c as [run p l d|run entries]; cbn [fire].
  - destruct (promises st !! p) as [[k|doc|]|]; try (split; reflexivity);
      unfold unlessCancelled; destruct (isCancelled run st); split; reflexivity.
  - destruct (forallb _ entries); [|split; reflexivity].
    unfold unlessCancelled; destruct (isCancelled run st); split; reflexivity.
Qed.

Lemma quiet_mounted ev st :
  isRender ev = false ->
  mounted (step docFiles localeCompare st ev) = mounted st.
Proof.
  destruct ev as [l t| |p|i]; try discriminate; intros _; cbn [step].
  - destruct (settle_view p st) as [_ [_ [_ [H _]]]]. exact H.
  - apply runCallback_view.
Qed.

Ltac nothing_written :=
  split; [left; reflexivity|split; [left; reflexivity|]];
  intros ? ? ? ? ?; split; reflexivity.

(** Whatever a loader event or a callback writes is the result of the mounted
    request; a callback of a cancelled run writes nothing. *)
Lemma quiet_writes ev st :
  cacheOk docFiles st -> pageOk docFiles localeCompare st ->
  isRender ev = false ->
  let st' := step docFiles localeCompare st ev in
  (content st' = content st
   \/ exists m, mounted st = Some m
        /\ content st' = expectedContent docFiles localeCompare (mlanguage m) (mtopic m))
  /\ (topics st' = topics st
      \/ exists m, mounted st = Some m
           /\ topics st' = List.map (refinedTopic docFiles)
                             (items docFiles localeCompare (mlanguage m)))
  /\ (forall i c, ev = Run i -> pending st !! i = Some c ->
        isCancelled (contRun c) st = true ->
        content st' = content st /\ topics st' = topics st).
Proof.
  intros Hok Hpage Hev. destruct ev as [l t| |p|i]; try discriminate; cbn [step].
  - destruct (settle_view p st) as [Hc [Ht _]]. cbn zeta.
    split; [left; exact Hc|]. split; [left; exact Ht|]. intros; discriminate.
  - cbn zeta. unfold runCallback.
    destruct (pending st !! i) as [c|] eqn:Hi; [|nothing_written].
    pose proof (Forall_lookup_1 _ _ _ _ (page_conts _ _ _ Hpage) Hi) as Hc.
    pose proof (Forall_lookup_1 _ _ _ _ (page_stale _ _ _ Hpage) Hi) as Hst.
    assert (Hcur : isCancelled (contRun c) st = false ->
              exists m, mounted st = Some m /\ contRun c = mrun m
                        /\ contOfMount docFiles localeCompare st m c).
    { intros Hnc. destruct Hst as [H|H]; [|congruence].
      destruct (mounted st) as [m|] eqn:Hm; [|discriminate].
      injection H as H. exists m. split; [reflexivity|]. split; [exact H|].
      apply (Forall_lookup_1 _ _ _ _ (page_mount _ _ _ Hpage m Hm) Hi). }
    assert (Hlive : forall i' c',
              Run i = Run i' -> pending st !! i' = Some c' ->
              isCancelled (contRun c') st = true ->
              isCancelled (contRun c) st = true).
    { intros i' c' [= <-] Hi' H. rewrite Hi in Hi'. injection Hi' as <-. exact H. }
    destruct c as [run p language desired|run entries]; cbn [fire contRun] in *.
    + destruct Hc as [k [Hres Hck]].
      assert (Hwrite : forall v, promises st !! p = Some v ->
                isSettled (promises st) p = true ->
                isCancelled run st = false ->
                exists m, mounted st = Some m
                  /\ match v with
                     | Fulfilled doc => DocCacheValue.normalized doc
                     | _ => notFound language desired
                     end = expectedContent docFiles localeCompare
                             (mlanguage m) (mtopic m)).
      { intros v Hv Hs Hnc. destruct (Hcur Hnc) as [m [Hm [Hr Hcm]]].
        cbn in Hcm. destruct (Hcm Hr) as [-> ->]. exists m. split; [exact Hm|].
        destruct (settled_outcome st k p Hok Hck Hs) as [l [Hl Hpl]].
        rewrite Hv in Hpl. injection Hpl as ->. unfold expectedContent.
        rewrite Hres, Hl. destruct l; reflexivity. }
      destruct (promises st !! p) as [[kp|doc|]|] eqn:Hp; try nothing_written.
      * unfold unlessCancelled. destruct (isCancelled run st) eqn:Ecan;
          [nothing_written|].
        destruct (Hwrite (Fulfilled doc) eq_refl) as [m [Hm Hexp]];
          [unfold isSettled; rewrite Hp; reflexivity|reflexivity|].
        split; [right; exists m; split; [exact Hm|exact Hexp]|].
        split; [left; reflexivity|].
        intros i' c' E1 E2 E3. specialize (Hlive i' c' E1 E2 E3). discriminate.
      * unfold unlessCancelled. destruct (isCancelled run st) eqn:Ecan;
          [nothing_written|].
        destruct (Hwrite Rejected eq_refl) as [m [Hm Hexp]];
          [unfold isSettled; rewrite Hp; reflexivity|reflexivity|].
        split; [right; exists m; split; [exact Hm|exact Hexp]|].
        split; [left; reflexivity|].
        intros i' c' E1 E2 E3. specialize (Hlive i' c' E1 E2 E3). discriminate.
    + destruct (forallb (fun e => isSettled (promises st) (fst e)) entries) eqn:Hs;
        [|nothing_written].
      unfold unlessCancelled. destruct (isCancelled run st) eqn:Ecan;
        [nothing_written|].
      destruct (Hcur eq_refl) as [m [Hm [Hr Hcm]]]. cbn in Hcm.
      split; [left; reflexivity|].
      split; [|intros i' c' E1 E2 E3; specialize (Hlive i' c' E1 E2 E3);
               discriminate].
      right. exists m. split; [exact Hm|]. fields.
      apply loadedTopics_refined; [exact Hok|apply Hcm, Hr|exact Hs].
Qed.

(** *** Every request settles *)

Lemma settle_length p st :
  length (promises (settle docFiles p st)) = length (promises st).
Proof.
  unfold settle. destruct (promises st !! p) as [[k|doc|]|]; try reflexivity.
  destruct (lookupFile docFiles k) as [[raw|]|]; cbn; apply length_insert.
Qed.

Lemma settle_settles p st :
  (p < length (promises st))%nat ->
  isSettled (promises (settle docFiles p st)) p = true.
Proof.
  intros Hp. unfold settle.
  destruct (promises st !! p) as [[k|doc|]|] eqn:E.
  - destruct (lookupFile docFiles k) as [[raw|]|]; cbn; unfold isSettled;
      rewrite list_lookup_insert_eq by exact Hp; reflexivity.
  - unfold isSettled. rewrite E. reflexivity.
  - unfold isSettled. rewrite E. reflexivity.
  - apply lookup_ge_None in E. lia.
Qed.

Lemma settle_keeps p q st :
  isSettled (promises st) q = true ->
  isSettled (promises (settle docFiles p st)) q = true.
Proof.
  intros Hq. unfold settle.
  destruct (promises st !! p) as [[k|doc|]|] eqn:E; try exact Hq.
  assert (Hne : p <> q).
  { intros ->. unfold isSettled in Hq. rewrite E in Hq. discriminate. }
  destruct (lookupFile docFiles k) as [[raw|]|]; cbn; unfold isSettled in *;
    rewrite list_lookup_insert_ne by exact Hne; exact Hq.
Qed.

Lemma settle_all l :
  forall st,
    let st' := exec_events docFiles localeCompare (List.map Settle l) st in
    length (promises st') = length (promises st)
    /\ pending st' = pending st
    /\ (forall q, (In q l /\ (q < length (promises st))%nat)
                  \/ isSettled (promises st) q = true ->
                  isSettled (promises st') q = true).
Proof.
  induction l as [|p l IH]; intros st; cbn.
  - split; [reflexivity|]. split; [reflexivity|]. intros q [[[] _]|H]. exact H.
  - destruct (IH (settle docFiles p st)) as [Hlen [Hpend Hset]].
    cbn zeta in *. unfold exec_events in *. rewrite Hlen, Hpend, settle_length.
    destruct (settle_view p st) as [_ [_ [_ [_ Hp]]]].
    split; [reflexivity|]. split; [exact Hp|].
    intros q [[[<-|Hin] Hq]|H]; apply Hset.
    + right. apply settle_settles, Hq.
    + left. split; [exact Hin|]. rewrite settle_length. exact Hq.
    + right. apply settle_keeps, H.
Qed.

Lemma fire_fields c st st' :
  fire c st = Some st' ->
  pending st' = pending st /\ promises st' = promises st.
Proof.
  destruct c as [run p l d|run entries]; cbn [fire].
  - destruct (promises st !! p) as [[k|doc|]|]; try discriminate;
      intros [= <-]; unfold unlessCancelled; destruct (isCancelled run st);
      split; reflexivity.
  - destruct (forallb _ entries); [|discriminate].
    intros [= <-]; unfold unlessCancelled; destruct (isCancelled run st);
      split; reflexivity.
Qed.

Lemma cached_settled st k p :
  cacheOk docFiles st -> allSettled st -> docCache st !! k = Some p ->
  isSettled (promises st) p = true.
Proof.
  intros Hok Hall Hc. apply Hall.
  destruct (cache_promise _ _ Hok k p Hc) as [l [_ [H|H]]];
    eapply lookup_lt_Some, H.
Qed.

Lemma fire_ready c st :
  cacheOk docFiles st -> contOk docFiles localeCompare st c -> allSettled st ->
  exists st', fire c st = Some st'.
Proof.
  intros Hok Hc Hall. destruct c as [run p l d|run entries]; cbn in *.
  - destruct Hc as [k [_ Hck]]. pose proof (cached_settled st k p Hok Hall Hck) as Hs.
    unfold isSettled in Hs. destruct (promises st !! p) as [[kp|doc|]|];
      try discriminate; eauto.
  - assert (Hs : forallb (fun e => isSettled (promises st) (fst e)) entries = true).
    { apply forallb_forall. intros e He. rewrite List.Forall_forall in Hc.
      destruct (Hc e He) as [k Hk]. apply (cached_settled st k _ Hok Hall Hk). }
    rewrite Hs. eauto.
Qed.

Lemma run_all n :
  forall st,
    cacheOk docFiles st -> pageOk docFiles localeCompare st -> allSettled st ->
    length (pending st) = n ->
    pending (exec_events docFiles localeCompare (repeat (Run 0) n) st) = [].
Proof.
  induction n as [|n IH]; intros st Hok Hpage Hall Hlen.
  - cbn. destruct (pending st); [reflexivity|discriminate].
  - cbn [repeat exec_events fold_left]. fold (exec_events docFiles localeCompare).
    destruct (step_spec st (Run 0) Hok Hpage) as [Hok' [Hpage' _]].
    destruct (pending st) as [|c q] eqn:Ep; [discriminate|].
    assert (Hc : contOk docFiles localeCompare st c).
    { pose proof (page_conts _ _ _ Hpage) as H. rewrite Ep in H.
      inversion H; assumption. }
    destruct (fire_ready c st Hok Hc Hall) as [st' Hf].
    destruct (fire_fields c st st' Hf) as [Ep' Epr].
    assert (Hstep : step docFiles localeCompare st (Run 0)
                    = setPending (delete 0 (pending st')) st').
    { cbn [step]. unfold runCallback. rewrite Ep. cbn [lookup list_lookup].
      rewrite Hf. reflexivity. }
    rewrite Hstep in *. apply IH; try assumption.
    + intros x Hx. cbn in *. rewrite Epr in *. apply Hall, Hx.
    + cbn. rewrite Ep', Ep. cbn in *. lia.
Qed.

(** From any reachable state, settling every promise and then running the
    callbacks in order empties the queue. *)
Lemma drain_spec st :
  cacheOk docFiles st -> pageOk docFiles localeCompare st ->
  quiet (drain st) = true
  /\ pending (exec_events docFiles localeCompare (drain st) st) = [].
Proof.
  intros Hok Hpage. unfold drain. split.
  - unfold quiet. rewrite forallb_app. apply andb_true_iff. split.
    + apply forallb_forall. intros ev Hev. apply in_map_iff in Hev as [p [<- _]].
      reflexivity.
    + apply forallb_forall. intros ev Hev. apply repeat_spec in Hev. subst ev.
      reflexivity.
  - unfold exec_events. rewrite fold_left_app.
    fold (exec_events docFiles localeCompare
            (List.map Settle (seq 0 (length (promises st)))) st).
    destruct (settle_all (seq 0 (length (promises st))) st) as [Hlen [Hpend Hset]].
    cbn zeta in *.
    destruct (exec_events_ok (List.map Settle (seq 0 (length (promises st)))) st
                Hok Hpage) as [Hok1 [Hpage1 _]].
    rewrite <- Hpend.
    apply (run_all _ _ Hok1 Hpage1); [|reflexivity].
    intros q Hq. apply Hset. left. rewrite Hlen in Hq. split; [|exact Hq].
    apply in_seq. lia.
Qed.

Lemma quiet_fold (P : state -> Prop) :
  (forall st ev, isRender ev = false -> P st ->
                 P (step docFiles localeCompare st ev)) ->
  forall evs st, quiet evs = true -> P st ->
                 P (exec_events docFiles localeCompare evs st).
Proof.
  intros Hstep. induction evs as [|ev evs IH]; intros st Hq HP; [exact HP|].
  cbn in Hq. apply andb_true_iff in Hq as [Hev Hq]. apply negb_true_iff in Hev.
  cbn. apply IH; [exact Hq|]. apply Hstep; assumption.
Qed.

Lemma exec_events_app evs1 evs2 st :
  exec_events docFiles localeCompare (evs1 ++ evs2) st
  = exec_events docFiles localeCompare evs2
      (exec_events docFiles localeCompare evs1 st).
Proof. unfold exec_events. apply fold_left_app. Qed.

(** After a render and any loader and scheduler events, the page shows what
    the render left or the results of the rendered request, and once no
    callback is pending it shows the results. *)
Lemma after_render evs0 language topic evs :
  quiet evs = true ->
  let st1 := exec_events docFiles localeCompare (evs0 ++ [Render language topic])
               initial in
  let st := exec_events docFiles localeCompare evs st1 in
  cacheOk docFiles st /\ pageOk docFiles localeCompare st
  /\ (exists m, mounted st = Some m /\ mlanguage m = language /\ mtopic m = topic)
  /\ (content st = content st1
      \/ content st = expectedContent docFiles localeCompare language topic)
  /\ (topics st = topics st1
      \/ topics st = List.map (refinedTopic docFiles)
                       (items docFiles localeCompare language))
  /\ (pending st = [] ->
      content st = expectedContent docFiles localeCompare language topic
      /\ topics st = List.map (refinedTopic docFiles)
                       (items docFiles localeCompare language)).
Proof.
  intros Hq st1 st.
  destruct (reachable_ok (evs0 ++ [Render language topic])) as [Hok1 Hpage1].
  fold st1 in Hok1, Hpage1.
  assert (Hm1 : exists m, mounted st1 = Some m /\ mlanguage m = language
                          /\ mtopic m = topic).
  { subst st1. rewrite exec_events_app. cbn. apply render_mounted. }
  destruct Hm1 as [m [Hm [Hl Ht]]].
  assert (HP : cacheOk docFiles st /\ pageOk docFiles localeCompare st
               /\ mounted st = Some m
               /\ (content st = content st1
                   \/ content st = expectedContent docFiles localeCompare
                                     language topic)
               /\ (topics st = topics st1
                   \/ topics st = List.map (refinedTopic docFiles)
                                    (items docFiles localeCompare language))).
  { subst st. apply (quiet_fold (fun s =>
      cacheOk docFiles s /\ pageOk docFiles localeCompare s
      /\ mounted s = Some m
      /\ (content s = content st1
          \/ content s = expectedContent docFiles localeCompare language topic)
      /\ (topics s = topics st1
          \/ topics s = List.map (refinedTopic docFiles)
                          (items docFiles localeCompare language))));
      [|exact Hq|split; [exact Hok1|split; [exact Hpage1|split; [exact Hm|
         split; left; reflexivity]]]].
    intros s ev Hev [Hok [Hpage [Hms [Hc Htp]]]].
    destruct (step_spec s ev Hok Hpage) as [Hok' [Hpage' _]].
    destruct (quiet_writes ev s Hok Hpage Hev) as [Hwc [Hwt _]].
    split; [exact Hok'|]. split; [exact Hpage'|].
    split; [rewrite quiet_mounted by exact Hev; exact Hms|]. split.
    - destruct Hwc as [E|[m' [Hm' E]]]; [rewrite E; exact Hc|].
      right. rewrite Hms in Hm'. injection Hm' as <-. rewrite E, Hl, Ht. reflexivity.
    - destruct Hwt as [E|[m' [Hm' E]]]; [rewrite E; exact Htp|].
      right. rewrite Hms in Hm'. injection Hm' as <-. rewrite E, Hl. reflexivity. }
  destruct HP as [Hok [Hpage [Hms [Hc Htp]]]].
  split; [exact Hok|]. split; [exact Hpage|].
  split; [exists m; repeat split; assumption|]. split; [exact Hc|].
  split; [exact Htp|]. intros Hp. split.
  - destruct (page_content _ _ _ Hpage m Hms) as [E|E].
    + rewrite E, Hl, Ht. reflexivity.
    + rewrite Hp in E. inversion E.
  - destruct (page_topics _ _ _ Hpage m Hms) as [E|[_ E]].
    + rewrite E, Hl. reflexivity.
    + rewrite Hp in E. inversion E.
Qed.

(** C5: a callback whose run has been cancelled writes neither content nor
    topics; in every reachable state each pending callback either belongs to
    the mounted run or is cancelled; after a render the mounted run is the
    one of the rendered parameters.  So after resolve(l, a) and then
    resolve(l, b), whatever the order in which loaders settle and callbacks
    run, the content is what the second render left or the result for b, it
    is the result for b once no callback is pending, and some schedule gets
    there; the same holds when the language changes too. *)
Theorem supersede_spec :
  (forall evs i c,
     let st := exec_events docFiles localeCompare evs initial in
     pending st !! i = Some c -> isCancelled (contRun c) st = true ->
     content (step docFiles localeCompare st (Run i)) = content st
     /\ topics (step docFiles localeCompare st (Run i)) = topics st)
  /\ (forall evs c,
        let st := exec_events docFiles localeCompare evs initial in
        In c (pending st) ->
        (exists m, mounted st = Some m /\ contRun c = mrun m)
        \/ isCancelled (contRun c) st = true)
  /\ (forall evs language topic,
        exists m,
          mounted (exec_events docFiles localeCompare
                     (evs ++ [Render language topic]) initial) = Some m
          /\ mlanguage m = language /\ mtopic m = topic)
  /\ (forall evs0 la a lb b evs,
        quiet evs = true ->
        let st2 := exec_events docFiles localeCompare
                     (evs0 ++ [Render la a; Render lb b]) initial in
        let st := exec_events docFiles localeCompare evs st2 in
        (content st = content st2
         \/ content st = expectedContent docFiles localeCompare lb b)
        /\ (pending st = [] ->
            content st = expectedContent docFiles localeCompare lb b))
  /\ (forall evs0 la a lb b,
        let st2 := exec_events docFiles localeCompare
                     (evs0 ++ [Render la a; Render lb b]) initial in
        quiet (drain st2) = true
        /\ pending (exec_events docFiles localeCompare (drain st2) st2) = []).
Proof.
  split; [|split; [|split; [|split]]].
  - intros evs i c st Hi Hc. destruct (reachable_ok evs) as [Hok Hpage].
    fold st in Hok, Hpage.
    destruct (quiet_writes (Run i) st Hok Hpage eq_refl) as [_ [_ H]].
    apply (H i c eq_refl Hi Hc).
  - intros evs c st Hc. destruct (reachable_ok evs) as [_ Hpage].
    fold st in Hpage. pose proof (page_stale _ _ _ Hpage) as H.
    rewrite List.Forall_forall in H. destruct (H c Hc) as [E|E]; [left|right; exact E].
    destruct (mounted st) as [m|]; [|discriminate]. injection E as E.
    exists m. split; [reflexivity|exact E].
  - intros evs language topic. rewrite exec_events_app. cbn. apply render_mounted.
  - intros evs0 la a lb b evs Hq st2 st. subst st st2.
    replace (evs0 ++ [Render la a; Render lb b])
      with ((evs0 ++ [Render la a]) ++ [Render lb b])
      by (rewrite <- app_assoc; reflexivity).
    destruct (after_render (evs0 ++ [Render la a]) lb b evs Hq)
      as [_ [_ [_ [Hc [_ Hfin]]]]].
    split; [exact Hc|]. intros Hp. apply Hfin, Hp.
  - intros evs0 la a lb b st2.
    destruct (reachable_ok (evs0 ++ [Render la a; Render lb b]))
      as [Hok Hpage].
    apply drain_spec; assumption.
Qed.

Lemma resolved_fallback language desired l :
  Forall (fun i => Item.displaySlug i <> desired)
    (items docFiles localeCompare language) ->
  lookupFile docFiles (fallbackPath language desired) = Some l ->
  resolved docFiles localeCompare language desired
  = Some (fallbackPath language desired).
Proof.
  intros Hno Hl. unfold resolved.
  destruct (List.find _ (items docFiles localeCompare language)) as [i|] eqn:E.
  - apply find_some in E as [Hin Heq]. apply eqs_true in Heq.
    rewrite List.Forall_forall in Hno. destruct (Hno i Hin Heq).
  - rewrite Hl. reflexivity.
Qed.

(** C6: when no enumerated entry is listed under the requested slug and the
    key language/requestedSlug.md exists in the store, the resolver settles on
    that key, and the content of the request is that document's normalized
    text: it is what the page shows once the request has settled, and every
    request does settle. *)
Theorem fallback_spec :
  (forall language desired l,
     Forall (fun i => Item.displaySlug i <> desired)
       (items docFiles localeCompare language) ->
     lookupFile docFiles (fallbackPath language desired) = Some l ->
     resolved docFiles localeCompare language desired
       = Some (fallbackPath language desired)
     /\ (forall raw, l = Some raw ->
           expectedContent docFiles localeCompare language desired = normalizeMd raw)
     /\ (forall raw evs0 evs, l = Some raw -> quiet evs = true ->
           let st := exec_events docFiles localeCompare
                       (evs0 ++ Render language desired :: evs) initial in
           pending st = [] -> content st = normalizeMd raw)
     /\ (forall evs0,
           let st1 := exec_events docFiles localeCompare
                        (evs0 ++ [Render language desired]) initial in
           quiet (drain st1) = true
           /\ pending (exec_events docFiles localeCompare (drain st1) st1) = []))
  /\ (forall raw,
        let files := [(u "../content/en/001_intro.md", Some raw)] in
        List.map Item.displaySlug (items files localeCompare (u "en")) = [u "intro"]
        /\ resolved files localeCompare (u "en") (u "001_intro")
           = Some (u "../content/en/001_intro.md")
        /\ content (exec_events files localeCompare
                      [Render (u "en") (u "001_intro"); Settle 0; Run 0; Run 0]
                      initial)
           = normalizeMd raw).
Proof.
  split.
  - intros language desired l Hno Hl.
    pose proof (resolved_fallback language desired l Hno Hl) as Hres.
    assert (Hexp : forall raw, l = Some raw ->
              expectedContent docFiles localeCompare language desired
              = normalizeMd raw).
    { intros raw ->. unfold expectedContent. rewrite Hres, Hl. reflexivity. }
    split; [exact Hres|]. split; [exact Hexp|]. split.
    + intros raw evs0 evs Hraw Hq st Hp. subst st.
      replace (evs0 ++ Render language desired :: evs)
        with ((evs0 ++ [Render language desired]) ++ evs) in *
        by (rewrite <- app_assoc; reflexivity).
      rewrite exec_events_app in *.
      destruct (after_render evs0 language desired evs Hq) as [_ [_ [_ [_ [_ Hfin]]]]].
      rewrite <- (Hexp raw Hraw). apply Hfin, Hp.
    + intros evs0 st1.
      destruct (reachable_ok (evs0 ++ [Render language desired])) as [Hok Hpage].
      apply drain_spec; assumption.
  - intros raw files. split; [vm_compute; reflexivity|].
    split; [vm_compute; reflexivity|]. reflexivity.
Qed.

(** C7: the placeholder is "# 404", a line feed, and
    "Not found: {language}/{requestedSlug}"; it is the content of every
    request for which no key resolves and of every request whose document
    fails to load: a callback on a rejected promise writes it, the effect
    writes it at once when no key resolves, and it is what the page shows
    once the request has settled.  For language "en" and topic "bogus" it is
    "# 404\nNot found: en/bogus". *)
Theorem notFound_spec :
  notFound (u "en") (u "bogus") = u "# 404" ++ [LF] ++ u "Not found: en/bogus"
  /\ (forall language desired,
        notFound language desired
        = u "# 404" ++ [LF] ++ u "Not found: " ++ language ++ u "/" ++ desired)
  /\ (forall language desired,
        resolved docFiles localeCompare language desired = None ->
        expectedContent docFiles localeCompare language desired
        = notFound language desired)
  /\ (forall language desired k,
        resolved docFiles localeCompare language desired = Some k ->
        lookupFile docFiles k = Some None ->
        expectedContent docFiles localeCompare language desired
        = notFound language desired)
  /\ (forall st run p language desired,
        promises st !! p = Some Rejected -> isCancelled run st = false ->
        option_map content (fire (OnContent run p language desired) st)
        = Some (notFound language desired))
  /\ (forall language desired st,
        mounted st = None ->
        resolved docFiles localeCompare language desired = None ->
        content (step docFiles localeCompare st (Render language desired))
        = notFound language desired)
  /\ (forall evs0 language desired evs,
        quiet evs = true ->
        let st := exec_events docFiles localeCompare
                    (evs0 ++ Render language desired :: evs) initial in
        pending st = [] ->
        content st = expectedContent docFiles localeCompare language desired)
  /\ (forall evs0 language desired,
        let st1 := exec_events docFiles localeCompare
                     (evs0 ++ [Render language desired]) initial in
        quiet (drain st1) = true
        /\ pending (exec_events docFiles localeCompare (drain st1) st1) = [])
  /\ (forall evs,
        quiet evs = true ->
        resolved docFiles localeCompare (u "en") (u "bogus") = None ->
        content (exec_events docFiles localeCompare
                   (Render (u "en") (u "bogus") :: evs) initial)
        = u "# 404" ++ [LF] ++ u "Not found: en/bogus").
Proof.
  split; [reflexivity|]. split; [reflexivity|].
  split; [intros language desired H; unfold expectedContent; rewrite H; reflexivity|].
  split; [intros language desired k H Hl; unfold expectedContent;
          rewrite H, Hl; reflexivity|].
  split.
  { intros st run p language desired Hp Hc. cbn [fire]. rewrite Hp.
    unfold unlessCancelled. rewrite Hc. reflexivity. }
  assert (Hnow : forall language desired st,
            mounted st = None ->
            resolved docFiles localeCompare language desired = None ->
            content (step docFiles localeCompare st (Render language desired))
            = notFound language desired).
  { intros language desired st Hm Hres. cbn [step]. unfold render. rewrite Hm.
    destruct (runEffect_spec language desired st)
      as [_ [_ [_ [_ [_ [entries [_ [[k [p [H _]]]|[H _]]]]]]]]].
    - rewrite Hres in H. discriminate.
    - exact H. }
  split; [exact Hnow|].
  split.
  { intros evs0 language desired evs Hq st Hp. subst st.
    replace (evs0 ++ Render language desired :: evs)
      with ((evs0 ++ [Render language desired]) ++ evs) in *
      by (rewrite <- app_assoc; reflexivity).
    rewrite exec_events_app in *.
    destruct (after_render evs0 language desired evs Hq) as [_ [_ [_ [_ [_ Hfin]]]]].
    apply Hfin, Hp. }
  split.
  { intros evs0 language desired st1.
    destruct (reachable_ok (evs0 ++ [Render language desired])) as [Hok Hpage].
    apply drain_spec; assumption. }
  intros evs Hq Hres.
  destruct (after_render [] (u "en") (u "bogus") evs Hq) as [_ [_ [_ [Hc _]]]].
  cbn [app exec_events fold_left] in Hc.
  fold (exec_events docFiles localeCompare) in Hc.
  change (exec_events docFiles localeCompare (Render (u "en") (u "bogus") :: evs)
            initial)
    with (exec_events docFiles localeCompare evs
            (step docFiles localeCompare initial (Render (u "en") (u "bogus")))).
  destruct Hc as [Hc|Hc]; rewrite Hc.
  - apply (Hnow (u "en") (u "bogus") initial eq_refl Hres).
  - unfold expectedContent. rewrite Hres. reflexivity.
Qed.

(** C10: the list republished by stage 2 has the slugs of the stage-1 list in
    the same order, and an entry whose document failed to load keeps its
    fallback title; after a render the topics are the stage-1 list or the
    refined one, they are the refined one once no callback is pending, and
    that point is reached whether or not some loads fail. *)
Theorem refinement_spec :
  (forall language,
     List.map Topic.slug
       (List.map (refinedTopic docFiles) (items docFiles localeCompare language))
     = List.map Topic.slug
         (List.map toTopic (items docFiles localeCompare language)))
  /\ (forall i, lookupFile docFiles (Item.fileKey i) = Some None ->
                refinedTopic docFiles i = Topic.Make (Item.displaySlug i) (Item.title i))
  /\ (forall st run entries,
        forallb (fun e => isSettled (promises st) (fst e)) entries = true ->
        isCancelled run st = false ->
        option_map topics (fire (OnTopics run entries) st)
        = Some (List.map (loadedTopic (promises st)) entries)
        /\ List.map Topic.slug (List.map (loadedTopic (promises st)) entries)
           = List.map (fun e => Topic.slug (snd e)) entries
        /\ (forall e, promises st !! fst e = Some Rejected ->
                      loadedTopic (promises st) e = snd e))
  /\ (forall evs0 language topic evs,
        quiet evs = true ->
        let st := exec_events docFiles localeCompare
                    (evs0 ++ Render language topic :: evs) initial in
        (topics st = List.map toTopic (items docFiles localeCompare language)
         \/ topics st = List.map (refinedTopic docFiles)
                          (items docFiles localeCompare language))
        /\ (pending st = [] ->
            topics st = List.map (refinedTopic docFiles)
                          (items docFiles localeCompare language)))
  /\ (forall evs0 language topic,
        let st1 := exec_events docFiles localeCompare
                     (evs0 ++ [Render language topic]) initial in
        quiet (drain st1) = true
        /\ pending (exec_events docFiles localeCompare (drain st1) st1) = [])
  /\ (forall raw,
        let files := [(u "../content/en/index.md", Some (u "# Home"));
                      (u "../content/en/bad.md", None);
                      (u "../content/en/001_x.md", Some raw)] in
        let st1 := exec_events files localeCompare [Render (u "en") (u "index")]
                     initial in
        topics st1 = [Topic.Make (u "index") (u "Index");
                      Topic.Make (u "x") (u "X");
                      Topic.Make (u "bad") (u "Bad")]
        /\ List.map Topic.slug (topics (exec_events files localeCompare (drain st1) st1))
           = [u "index"; u "x"; u "bad"]
        /\ topics (exec_events files localeCompare (drain st1) st1) !! 2%nat
           = Some (Topic.Make (u "bad") (u "Bad"))
        /\ topics (exec_events files localeCompare (drain st1) st1) !! 0%nat
           = Some (Topic.Make (u "index") (u "Home"))).
Proof.
  split.
  { intros language. rewrite !List.map_map. apply map_ext. intros i.
    unfold refinedTopic. destruct (lookupFile docFiles (Item.fileKey i)) as [[raw|]|];
      reflexivity. }
  split.
  { intros i Hi. unfold refinedTopic. rewrite Hi. reflexivity. }
  split.
  { intros st run entries Hs Hc. split; [|split].
    - cbn [fire]. rewrite Hs. unfold unlessCancelled. rewrite Hc. reflexivity.
    - rewrite List.map_map. apply map_ext. intros e. unfold loadedTopic.
      destruct (promises st !! fst e) as [[k|doc|]|]; reflexivity.
    - intros e He. unfold loadedTopic. rewrite He. reflexivity. }
  split.
  { intros evs0 language topic evs Hq st. subst st.
    replace (evs0 ++ Render language topic :: evs)
      with ((evs0 ++ [Render language topic]) ++ evs)
      by (rewrite <- app_assoc; reflexivity).
    rewrite exec_events_app.
    destruct (after_render evs0 language topic evs Hq)
      as [_ [Hpage [[m [Hm [Hl _]]] [_ [_ Hfin]]]]].
    split; [|intros Hp; apply Hfin, Hp].
    destruct (page_topics _ _ _ Hpage m Hm) as [E|[E _]]; rewrite Hl in E;
      [right|left]; exact E. }
  split.
  { intros evs0 language topic st1.
    destruct (reachable_ok (evs0 ++ [Render language topic])) as [Hok Hpage].
    apply drain_spec; assumption. }
  intros raw files st1. split; [vm_compute; reflexivity|].
  split; [vm_compute; reflexivity|]. split; vm_compute; reflexivity.
Qed.

End PageFacts.

(** ** The theorems on a concrete store *)

Lemma cache_spec_witness :
  docCache (exec_events sampleFiles codeUnitCompare
              [Render (u "en") (u "intro")] initial)
    !! u "../content/en/001_intro.md" = Some 0%nat
  /\ loadDoc sampleFiles (u "../content/en/001_intro.md")
       (exec_events sampleFiles codeUnitCompare [Render (u "en") (u "intro")] initial)
     = (0%nat,
        exec_events sampleFiles codeUnitCompare [Render (u "en") (u "intro")] initial).
Proof.
  split; [vm_compute; reflexivity|].
  apply (proj2 (cache_spec sampleFiles codeUnitCompare)
           [Render (u "en") (u "intro")]).
  vm_compute. reflexivity.
Defined.

Lemma supersede_spec_witness :
  quiet [Settle 1; Run 2; Settle 0; Run 0; Settle 2; Run 0; Run 0] = true
  /\ content (exec_events sampleFiles codeUnitCompare
                ([Render (u "en") (u "intro"); Render (u "en") (u "index")]
                 ++ [Settle 1; Run 2; Settle 0; Run 0; Settle 2; Run 0; Run 0])
                initial)
     = expectedContent sampleFiles codeUnitCompare (u "en") (u "index").
Proof.
  split; [reflexivity|]. rewrite exec_events_app.
  apply (proj2 (proj1 (proj2 (proj2 (proj2 (supersede_spec sampleFiles codeUnitCompare))))
           [] (u "en") (u "intro") (u "en") (u "index")
           [Settle 1; Run 2; Settle 0; Run 0; Settle 2; Run 0; Run 0] eq_refl)).
  vm_compute. reflexivity.
Defined.

Lemma fallback_spec_witness :
  resolved sampleFiles codeUnitCompare (u "en") (u "001_intro")
  = Some (fallbackPath (u "en") (u "001_intro")).
Proof.
  apply (proj1 (fallback_spec sampleFiles codeUnitCompare)
           (u "en") (u "001_intro") (Some (u "## Intro"))).
  - vm_compute. repeat constructor; discriminate.
  - vm_compute. reflexivity.
Defined.

Lemma notFound_spec_witness :
  resolved sampleFiles codeUnitCompare (u "en") (u "bogus") = None
  /\ content (exec_events sampleFiles codeUnitCompare
                (Render (u "en") (u "bogus") :: [Settle 0; Run 0; Settle 2]) initial)
     = u "# 404" ++ [LF] ++ u "Not found: en/bogus".
Proof.
  split; [vm_compute; reflexivity|].
  apply notFound_spec; vm_compute; reflexivity.
Defined.

Lemma refinement_spec_witness :
  refinedTopic sampleFiles (toItem (u "../content/en/bad.md"))
  = Topic.Make (u "bad") (u "Bad")
  /\ topics (exec_events sampleFiles codeUnitCompare
               ([] ++ Render (u "en") (u "index")
                   :: [Settle 0; Settle 1; Settle 2; Run 1; Run 0]) initial)
     = [Topic.Make (u "index") (u "Home"); Topic.Make (u "intro") (u "Intro");
        Topic.Make (u "bad") (u "Bad")].
Proof.
  split.
  - apply (proj1 (proj2 (refinement_spec sampleFiles codeUnitCompare))).
    vm_compute. reflexivity.
  - etransitivity;
      [apply (proj1 (proj2 (proj2 (proj2 (refinement_spec sampleFiles codeUnitCompare))))
                [] (u "en") (u "index")
                [Settle 0; Settle 1; Settle 2; Run 1; Run 0] eq_refl);
       vm_compute; reflexivity|].
    vm_compute. reflexivity.
Defined.

(* ================================================================= *)
(** * Further properties *)

(** ** Heading anchors *)

Lemma tag_match p s :
  matchAt re_tag p s
  = match s with
    | c :: s' =>
        if lit "<" c && negb (isEmpty (takeWhile notGt s'))
           && negb (isEmpty (dropWhile notGt s'))
        then Some ([], List.tl (dropWhile notGt s'))
        else None
    | [] => None
    end.
Proof.
  unfold matchAt, re_tag. cbn [atoms multiline]. rewrite matchSeq_one.
  destruct s as [|c s']; [reflexivity|].
  destruct (lit "<" c); [|reflexivity]. cbn [andb].
  unfold plus. rewrite matchSeq_Rep_disjoint.
  - rewrite maxRun_takeWhile, skipn_takeWhile.
    destruct (takeWhile notGt s') as [|a t] eqn:Et; [reflexivity|].
    cbn [length Nat.leb isEmpty negb andb].
    rewrite matchSeq_one.
    destruct (dropWhile notGt s') as [|d r] eqn:Ed; [reflexivity|].
    apply dropWhile_head in Ed. unfold notGt in Ed. apply negb_false_iff in Ed.
    rewrite Ed. reflexivity.
  - intros p' c' s'' Hc. rewrite matchSeq_one. unfold notGt in Hc.
    apply negb_true_iff in Hc. rewrite Hc. reflexivity.
Qed.

Lemma gsub_tag_pre f pre :
  Forall (fun c => lit "<" c = false) pre ->
  forall p rest, gsub re_tag f p (pre ++ rest) 0 = pre ++ gsub re_tag f None rest 0.
Proof.
  induction 1 as [|c pre Hc _ IH]; intros p rest.
  - cbn [app]. apply gsub_forward. reflexivity.
  - cbn [app gsub]. rewrite tag_match, Hc. cbn [andb]. f_equal. apply IH.
Qed.

Lemma gsub_tag_strip f inner post p :
  inner <> [] -> forallb notGt inner = true ->
  gsub re_tag f p (chr "<" :: inner ++ chr ">" :: post) 0
  = f (chr "<" :: inner ++ [chr ">"]) ++ gsub re_tag f None post 0.
Proof.
  intros Hne Hin.
  destruct (takeWhile_app_stop notGt inner (chr ">") post Hin eq_refl) as [Ht Hd].
  cbn [gsub]. rewrite tag_match, Ht, Hd.
  destruct inner as [|a inner']; [congruence|].
  cbn [isEmpty negb andb List.tl].
  replace (lit "<" (chr "<")) with true by reflexivity. cbn [andb].
  replace (chr "<" :: (a :: inner') ++ chr ">" :: post)
    with ((chr "<" :: (a :: inner') ++ [chr ">"]) ++ post)
    by (cbn [app]; rewrite <- app_assoc; reflexivity).
  rewrite between_app. cbn [length app]. f_equal.
  replace (a :: inner' ++ chr ">" :: post) with ((a :: inner' ++ [chr ">"]) ++ post)
    by (cbn [app]; rewrite <- app_assoc; reflexivity).
  destruct (gsub_skip re_tag f (a :: inner' ++ [chr ">"]) post (Some (chr "<")))
    as [q Hq].
  cbn [length] in Hq. rewrite Hq. apply gsub_forward. reflexivity.
Qed.

Lemma gsub_tag_noGt f s :
  forallb notGt s = true -> forall p, gsub re_tag f p s 0 = s.
Proof.
  induction s as [|c s IH]; intros Hs p; [reflexivity|].
  cbn [forallb] in Hs. apply andb_true_iff in Hs as [Hc Hs].
  cbn [gsub]. rewrite tag_match.
  assert (Hd : dropWhile notGt s = []).
  { clear -Hs. induction s as [|d s IH]; [reflexivity|].
    cbn [forallb] in Hs. apply andb_true_iff in Hs as [Hd Hs].
    cbn [dropWhile]. rewrite Hd. apply IH, Hs. }
  rewrite Hd. cbn [isEmpty negb]. rewrite andb_false_r. f_equal. apply IH, Hs.
Qed.

(** X1: a heading strips from the text of its children every run made of
    "<", one or more units other than ">", and ">", scanning from the left:
    text before the first "<" is kept, a run is dropped, "<>" is kept, and a
    text without ">" is left as it is. *)
Theorem headingText_spec :
  (forall pre rest, forallb (fun c => negb (lit "<" c)) pre = true ->
     headingText (pre ++ rest) = pre ++ headingText rest)
  /\ (forall inner post, inner <> [] -> forallb notGt inner = true ->
        headingText (chr "<" :: inner ++ chr ">" :: post) = headingText post)
  /\ (forall post, headingText (chr "<" :: chr ">" :: post)
                   = chr "<" :: chr ">" :: headingText post)
  /\ (forall s, forallb notGt s = true -> headingText s = s)
  /\ headingText (u "Install <b>now</b>, 1 < 2") = u "Install now, 1 < 2"
  /\ headingText (u "if a < b and c > d") = u "if a  d".
Proof.
  unfold headingText, replaceAll. split; [|split; [|split; [|split; [|split]]]].
  - intros pre rest H. apply gsub_tag_pre.
    apply List.Forall_forall. intros c Hc. rewrite forallb_forall in H.
    apply negb_true_iff, H, Hc.
  - intros inner post Hne Hin. rewrite gsub_tag_strip by assumption. reflexivity.
  - intros post. cbn [gsub]. rewrite tag_match. cbn [takeWhile].
    replace (notGt (chr ">")) with false by reflexivity.
    cbn [isEmpty negb andb]. rewrite andb_false_r. f_equal.
    rewrite tag_match. replace (lit "<" (chr ">")) with false by reflexivity.
    cbn [andb]. f_equal. apply gsub_forward. reflexivity.
  - intros s Hs. apply gsub_tag_noGt, Hs.
  - vm_compute. reflexivity.
  - vm_compute. reflexivity.
Qed.

Lemma headingText_spec_witness :
  headingText (chr "<" :: u "em" ++ chr ">" :: u "text") = headingText (u "text").
Proof.
  apply (proj1 (proj2 headingText_spec)); [discriminate|reflexivity].
Defined.

(** ** Slugs *)

Lemma hyphenate_nil b s : hyphenate b s = [] -> Forall (fun c => isSpace c = true) s.
Proof.
  revert b. induction s as [|c s IH]; intros b H; [constructor|].
  cbn [hyphenate] in H. destruct (isSpace c) eqn:Ec; [|discriminate].
  destruct b; [|discriminate]. constructor; [exact Ec|]. eapply IH, H.
Qed.






(** ** Trimming *)

Lemma dropWhile_idem p s : dropWhile p (dropWhile p s) = dropWhile p s.
Proof.
  induction s as [|c s IH]; [reflexivity|].
  cbn [dropWhile]. destruct (p c) eqn:Ec; [exact IH|].
  cbn [dropWhile]. rewrite Ec. reflexivity.
Qed.

Lemma dropWhile_snoc p s c :
  p c = false -> dropWhile p (s ++ [c]) = dropWhile p s ++ [c].
Proof.
  intros Hc. induction s as [|d s IH]; cbn [app dropWhile].
  - rewrite Hc. reflexivity.
  - destruct (p d); [exact IH|reflexivity].
Qed.

Lemma trim_idem s : trim (trim s) = trim s.
Proof.
  unfold trim, trimEnd, trimStart.
  destruct (dropWhile isSpace s) as [|c d] eqn:Ed; [reflexivity|].
  pose proof (dropWhile_head _ _ _ _ Ed) as Hc.
  cbn [rev]. rewrite (dropWhile_snoc isSpace (rev d) c Hc).
  rewrite rev_app_distr. cbn [rev app dropWhile]. rewrite Hc.
  change (c :: rev (dropWhile isSpace (rev d)))
    with ([c] ++ rev (dropWhile isSpace (rev d))).
  rewrite rev_app_distr, rev_involutive. cbn [rev app].
  rewrite (dropWhile_snoc isSpace _ c Hc), dropWhile_idem.
  rewrite rev_app_distr. reflexivity.
Qed.

(** ** The outline *)

Lemma Forall_forallb (p : jchar -> bool) s :
  Forall (fun c => p c = true) s <-> forallb p s = true.
Proof. rewrite forallb_forall, List.Forall_forall. reflexivity. Qed.

Lemma tocLine_fields toLowerCase line e :
  tocLine toLowerCase line = Some e ->
  (1 <= TocItem.level e <= 6)%nat
  /\ TocItem.id e = slugify toLowerCase (TocItem.text e)
  /\ trim (TocItem.text e) = TocItem.text e
  /\ forallb notBacktick (TocItem.text e) = true
  /\ forallb dot (TocItem.text e) = true.
Proof.
  rewrite tocLine_direct. unfold tocLineSpec.
  destruct (_ && _) eqn:E; [|discriminate]. intros [= <-].
  repeat (apply andb_true_iff in E as [E ?]).
  apply Nat.leb_le in E. apply Nat.leb_le in H2.
  unfold tocEntry. cbn [TocItem.level TocItem.id TocItem.text].
  split; [lia|]. split; [reflexivity|]. split; [apply trim_idem|].
  split; apply Forall_forallb, Forall_trim.
  - apply Forall_filter_self.
  - apply Forall_filter, Forall_forallb. assumption.
Qed.

Lemma toc_In toLowerCase content e :
  In e (toc toLowerCase content) ->
  exists line, In line (split LF content) /\ tocLine toLowerCase line = Some e.
Proof.
  rewrite toc_omap. intros H. apply list_elem_of_In, list_elem_of_omap in H.
  destruct H as [line [Hl He]]. exists line. split; [|exact He].
  apply list_elem_of_In, Hl.
Qed.

Lemma split_nonempty sep (a : jstring) : split sep a <> [].
Proof.
  destruct a as [|c a]; cbn [split]; [discriminate|].
  destruct (N.eqb c sep); [discriminate|]. destruct (split sep a); discriminate.
Qed.

Lemma split_app sep (a b : jstring) :
  split sep (a ++ sep :: b) = split sep a ++ split sep b.
Proof.
  induction a as [|c a IH]; cbn [app split].
  - rewrite N.eqb_refl. reflexivity.
  - rewrite IH. destruct (N.eqb c sep); [reflexivity|].
    pose proof (split_nonempty sep a) as Hne.
    destruct (split sep a) as [|l ls]; [congruence|]. reflexivity.
Qed.

Lemma length_omap_le {A B} (f : A -> option B) l : (length (omap f l) <= length l)%nat.
Proof.
  induction l as [|x l IH]; cbn; [lia|]. destruct (f x); cbn; lia.
Qed.

(** X3: every entry of the outline has a level from 1 to 6, a text without
    backticks, line terminators or surrounding whitespace, and the slug of its
    text as id; there are at most as many entries as lines. *)
Theorem toc_entries toLowerCase content :
  (length (toc toLowerCase content) <= length (split LF content))%nat
  /\ forall e, In e (toc toLowerCase content) ->
       (1 <= TocItem.level e <= 6)%nat
       /\ TocItem.id e = slugify toLowerCase (TocItem.text e)
       /\ trim (TocItem.text e) = TocItem.text e
       /\ forallb notBacktick (TocItem.text e) = true
       /\ forallb dot (TocItem.text e) = true.
Proof.
  split.
  - rewrite toc_omap. apply length_omap_le.
  - intros e He. destruct (toc_In _ _ _ He) as [line [_ Hl]].
    eapply tocLine_fields, Hl.
Qed.

Lemma toc_entries_witness :
  In (TocItem.Make (u "the-x-flag") (u "The x flag") 3)
     (toc lowerAsciiOnly (u "intro" ++ [LF] ++ u "### The `x` flag"))
  /\ (1 <= 3 <= 6)%nat.
Proof.
  assert (H : In (TocItem.Make (u "the-x-flag") (u "The x flag") 3)
                (toc lowerAsciiOnly (u "intro" ++ [LF] ++ u "### The `x` flag")))
    by (vm_compute; left; reflexivity).
  split; [exact H|].
  exact (proj1 (proj2 (toc_entries lowerAsciiOnly _) _ H)).
Defined.

Lemma toc_concat toLowerCase a b :
  toc toLowerCase (a ++ LF :: b) = toc toLowerCase a ++ toc toLowerCase b.
Proof.
  rewrite !toc_omap, split_app. apply omap_app.
Qed.

(** X4: the outline of two texts joined by a line break is the outline of the
    first followed by the outline of the second. *)
Theorem toc_app toLowerCase a b :
  toc toLowerCase (a ++ LF :: b) = toc toLowerCase a ++ toc toLowerCase b.
Proof.
  apply toc_concat.
Qed.

(** X5: a heading rendered with the text of an outline entry as its children
    gets the id of that entry, provided the text holds no "<". *)
Theorem headingId_toc toLowerCase content e :
  In e (toc toLowerCase content) ->
  forallb (fun c => negb (lit "<" c)) (TocItem.text e) = true ->
  headingId toLowerCase (TocItem.text e) = TocItem.id e.
Proof.
  intros He Hlt. destruct (toc_In _ _ _ He) as [line [_ Hl]].
  destruct (tocLine_fields _ _ _ Hl) as (_ & -> & _).
  unfold headingId, headingText, replaceAll. f_equal.
  rewrite <- (app_nil_r (TocItem.text e)) at 1.
  rewrite gsub_tag_pre; [apply app_nil_r|].
  apply List.Forall_forall. intros c Hc. rewrite forallb_forall in Hlt.
  apply negb_true_iff, Hlt, Hc.
Qed.

Lemma headingId_toc_witness :
  headingId lowerAsciiOnly (u "Sub code Heading") = u "sub-code-heading".
Proof.
  apply (headingId_toc lowerAsciiOnly
           (u "# Title" ++ [LF] ++ u "## Sub `code` Heading")
           (TocItem.Make (u "sub-code-heading") (u "Sub code Heading") 2)).
  - vm_compute. right. left. reflexivity.
  - reflexivity.
Defined.

(** ** Titles *)

Lemma headingAt_shape s t :
  headingAt s = Some t -> trim t = t /\ forallb dot t = true.
Proof.
  unfold headingAt. destruct (dropWhile isSpace s) as [|c s2]; [discriminate|].
  destruct (lit "#" c); [|discriminate].
  destruct (takeWhile isSpace s2) as [|g gs]; [discriminate|].
  destruct (dropWhile isSpace s2) as [|d ds].
  - destruct (existsb dot gs); [|discriminate]. intros [= <-]. split; reflexivity.
  - intros [= <-]. split; [apply trim_idem|].
    apply Forall_forallb, Forall_trim, Forall_forallb.
    exact (takeWhile_all dot (d :: ds)).
Qed.

Lemma headingScan_shape s : forall b t,
  headingScan b s = Some t -> trim t = t /\ forallb dot t = true.
Proof.
  induction s as [|c s IH]; intros b t; cbn [headingScan].
  - destruct b; [|discriminate].
    destruct (headingAt []) eqn:E; [|discriminate].
    intros [= <-]. eapply headingAt_shape, E.
  - destruct (if b then headingAt (c :: s) else None) eqn:E.
    + intros [= <-]. destruct b; [|discriminate]. eapply headingAt_shape, E.
    + apply IH.
Qed.

Lemma headingAt_nohash s :
  Forall (fun c => lit "#" c = false) s -> headingAt s = None.
Proof.
  intros H. unfold headingAt.
  apply (Forall_dropWhile _ isSpace) in H.
  destruct (dropWhile isSpace s) as [|c s2]; [reflexivity|].
  inversion H as [|? ? Hc _]; subst. rewrite Hc. reflexivity.
Qed.

Lemma headingScan_nohash s :
  Forall (fun c => lit "#" c = false) s -> forall b, headingScan b s = None.
Proof.
  induction 1 as [|c s Hc Hs IH]; intros b; cbn [headingScan].
  - destruct b; reflexivity.
  - rewrite IH. destruct b; [|reflexivity].
    rewrite headingAt_nohash; [reflexivity|]. constructor; assumption.
Qed.

(** X6: a title, when there is one, is a single line without surrounding
    whitespace; a text without any "#" has no title. *)
Theorem title_shape raw :
  (forall t, DocCacheValue.title (docValue raw) = Some t ->
             trim t = t /\ forallb dot t = true)
  /\ (forallb (fun c => negb (lit "#" c)) raw = true ->
      DocCacheValue.title (docValue raw) = None).
Proof.
  cbn [docValue DocCacheValue.title]. rewrite heading_direct. split.
  - intros t. apply headingScan_shape.
  - intros H. apply headingScan_nohash. apply List.Forall_forall. intros c Hc.
    rewrite forallb_forall in H. apply negb_true_iff, H, Hc.
Qed.

Lemma title_shape_witness :
  DocCacheValue.title (docValue (u "plain text, no heading")) = None
  /\ trim (u "One") = u "One".
Proof.
  split.
  - apply (proj2 (title_shape (u "plain text, no heading"))). reflexivity.
  - apply (proj1 (title_shape (u "  #  One  " ++ [LF] ++ u "# Other")) (u "One")).
    vm_compute. reflexivity.
Defined.

(** ** Fallback titles *)

Lemma matchSeq_WordB ml r p s :
  matchSeq ml (WordB :: r) p s
  = if xorb (isWordAt p) (isWordAt (head s)) then matchSeq ml r p s else None.
Proof. reflexivity. Qed.

Lemma wordstart_match p c s :
  matchAt re_wordstart p (c :: s)
  = if isWord c && negb (isWordAt p) then Some ([], s) else None.
Proof.
  unfold matchAt, re_wordstart. cbn [atoms multiline].
  rewrite matchSeq_WordB, matchSeq_one. cbn [isWordAt matchSeq head].
  destruct (isWord c), (isWordAt p); reflexivity.
Qed.

Lemma gsub_wordstart s : forall p,
  gsub re_wordstart (List.map asciiUpper) p s 0 = capitalize (isWordAt p) s.
Proof.
  induction s as [|c s IH]; intros p.
  { cbn [gsub capitalize]. unfold matchAt, re_wordstart. cbn [atoms multiline].
    rewrite matchSeq_WordB, matchSeq_one. destruct (xorb _ _); reflexivity. }
  cbn [gsub capitalize]. rewrite wordstart_match.
  destruct (isWord c && negb (isWordAt p)).
  - change (c :: s) with ([c] ++ s). rewrite between_app.
    cbn [length List.map app]. f_equal. apply IH.
  - f_equal. apply IH.
Qed.

Lemma fallbackTitle_direct s :
  fallbackTitle s = capitalize false (List.map sepToSpace s).
Proof.
  unfold fallbackTitle, replaceAll. rewrite gsub_wordstart. cbn [isWordAt].
  f_equal. unfold re_sep. rewrite gsub_one.
  induction s as [|c s IH]; [reflexivity|].
  cbn [flat_map List.map]. rewrite IH. unfold sepToSpace, isSep.
  rewrite (orb_comm (lit "_" c)). destruct (lit "-" c || lit "_" c); reflexivity.
Qed.

Lemma length_capitalize b s : length (capitalize b s) = length s.
Proof.
  revert b. induction s as [|c s IH]; intros b; cbn [capitalize length];
    [reflexivity|]. rewrite IH. reflexivity.
Qed.

Lemma asciiUpper_word c : isWord (asciiUpper c) = isWord c.
Proof.
  unfold asciiUpper. destruct (isLower c) eqn:El; [|reflexivity].
  unfold isWord. rewrite El. cbn [orb].
  unfold isLower in El. unfold isLower, isUpper, isDigit. prop_bools.
  assert (Hu : (N.leb 65 (N.sub c 32) && N.leb (N.sub c 32) 90) = true).
  { apply andb_true_iff. split; apply N.leb_le; lia. }
  rewrite Hu. rewrite orb_true_r. reflexivity.
Qed.

Lemma asciiUpper_idem c : asciiUpper (asciiUpper c) = asciiUpper c.
Proof.
  unfold asciiUpper. destruct (isLower c) eqn:El.
  - destruct (isLower (N.sub c 32)) eqn:E2; [|reflexivity].
    unfold isLower in *. prop_bools. lia.
  - rewrite El. reflexivity.
Qed.

Lemma asciiUpper_sep c : isSep c = false -> isSep (asciiUpper c) = false.
Proof.
  unfold asciiUpper. destruct (isLower c) eqn:El; [|tauto]. intros _.
  unfold isLower in El. unfold isSep, lit. prop_bools.
  apply orb_false_iff. split; apply N.eqb_neq; cbn; lia.
Qed.

Lemma capitalize_idem s : forall b, capitalize b (capitalize b s) = capitalize b s.
Proof.
  induction s as [|c s IH]; intros b; [reflexivity|].
  cbn [capitalize].
  assert (Hw : isWord (if isWord c && negb b then asciiUpper c else c) = isWord c).
  { destruct (isWord c && negb b); [apply asciiUpper_word|reflexivity]. }
  rewrite Hw, IH. f_equal.
  destruct (isWord c && negb b); [apply asciiUpper_idem|reflexivity].
Qed.

Lemma capitalize_nosep s : forall b,
  Forall (fun c => isSep c = false) s ->
  Forall (fun c => isSep c = false) (capitalize b s).
Proof.
  induction s as [|c s IH]; intros b H; [constructor|].
  inversion H as [|? ? Hc Hs]; subst. cbn [capitalize]. constructor.
  - destruct (isWord c && negb b); [apply asciiUpper_sep, Hc|exact Hc].
  - apply IH, Hs.
Qed.

Lemma sepToSpace_nosep s : Forall (fun c => isSep c = false) (List.map sepToSpace s).
Proof.
  induction s as [|c s IH]; cbn [List.map]; constructor; [|exact IH].
  unfold sepToSpace. destruct (isSep c) eqn:E; [reflexivity|exact E].
Qed.

Lemma sepToSpace_fixed s :
  Forall (fun c => isSep c = false) s -> List.map sepToSpace s = s.
Proof.
  induction 1 as [|c s Hc _ IH]; cbn [List.map]; [reflexivity|].
  rewrite IH. unfold sepToSpace. rewrite Hc. reflexivity.
Qed.

(** X7: the fallback title is the display slug with every "-" and "_" turned
    into a space and every ASCII letter that does not follow a word character
    turned to upper case.  It has the length of the slug, holds no "-" or "_",
    and is its own fallback title. *)
Theorem fallbackTitle_spec :
  (forall s, fallbackTitle s = capitalize false (List.map sepToSpace s))
  /\ (forall s, length (fallbackTitle s) = length s)
  /\ (forall s, forallb (fun c => negb (isSep c)) (fallbackTitle s) = true)
  /\ (forall s, fallbackTitle (fallbackTitle s) = fallbackTitle s)
  /\ fallbackTitle (u "getting-started_v2") = u "Getting Started V2"
  /\ fallbackTitle (u "3d-view") = u "3d View".
Proof.
  split; [exact fallbackTitle_direct|]. split; [|split; [|split; [|split]]].
  - intros s. rewrite fallbackTitle_direct, length_capitalize. apply length_map.
  - intros s. rewrite fallbackTitle_direct. apply forallb_forall. intros c Hc.
    pose proof (capitalize_nosep (List.map sepToSpace s) false (sepToSpace_nosep s)) as H.
    rewrite List.Forall_forall in H. rewrite (H c Hc). reflexivity.
  - intros s. rewrite !fallbackTitle_direct.
    rewrite sepToSpace_fixed by apply capitalize_nosep, sepToSpace_nosep.
    apply capitalize_idem.
  - vm_compute. reflexivity.
  - vm_compute. reflexivity.
Qed.

(** ** Orders *)

Lemma parseInt10_bound digits :
  (length digits <= 3)%nat -> forallb isDigit digits = true ->
  (parseInt10 digits < 1000)%N.
Proof.
  intros Hl Hd. unfold parseInt10.
  destruct digits as [|a [|b [|c [|d ?]]]]; cbn [length] in Hl; try lia;
    cbn [forallb] in Hd; cbn [fold_left]; unfold isDigit in Hd; prop_bools; lia.
Qed.

Lemma order_neginf k :
  Item.order (toItem k) = NegInf <-> Item.slug (toItem k) = u "index".
Proof.
  rewrite toItem_direct. cbn [Item.order Item.slug]. unfold orderAndSlug.
  set (base := stripMd (lastSegment k)). split.
  - destruct (orderPrefix base) as [[d r]|]; [discriminate|].
    destruct (eqs base (u "index")) eqn:E; [|discriminate].
    intros _. apply eqs_true, E.
  - intros ->. reflexivity.
Qed.

(** X8: a numeric order is at most 999, and the order is negative infinity
    exactly for the stem "index". *)
Theorem order_range k :
  (forall n, Item.order (toItem k) = Fin n -> (n < 1000)%N)
  /\ (Item.order (toItem k) = NegInf <-> Item.slug (toItem k) = u "index").
Proof.
  split; [|apply order_neginf].
  rewrite toItem_direct. cbn [Item.order]. unfold orderAndSlug.
  destruct (orderPrefix (stripMd (lastSegment k))) as [[d r]|] eqn:E.
  - cbn [fst]. intros n [= <-].
    apply orderPrefix_iff in E as (sep & _ & Hl & Hd & _).
    apply parseInt10_bound; [lia|exact Hd].
  - intros n. destruct (eqs _ _); discriminate.
Qed.

Lemma order_range_witness :
  Item.order (toItem (u "../content/en/999_last.md")) = Fin 999
  /\ (999 < 1000)%N.
Proof.
  split; [reflexivity|].
  apply (proj1 (order_range (u "../content/en/999_last.md"))). reflexivity.
Defined.

(** ** Normalization *)

Lemma join_cons sep (l l' : jstring) ls :
  join sep (l :: l' :: ls) = l ++ sep ++ join sep (l' :: ls).
Proof. reflexivity. Qed.

Lemma join_split (s : jstring) : join [LF] (split LF s) = s.
Proof.
  induction s as [|c s IH]; [reflexivity|].
  cbn [split]. pose proof (split_nonempty LF s) as Hne.
  destruct (split LF s) as [|l ls] eqn:E; [congruence|].
  destruct (N.eqb c LF) eqn:Ec.
  - apply N.eqb_eq in Ec. subst c. rewrite join_cons, IH. reflexivity.
  - destruct ls as [|l' ls'].
    + cbn [join] in *. rewrite IH. reflexivity.
    + rewrite join_cons in *. rewrite <- IH. reflexivity.
Qed.

Lemma unifySpec_noCR_id s :
  Forall (fun c => c <> CR) s -> unifySpec s = s.
Proof.
  induction 1 as [|c s Hc _ IH]; [reflexivity|].
  cbn [unifySpec]. unfold eqc. apply N.eqb_neq in Hc. rewrite Hc, IH. reflexivity.
Qed.

Lemma br_nomatch p c s : lit "<" c = false -> matchAt re_br p (c :: s) = None.
Proof.
  intros Hc. unfold matchAt, re_br. cbn [atoms multiline].
  rewrite matchSeq_one, Hc. reflexivity.
Qed.

Lemma br_nomatch_nil p : matchAt re_br p [] = None.
Proof. unfold matchAt, re_br. cbn [atoms multiline]. rewrite matchSeq_one. reflexivity. Qed.

Lemma gsub_br_id t :
  Forall (fun c => lit "<" c = false) t ->
  forall p, gsub re_br (fun _ => [LF]) p t 0 = t.
Proof.
  induction 1 as [|c t Hc _ IH]; intros p.
  - cbn [gsub]. rewrite br_nomatch_nil. reflexivity.
  - cbn [gsub]. rewrite br_nomatch by exact Hc. f_equal. apply IH.
Qed.

Lemma breakTags_id t :
  Forall (fun c => lit "<" c = false) t -> breakTags t = t.
Proof. intros H. apply gsub_br_id, H. Qed.

Lemma normalizeLines_id ls :
  Forall (Forall (fun c => lit "<" c = false)) ls ->
  forall b, normalizeLines ls b = ls.
Proof.
  induction 1 as [|t ls Ht _ IH]; intros b; [reflexivity|].
  cbn [normalizeLines]. rewrite !IH, (breakTags_id t Ht).
  destruct (isFenceLine t), b; reflexivity.
Qed.

(** Every match of a pattern ends within the input it started on. *)
Lemma matchSeq_length ml r : forall p s ms e,
  matchSeq ml r p s = Some (ms, e) -> (length e <= length s)%nat.
Proof.
  induction r as [|a r IH]; intros p s ms e H.
  - cbn in H. injection H as _ <-. lia.
  - destruct a.
    + rewrite matchSeq_Rep in H.
      destruct (backFrom_some (matchSeq ml r) lo p s (maxRun cs hi s))
        as (j & res & Hj & Hk & Hb); [congruence|].
      rewrite Hb in H. injection H as ->. apply IH in Hk.
      rewrite length_skipn in Hk. lia.
    + rewrite matchSeq_Bol in H. destruct (atBol ml p); [eauto|discriminate].
    + cbn [matchSeq] in H. destruct (atEol ml s); [eauto|discriminate].
    + rewrite matchSeq_WordB in H. destruct (xorb _ _); [eauto|discriminate].
    + rewrite matchSeq_Ahead in H. destruct (existsb _ _); [eauto|discriminate].
    + rewrite matchSeq_Open in H.
      destruct (matchSeq ml r p s) as [[ms' e']|] eqn:E; [|discriminate].
      cbn in H. injection H as _ <-. eauto.
    + rewrite matchSeq_Close in H.
      destruct (matchSeq ml r p s) as [[ms' e']|] eqn:E; [|discriminate].
      cbn in H. injection H as _ <-. eauto.
Qed.

Lemma match_nonempty re p s ms e :
  startsWithOne re -> matchAt re p s = Some (ms, e) -> (length e < length s)%nat.
Proof.
  intros (cs & r & Hre). unfold matchAt. rewrite Hre, matchSeq_one.
  destruct s as [|c s]; [discriminate|]. destruct (cs c); [|discriminate].
  intros H. apply matchSeq_length in H. cbn [length]. lia.
Qed.

Lemma gsub_shrinks re x : startsWithOne re ->
  forall s p k, (length (gsub re (fun _ => [x]) p s k) <= length s - k)%nat.
Proof.
  intros Hre. induction s as [|c s IH]; intros p k.
  - destruct k; cbn [gsub length]; [|lia].
    destruct (matchAt re p []) as [[ms e]|] eqn:E; [|cbn; lia].
    apply (match_nonempty _ _ _ _ _ Hre) in E. cbn in E. lia.
  - destruct k as [|k]; cbn [gsub].
    + destruct (matchAt re p (c :: s)) as [[ms e]|] eqn:E.
      * apply (match_nonempty _ _ _ _ _ Hre) in E.
        rewrite length_between.
        destruct (length (c :: s) - length e)%nat as [|n] eqn:En; [lia|].
        cbn [app length] in *. specialize (IH (Some c) n).
        rewrite Nat.sub_0_r. apply le_n_S.
        etransitivity; [exact IH|]. apply Nat.le_sub_l.
      * cbn [length]. specialize (IH (Some c) 0%nat). lia.
    + cbn [length]. specialize (IH (Some c) k). lia.
Qed.

Lemma length_join_le (ls ls' : list jstring) :
  Forall2 (fun a b => (length a <= length b)%nat) ls' ls ->
  (length (join [LF] ls') <= length (join [LF] ls))%nat.
Proof.
  induction 1 as [|a b ls' ls Hab H IH]; [reflexivity|].
  destruct H as [|a2 b2 ls' ls Hab2 H]; [exact Hab|].
  rewrite !join_cons. rewrite !length_app.
  apply Nat.add_le_mono; [exact Hab|].
  apply Nat.add_le_mono; [reflexivity|exact IH].
Qed.

Lemma normalizeLines_shrinks ls : forall b,
  Forall2 (fun a b => (length a <= length b)%nat) (normalizeLines ls b) ls.
Proof.
  induction ls as [|t ls IH]; intros b; cbn [normalizeLines]; [constructor|].
  assert (Hbr : (length (breakTags t) <= length t)%nat).
  { unfold breakTags, replaceAll.
    pose proof (gsub_shrinks re_br LF ltac:(eexists _, _; reflexivity) t None 0%nat).
    lia. }
  destruct (isFenceLine t); [constructor; [lia|apply IH]|].
  destruct b; constructor; try apply IH; lia.
Qed.

(** X9: normalization never lengthens a text, and leaves a text without CR
    and without "<" as it is. *)
Theorem normalizeMd_conservative raw :
  (length (normalizeMd raw) <= length raw)%nat
  /\ (forallb (fun c => negb (eqc CR c) && negb (lit "<" c)) raw = true ->
      normalizeMd raw = raw).
Proof.
  split.
  - unfold normalizeMd.
    eapply Nat.le_trans; [apply length_join_le, normalizeLines_shrinks|].
    rewrite join_split. unfold unifyEol, replaceAll.
    pose proof (gsub_shrinks re_eol LF ltac:(eexists _, _; reflexivity) raw None 0%nat).
    lia.
  - intros H. unfold normalizeMd. rewrite unifyEol_direct.
    assert (H1 : Forall (fun c => c <> CR) raw /\ Forall (fun c => lit "<" c = false) raw).
    { split; apply List.Forall_forall; intros c Hc; rewrite forallb_forall in H;
        specialize (H c Hc); apply andb_true_iff in H as [Ha Hb].
      - unfold eqc in Ha. apply negb_true_iff, N.eqb_neq in Ha. exact Ha.
      - apply negb_true_iff, Hb. }
    destruct H1 as [Hcr Hlt].
    rewrite unifySpec_noCR_id by exact Hcr.
    rewrite normalizeLines_id; [apply join_split|].
    apply split_Forall, Hlt.
Qed.

Lemma normalizeMd_conservative_witness :
  normalizeMd (u "# Title" ++ [LF] ++ u "```" ++ [LF] ++ u "x > 1")
  = u "# Title" ++ [LF] ++ u "```" ++ [LF] ++ u "x > 1".
Proof.
  apply (proj2 (normalizeMd_conservative _)). reflexivity.
Defined.

(** ** Keys and languages *)

Lemma startsWith_iff (s p : jstring) :
  startsWith s p = true <-> exists rest, s = p ++ rest.
Proof.
  revert s. induction p as [|a p IH]; intros s; cbn [startsWith].
  - split; [intros _; exists s; reflexivity|]. intros _. destruct s; reflexivity.
  - destruct s as [|b s].
    + cbn [startsWith]. split; [discriminate|]. intros [rest H]. discriminate.
    + cbn [startsWith]. rewrite andb_true_iff, N.eqb_eq, IH. split.
      * intros [-> [rest ->]]. exists rest. reflexivity.
      * intros [rest H]. cbn [app] in H. injection H as -> ->.
        split; [reflexivity|]. exists rest. reflexivity.
Qed.

Lemma app_stop_inj (x : jchar) (a b r r' : jstring) :
  Forall (fun c => c <> x) a -> Forall (fun c => c <> x) b ->
  a ++ x :: r = b ++ x :: r' -> a = b.
Proof.
  intros Ha. revert b. induction Ha as [|c a Hc Ha IH]; intros b Hb H.
  - destruct Hb as [|d b Hd Hb]; [reflexivity|].
    cbn [app] in H. injection H as <- _. congruence.
  - destruct Hb as [|d b Hd Hb]; cbn [app] in H.
    + injection H as -> _. congruence.
    + injection H as -> H. f_equal. eapply IH; eassumption.
Qed.

Lemma lookupFile_some docFiles k l :
  lookupFile docFiles k = Some l -> In k (List.map fst docFiles).
Proof.
  unfold lookupFile. destruct (List.find _ docFiles) as [e|] eqn:E; [|discriminate].
  intros _. apply find_some in E as [Hin He]. apply eqs_true in He. subst k.
  apply in_map, Hin.
Qed.

Lemma keys_In docFiles language k :
  In k (keys docFiles language)
  <-> In k (List.map fst docFiles)
      /\ exists rest, k = u "../content/" ++ language ++ u "/" ++ rest.
Proof.
  unfold keys. rewrite filter_In, startsWith_iff. unfold contentPrefix.
  split; intros [H [rest Hr]]; (split; [exact H|]); exists rest; rewrite Hr;
    rewrite <- !app_assoc; reflexivity.
Qed.

(** X10: a key belongs to the documents of one language only, for language
    codes holding no "/". *)
Theorem keys_disjoint docFiles la lb k :
  forallb (fun c => negb (lit "/" c)) la = true ->
  forallb (fun c => negb (lit "/" c)) lb = true ->
  In k (keys docFiles la) -> In k (keys docFiles lb) -> la = lb.
Proof.
  intros Ha Hb Hka Hkb.
  apply keys_In in Hka as [_ [ra Hra]]. apply keys_In in Hkb as [_ [rb Hrb]].
  rewrite Hra in Hrb. apply app_inv_head in Hrb.
  assert (Hs : forall l, forallb (fun c => negb (lit "/" c)) l = true ->
                         Forall (fun c => c <> chr "/") l).
  { intros l Hl. apply List.Forall_forall. intros c Hc.
    rewrite forallb_forall in Hl. specialize (Hl c Hc).
    apply negb_true_iff in Hl. unfold lit in Hl. apply N.eqb_neq, Hl. }
  eapply (app_stop_inj (chr "/")); [apply Hs, Ha|apply Hs, Hb|exact Hrb].
Qed.

Lemma keys_disjoint_witness :
  u "en" = u "en".
Proof.
  apply (keys_disjoint sampleFiles (u "en") (u "en") (u "../content/en/index.md"));
    vm_compute; auto.
Defined.

(** ** Resolution *)

Lemma items_In docFiles localeCompare language i :
  In i (items docFiles localeCompare language)
  <-> exists k, In k (keys docFiles language) /\ i = toItem k.
Proof.
  unfold items. split.
  - intros H. eapply Permutation_in in H; [|apply sort_perm].
    apply in_map_iff in H as [k [<- Hk]]. exists k. split; [exact Hk|reflexivity].
  - intros [k [Hk ->]]. eapply Permutation_in; [symmetry; apply sort_perm|].
    apply in_map, Hk.
Qed.

Lemma toItem_fileKey k : Item.fileKey (toItem k) = k.
Proof. rewrite toItem_direct. reflexivity. Qed.

Lemma resolved_key docFiles localeCompare language desired k :
  resolved docFiles localeCompare language desired = Some k ->
  In k (keys docFiles language).
Proof.
  unfold resolved.
  destruct (List.find _ (items docFiles localeCompare language)) as [i|] eqn:E.
  - intros [= <-]. apply find_some in E as [Hin _].
    apply items_In in Hin as [k [Hk ->]]. rewrite toItem_fileKey. exact Hk.
  - destruct (lookupFile docFiles (fallbackPath language desired)) as [l|] eqn:El;
      [|discriminate].
    intros [= <-]. apply keys_In. split; [eapply lookupFile_some, El|].
    exists (desired ++ u ".md"). reflexivity.
Qed.

Lemma keys_loader docFiles language k :
  In k (keys docFiles language) -> is_Some (lookupFile docFiles k).
Proof.
  intros H. apply keys_In in H as [H _].
  destruct (lookupFile_In docFiles k H) as [l Hl]. rewrite Hl. eexists. reflexivity.
Qed.

(** X11: the key a request resolves to is always a key of the requested
    language with a loader in the store, and the display slug of the entry
    found first when one is listed under the requested slug. *)
Theorem resolved_sound docFiles localeCompare language desired k :
  resolved docFiles localeCompare language desired = Some k ->
  In k (keys docFiles language)
  /\ is_Some (lookupFile docFiles k)
  /\ (Item.displaySlug (toItem k) = desired
      \/ k = fallbackPath language desired).
Proof.
  intros H. pose proof (resolved_key _ _ _ _ _ H) as Hk.
  split; [exact Hk|]. split; [eapply keys_loader, Hk|].
  unfold resolved in H.
  destruct (List.find _ (items docFiles localeCompare language)) as [i|] eqn:E.
  - injection H as <-. apply find_some in E as [Hin He].
    apply items_In in Hin as [k [_ ->]]. rewrite toItem_fileKey.
    left. apply eqs_true, He.
  - destruct (lookupFile docFiles (fallbackPath language desired)); [|discriminate].
    injection H as <-. right. reflexivity.
Qed.

Lemma resolved_sound_witness :
  In (u "../content/en/001_intro.md") (keys sampleFiles (u "en")).
Proof.
  apply (resolved_sound sampleFiles codeUnitCompare (u "en") (u "001_intro")).
  vm_compute. reflexivity.
Defined.

(** ** The index entry *)

Section IndexFirst.

Variable localeCompare : jstring -> jstring -> comparison.
Hypothesis locale_antisym :
  forall a b, localeCompare b a = CompOpp (localeCompare a b).
Hypothesis locale_trans :
  forall a b c, localeCompare a b <> Gt -> localeCompare b c <> Gt ->
                localeCompare a c <> Gt.

Lemma items_head_index docFiles language k :
  In k (keys docFiles language) -> Item.slug (toItem k) = u "index" ->
  exists h rest,
    items docFiles localeCompare language = h :: rest
    /\ Item.slug h = u "index" /\ Item.displaySlug h = u "index"
    /\ Item.order h = NegInf.
Proof using locale_antisym locale_trans.
  intros Hk Hs.
  assert (Hin : In (toItem k) (items docFiles localeCompare language))
    by (apply items_In; exists k; split; [exact Hk|reflexivity]).
  pose proof (sort_sorted (compareItems localeCompare)
                (compareItems_antisym localeCompare locale_antisym)
                (compareItems_trans localeCompare locale_trans)
                (List.map toItem (keys docFiles language))) as Hsorted.
  fold (items docFiles localeCompare language) in Hsorted.
  destruct (items docFiles localeCompare language) as [|h rest] eqn:E;
    [destruct Hin|].
  assert (Hh : In h (items docFiles localeCompare language))
    by (rewrite E; left; reflexivity).
  apply items_In in Hh as [kh [_ Hkh]].
  assert (Ho : Item.order h = NegInf).
  { destruct Hin as [Heq|Hin]; [rewrite Heq; apply order_neginf, Hs|].
    apply StronglySorted_inv in Hsorted as [_ Hall].
    rewrite List.Forall_forall in Hall. specialize (Hall _ Hin).
    apply compareItems_le in Hall.
    apply order_neginf in Hs. unfold itemLe in Hall. rewrite Hs in Hall.
    destruct Hall as [Hlt|[Heq _]]; [|exact Heq].
    destruct (Item.order h); destruct Hlt. }
  exists h, rest. split; [reflexivity|]. subst h.
  pose proof (proj1 (order_neginf kh) Ho) as Hslug.
  split; [exact Hslug|]. split; [|exact Ho].
  revert Ho Hslug. rewrite toItem_direct.
  cbn [Item.order Item.slug Item.displaySlug]. intros Ho ->. reflexivity.
Qed.

(** X12: when a language has a file with the stem "index", the first entry of
    its list has the stem "index". *)
Theorem index_first docFiles language k :
  In k (keys docFiles language) -> Item.slug (toItem k) = u "index" ->
  exists h rest,
    items docFiles localeCompare language = h :: rest
    /\ Item.slug h = u "index" /\ Item.displaySlug h = u "index"
    /\ Item.order h = NegInf.
Proof using locale_antisym locale_trans.
  apply items_head_index.
Qed.

End IndexFirst.

Lemma index_first_witness :
  exists h rest,
    items sampleFiles codeUnitCompare (u "en") = h :: rest
    /\ Item.slug h = u "index" /\ Item.displaySlug h = u "index"
    /\ Item.order h = NegInf.
Proof.
  apply (index_first codeUnitCompare codeUnitCompare_antisym codeUnitCompare_trans
           sampleFiles (u "en") (u "../content/en/index.md")).
  - vm_compute. left. reflexivity.
  - reflexivity.
Defined.

(** ** Links *)

Lemma litCi_lower a c :
  isLower (chr a) = true ->
  litCi a c = N.eqb (asciiLower c) (chr a).
Proof.
  intros Ha. unfold litCi, asciiUpper at 2. rewrite Ha.
  unfold asciiUpper, asciiLower.
  destruct (isLower c) eqn:El, (isUpper c) eqn:Eu;
    unfold isLower, isUpper in *;
    repeat match goal with
           | H : _ && _ = false |- _ => apply andb_false_iff in H as [H|H]
           end;
    prop_bools; apply eq_true_iff_eq; rewrite !N.eqb_eq; lia.
Qed.

Lemma lower_colon c : lit ":" c = N.eqb (asciiLower c) (chr ":").
Proof.
  unfold lit, asciiLower. destruct (isUpper c) eqn:Eu; [|reflexivity].
  unfold isUpper in Eu. prop_bools.
  apply eq_true_iff_eq; rewrite !N.eqb_eq; cbn; lia.
Qed.

Lemma lower_slash c : lit "/" c = N.eqb (asciiLower c) (chr "/").
Proof.
  unfold lit, asciiLower. destruct (isUpper c) eqn:Eu; [|reflexivity].
  unfold isUpper in Eu. prop_bools.
  apply eq_true_iff_eq; rewrite !N.eqb_eq; cbn; lia.
Qed.

Lemma startsWith_cons (c a : jchar) s p :
  startsWith (c :: s) (a :: p) = N.eqb a c && startsWith s p.
Proof. reflexivity. Qed.

Lemma startsWith_nil_l (a : jchar) p : startsWith [] (a :: p) = false.
Proof. reflexivity. Qed.

Lemma startsWith_nil_r s : startsWith s [] = true.
Proof. destruct s; reflexivity. Qed.

Lemma matchSeq_one_cons ml cs r p c s :
  matchSeq ml (one cs :: r) p (c :: s)
  = if cs c then matchSeq ml r (Some c) s else None.
Proof. rewrite matchSeq_one. reflexivity. Qed.

Lemma matchSeq_one_nil ml cs r p : matchSeq ml (one cs :: r) p [] = None.
Proof. rewrite matchSeq_one. reflexivity. Qed.

Lemma matchSeq_opt_cons ml cs r p c s :
  matchSeq ml (opt cs :: r) p (c :: s)
  = if cs c
    then match matchSeq ml r (Some c) s with
         | Some res => Some res
         | None => matchSeq ml r p (c :: s)
         end
    else matchSeq ml r p (c :: s).
Proof. rewrite matchSeq_opt. reflexivity. Qed.

Lemma matchSeq_opt_nil ml cs r p :
  matchSeq ml (opt cs :: r) p [] = matchSeq ml r p [].
Proof. rewrite matchSeq_opt. reflexivity. Qed.

Lemma matchSeq_nil ml p s : matchSeq ml [] p s = Some ([], s).
Proof. reflexivity. Qed.

Ltac run_match :=
  repeat first
    [ rewrite matchSeq_one_cons | rewrite matchSeq_one_nil
    | rewrite matchSeq_opt_cons | rewrite matchSeq_opt_nil
    | rewrite matchSeq_nil | rewrite startsWith_cons
    | rewrite startsWith_nil_l | rewrite startsWith_nil_r ].

Ltac clash :=
  match goal with
  | H1 : ?x = chr ?a, H2 : ?x = chr ?b |- _ =>
      rewrite H1 in H2; vm_compute in H2; discriminate
  end.

Lemma http_test url :
  test re_http url
  = startsWith (List.map asciiLower url) (u "http://")
    || startsWith (List.map asciiLower url) (u "https://").
Proof.
  unfold test. rewrite exec_anchored by reflexivity.
  unfold matchAt, re_http. cbn [atoms multiline].
  rewrite matchSeq_Bol. cbn [atBol].
  change (u "http://") with [chr "h"; chr "t"; chr "t"; chr "p"; chr ":"; chr "/"; chr "/"].
  change (u "https://")
    with [chr "h"; chr "t"; chr "t"; chr "p"; chr "s"; chr ":"; chr "/"; chr "/"].
  do 8 (destruct url as [|? url];
        [cbn [List.map]; run_match;
         rewrite ?(litCi_lower "h" _ eq_refl), ?(litCi_lower "t" _ eq_refl),
                 ?(litCi_lower "p" _ eq_refl), ?(litCi_lower "s" _ eq_refl),
                 ?lower_colon, ?lower_slash,
                 ?(N.eqb_sym (chr _));
         repeat match goal with
                | |- context [N.eqb (asciiLower ?c) ?a] =>
                    destruct (N.eqb (asciiLower c) a) eqn:?
                end; try reflexivity; prop_bools; clash|]).
  cbn [List.map]. run_match.
  rewrite ?(litCi_lower "h" _ eq_refl), ?(litCi_lower "t" _ eq_refl),
                 ?(litCi_lower "p" _ eq_refl), ?(litCi_lower "s" _ eq_refl),
                 ?lower_colon, ?lower_slash,
          ?(N.eqb_sym (chr _)).
  repeat match goal with
         | |- context [N.eqb (asciiLower ?c) ?a] =>
             destruct (N.eqb (asciiLower c) a) eqn:?
         end; try reflexivity; prop_bools; clash.
Qed.

Lemma eqs_refl (a : jstring) : eqs a a = true.
Proof. unfold eqs. apply bool_decide_eq_true. reflexivity. Qed.

Lemma eqs_false (a b : jstring) : eqs a b = false <-> a <> b.
Proof. unfold eqs. apply bool_decide_eq_false. Qed.

Lemma buildDocPath_cases prefix slug :
  buildDocPath prefix slug
  = if eqs (slugOrIndex slug) (u "index") then docsBasePath prefix
    else docsBasePath prefix ++ u "/" ++ slugOrIndex slug.
Proof.
  destruct slug as [[|c s]|]; cbn [buildDocPath slugOrIndex isEmpty negb andb];
    rewrite ?eqs_refl; try reflexivity.
  destruct (eqs (c :: s) (u "index")); reflexivity.
Qed.

(** X13: two slugs give the same docs path exactly when they name the same
    topic, an absent or empty slug naming the index topic; the index topic
    is the docs root. *)
Theorem buildDocPath_spec prefix :
  (forall a b, buildDocPath prefix a = buildDocPath prefix b
               <-> slugOrIndex a = slugOrIndex b)
  /\ (forall a, buildDocPath prefix a = prefix ++ u "/docs"
                <-> slugOrIndex a = u "index").
Proof.
  assert (Hroot : forall s, docsBasePath prefix ++ u "/" ++ s <> docsBasePath prefix).
  { intros s H. rewrite <- (app_nil_r (docsBasePath prefix)) in H at 2.
    apply app_inv_head in H. discriminate. }
  split.
  - intros a b. rewrite !buildDocPath_cases.
    destruct (eqs (slugOrIndex a) (u "index")) eqn:Ea,
             (eqs (slugOrIndex b) (u "index")) eqn:Eb.
    + apply eqs_true in Ea, Eb. rewrite Ea, Eb. tauto.
    + apply eqs_true in Ea. apply eqs_false in Eb. split.
      * intros H. symmetry in H. apply Hroot in H. destruct H.
      * intros H. congruence.
    + apply eqs_true in Eb. apply eqs_false in Ea. split.
      * intros H. apply Hroot in H. destruct H.
      * intros H. congruence.
    + split; [|intros ->; reflexivity].
      intros H. apply app_inv_head in H. injection H as H. exact H.
  - intros a. rewrite buildDocPath_cases.
    change (prefix ++ u "/docs") with (docsBasePath prefix).
    destruct (eqs (slugOrIndex a) (u "index")) eqn:Ea.
    + apply eqs_true in Ea. tauto.
    + apply eqs_false in Ea. split; [|tauto]. intros H. apply Hroot in H. destruct H.
Qed.

Lemma buildDocPath_spec_witness :
  buildDocPath (u "/ko") (Some []) = buildDocPath (u "/ko") (Some (u "index")).
Proof.
  apply (proj1 (buildDocPath_spec (u "/ko"))). reflexivity.
Defined.

Lemma stripMd_suffix s : stripMd (s ++ u ".md") = s.
Proof.
  induction s as [|c s IH]; [reflexivity|].
  cbn [app]. unfold stripMd; fold stripMd.
  assert (E : eqs (c :: s ++ u ".md") (u ".md") = false).
  { apply eqs_false. intros H. apply (f_equal (@length jchar)) in H.
    cbn [length] in H. rewrite length_app in H. cbn in H. lia. }
  rewrite E, IH. reflexivity.
Qed.

Lemma dotslash_strip rest :
  replaceFirst re_dotslash (fun _ => []) (u "./" ++ rest) = rest.
Proof.
  unfold replaceFirst. change (u "./" ++ rest) with (chr "." :: chr "/" :: rest).
  cbn [replaceFrom]. unfold matchAt, re_dotslash. cbn [atoms multiline].
  rewrite matchSeq_Bol. cbn [atBol]. run_match.
  replace (lit "." (chr ".")) with true by reflexivity.
  replace (lit "/" (chr "/")) with true by reflexivity. reflexivity.
Qed.

Lemma http_not_relative rest : test re_http (u "./" ++ rest) = false.
Proof. rewrite http_test. reflexivity. Qed.

(** X14: the link component opens a URL starting with "http://" or "https://"
    (in any letter case) in a new tab; turns a URL starting with "./" into a
    router link to the docs path of what follows, without a final ".md"; and
    renders any other URL as a plain anchor. *)
Theorem linkOf_spec prefix :
  (forall url,
     linkOf prefix (Some url) = NewTab url
     <-> startsWith (List.map asciiLower url) (u "http://")
         || startsWith (List.map asciiLower url) (u "https://") = true)
  /\ (forall rest,
        linkOf prefix (Some (u "./" ++ rest))
        = RouterLink (buildDocPath prefix (Some (stripMd rest))))
  /\ (forall slug,
        linkOf prefix (Some (u "./" ++ slug ++ u ".md"))
        = RouterLink (buildDocPath prefix (Some slug)))
  /\ linkOf prefix (Some (u "./index.md")) = RouterLink (prefix ++ u "/docs")
  /\ linkOf prefix (Some (u "./")) = RouterLink (prefix ++ u "/docs")
  /\ (forall url,
        test re_http url = false -> startsWith url (u "./") = false ->
        linkOf prefix (Some url) = SamePage url)
  /\ linkOf prefix None = SamePage [].
Proof.
  assert (Hrel : forall rest,
            linkOf prefix (Some (u "./" ++ rest))
            = RouterLink (buildDocPath prefix (Some (stripMd rest)))).
  { intros rest. unfold linkOf. rewrite http_not_relative.
    replace (startsWith (u "./" ++ rest) (u "./")) with true
      by (symmetry; apply startsWith_iff; exists rest; reflexivity).
    rewrite dotslash_strip, stripMd_direct. reflexivity. }
  split; [|split; [exact Hrel|split; [|split; [|split; [|split]]]]].
  - intros url. rewrite <- http_test. unfold linkOf.
    destruct (test re_http url); [tauto|].
    destruct (startsWith url (u "./")); split; discriminate.
  - intros slug. rewrite Hrel, stripMd_suffix. reflexivity.
  - apply (Hrel (u "index.md")).
  - apply (Hrel []).
  - intros url H1 H2. unfold linkOf. rewrite H1, H2. reflexivity.
  - reflexivity.
Qed.

Lemma linkOf_spec_witness :
  linkOf (u "/ko") (Some (u "HTTPS://example.com")) = NewTab (u "HTTPS://example.com")
  /\ linkOf (u "/ko") (Some (u "#usage")) = SamePage (u "#usage").
Proof.
  destruct (linkOf_spec (u "/ko")) as (H1 & _ & _ & _ & _ & H6 & _).
  split; [apply H1; reflexivity|apply H6; reflexivity].
Defined.

(** ** Previous and next *)

Lemma findIndexFrom_absent {A} (p : A -> bool) l :
  Forall (fun x => p x = false) l -> forall i, findIndexFrom p l i = (-1)%Z.
Proof.
  induction 1 as [|x l Hx _ IH]; intros i; cbn [findIndexFrom]; [reflexivity|].
  rewrite Hx. apply IH.
Qed.

Lemma findIndexFrom_first {A} (p : A -> bool) before c after :
  Forall (fun x => p x = false) before -> p c = true ->
  forall i, findIndexFrom p (before ++ c :: after) i = (i + Z.of_nat (length before))%Z.
Proof.
  intros Hb Hc. induction Hb as [|x l Hx _ IH]; intros i; cbn [app findIndexFrom length].
  - rewrite Hc. lia.
  - rewrite Hx, IH. lia.
Qed.

Lemma find_first_split {A} (p : A -> bool) l :
  Exists (fun x => p x = true) l ->
  exists before c after,
    l = before ++ c :: after /\ Forall (fun x => p x = false) before /\ p c = true.
Proof.
  induction l as [|x l IH]; intros H; [inversion H|].
  destruct (p x) eqn:Ex.
  - exists [], x, l. split; [reflexivity|]. split; [constructor|exact Ex].
  - inversion H as [? ? Hx|? ? Hl]; subst; [congruence|].
    destruct (IH Hl) as (b & c & a & -> & Hb & Hc).
    exists (x :: b), c, a. split; [reflexivity|]. split; [constructor; assumption|exact Hc].
Qed.

Lemma pager_at before c after cur :
  Forall (fun t => eqs (Topic.slug t) cur = false) before ->
  eqs (Topic.slug c) cur = true ->
  pager (before ++ c :: after) cur = (last before, head after).
Proof.
  intros Hb Hc. unfold pager, findIndex.
  rewrite (findIndexFrom_first _ before c after Hb Hc). f_equal.
  - clear Hb. destruct before as [|x xs]; [reflexivity|].
    destruct (exists_last (l := x :: xs)) as (b' & z & ->); [discriminate|].
    rewrite length_app. cbn [length].
    replace (0 <? 0 + Z.of_nat (length b' + 1))%Z with true
      by (symmetry; apply Z.ltb_lt; lia).
    replace (Z.to_nat (0 + Z.of_nat (length b' + 1) - 1)) with (length b') by lia.
    rewrite <- app_assoc. rewrite lookup_app_r by lia.
    rewrite Nat.sub_diag. rewrite last_snoc. reflexivity.
  - replace (0 <=? 0 + Z.of_nat (length before))%Z with true
      by (symmetry; apply Z.leb_le; lia).
    cbn [andb]. rewrite length_app.
    destruct after as [|a after']; cbn [length].
    + replace (0 + Z.of_nat (length before) <? Z.of_nat (length before + 1) - 1)%Z
        with false by (symmetry; apply Z.ltb_ge; lia).
      reflexivity.
    + replace (0 + Z.of_nat (length before) <? Z.of_nat (length before + S (S (length after'))) - 1)%Z
        with true by (symmetry; apply Z.ltb_lt; lia).
      replace (Z.to_nat (0 + Z.of_nat (length before) + 1)) with (length before + 1)%nat by lia.
      rewrite lookup_app_r by lia.
      replace (length before + 1 - length before)%nat with 1%nat by lia. reflexivity.
Qed.

Lemma pager_absent topics cur :
  Forall (fun t => eqs (Topic.slug t) cur = false) topics ->
  pager topics cur = (None, None).
Proof.
  intros H. unfold pager, findIndex. rewrite (findIndexFrom_absent _ _ H). reflexivity.
Qed.

(** X15: the links below the article lead to the entries just before and just
    after the first topic whose slug is the current one; the first topic has
    no previous link, the last no next link, and a current topic that is not
    listed has neither. *)
Theorem pager_spec :
  (forall before c after,
     Forall (fun t => Topic.slug t <> Topic.slug c) before ->
     pager (before ++ c :: after) (Topic.slug c) = (last before, head after))
  /\ (forall topics cur,
        Forall (fun t => Topic.slug t <> cur) topics ->
        pager topics cur = (None, None) /\ pagerShown topics cur = false)
  /\ (forall c, pagerShown [c] (Topic.slug c) = false).
Proof.
  assert (Hne : forall cur l, Forall (fun t => Topic.slug t <> cur) l ->
                  Forall (fun t => eqs (Topic.slug t) cur = false) l).
  { intros cur l H. eapply List.Forall_impl; [|exact H].
    intros t Ht. apply eqs_false, Ht. }
  split; [|split].
  - intros before c after Hb. apply pager_at; [apply Hne, Hb|apply eqs_refl].
  - intros topics cur H. unfold pagerShown.
    rewrite (pager_absent _ _ (Hne _ _ H)). split; reflexivity.
  - intros c. unfold pagerShown. change [c] with ([] ++ [c]).
    rewrite (pager_at [] c [] (Topic.slug c)); [reflexivity|constructor|apply eqs_refl].
Qed.

Lemma pager_spec_witness :
  pager ([Topic.Make (u "index") (u "Home")]
         ++ Topic.Make (u "intro") (u "Intro") :: [Topic.Make (u "api") (u "Api")])
        (u "intro")
  = (Some (Topic.Make (u "index") (u "Home")), Some (Topic.Make (u "api") (u "Api"))).
Proof.
  apply (proj1 pager_spec [Topic.Make (u "index") (u "Home")]
           (Topic.Make (u "intro") (u "Intro")) [Topic.Make (u "api") (u "Api")]).
  repeat constructor. discriminate.
Defined.

Lemma pager_found topics cur :
  pager topics cur <> (None, None) ->
  exists before c after,
    topics = before ++ c :: after
    /\ Forall (fun t => eqs (Topic.slug t) cur = false) before
    /\ Topic.slug c = cur.
Proof.
  intros H.
  assert (Hdec : forall t : Topic.t,
            {eqs (Topic.slug t) cur = true} + {eqs (Topic.slug t) cur <> true}).
  { intros t. destruct (eqs (Topic.slug t) cur); [left|right]; congruence. }
  destruct (List.Exists_dec (fun t => eqs (Topic.slug t) cur = true) topics Hdec) as [He|Hn].
  - destruct (find_first_split _ _ He) as (b & c & a & -> & Hb & Hc).
    exists b, c, a. split; [reflexivity|]. split; [exact Hb|apply eqs_true, Hc].
  - exfalso. apply H, pager_absent. apply List.Forall_forall. intros t Ht.
    destruct (eqs (Topic.slug t) cur) eqn:E; [|reflexivity].
    exfalso. apply Hn. apply List.Exists_exists. exists t. split; assumption.
Qed.

(** X16: when the slugs of the topics are pairwise distinct, following the next
    link and then the previous link leads back to the current topic, and
    likewise the other way round. *)
Theorem pager_round_trip topics cur :
  NoDup (List.map Topic.slug topics) ->
  (forall n, snd (pager topics cur) = Some n ->
     exists c, fst (pager topics (Topic.slug n)) = Some c /\ Topic.slug c = cur)
  /\ (forall p, fst (pager topics cur) = Some p ->
        exists c, snd (pager topics (Topic.slug p)) = Some c /\ Topic.slug c = cur).
Proof.
  intros Hnd. split.
  - intros n Hn.
    destruct (pager_found topics cur) as (b & c & a & -> & Hb & Hc).
    { intros E. rewrite E in Hn. discriminate. }
    rewrite (pager_at b c a cur Hb) in Hn by (rewrite Hc; apply eqs_refl).
    cbn [snd] in Hn. destruct a as [|n' a']; [discriminate|].
    injection Hn as ->.
    exists c. split; [|exact Hc].
    replace (b ++ c :: n :: a') with ((b ++ [c]) ++ n :: a')
      by (rewrite <- app_assoc; reflexivity).
    rewrite pager_at; [cbn [fst]; apply last_snoc| |apply eqs_refl].
    replace (b ++ c :: n :: a') with ((b ++ [c]) ++ n :: a') in Hnd
      by (rewrite <- app_assoc; reflexivity).
    rewrite map_app in Hnd. cbn [List.map] in Hnd.
    apply NoDup_app in Hnd as (_ & Hdis & _).
    apply List.Forall_forall. intros t Ht. apply eqs_false. intros E.
    apply (Hdis (Topic.slug t)).
    + apply list_elem_of_In, in_map, Ht.
    + rewrite E. left.
  - intros p Hp.
    destruct (pager_found topics cur) as (b & c & a & -> & Hb & Hc).
    { intros E. rewrite E in Hp. discriminate. }
    rewrite (pager_at b c a cur Hb) in Hp by (rewrite Hc; apply eqs_refl).
    cbn [fst] in Hp.
    destruct b as [|x xs]; [discriminate|].
    destruct (exists_last (l := x :: xs)) as (b' & z & Hz); [discriminate|].
    rewrite Hz in *. clear Hz x xs.
    rewrite last_snoc in Hp. injection Hp as ->.
    exists c. split; [|exact Hc].
    rewrite <- app_assoc. cbn [app].
    rewrite pager_at; [reflexivity| |apply eqs_refl].
    rewrite <- app_assoc in Hnd. cbn [app] in Hnd.
    rewrite map_app in Hnd. cbn [List.map] in Hnd.
    apply NoDup_app in Hnd as (_ & Hdis & _).
    apply List.Forall_forall. intros t Ht. apply eqs_false. intros E.
    apply (Hdis (Topic.slug t)).
    + apply list_elem_of_In, in_map, Ht.
    + rewrite E. left.
Qed.

Lemma pager_round_trip_witness :
  exists c,
    fst (pager [Topic.Make (u "index") (u "Home"); Topic.Make (u "intro") (u "Intro")]
               (Topic.slug (Topic.Make (u "intro") (u "Intro")))) = Some c
    /\ Topic.slug c = u "index".
Proof.
  apply (proj1 (pager_round_trip
                  [Topic.Make (u "index") (u "Home"); Topic.Make (u "intro") (u "Intro")]
                  (u "index")
                  ltac:(apply (bool_decide_unpack _); vm_compute; exact I))).
  reflexivity.
Defined.

(** ** The rows of the outline *)

Lemma u_inj a b : u a = u b -> a = b.
Proof.
  unfold u. intros H.
  assert (Hl : list_ascii_of_string a = list_ascii_of_string b).
  { revert H. generalize (list_ascii_of_string a), (list_ascii_of_string b).
    induction l as [|x l IH]; intros [|y l'] H; try discriminate; [reflexivity|].
    cbn [List.map] in H. injection H as Hx Hl. f_equal; [|apply IH, Hl].
    unfold chr in Hx. rewrite <- (ascii_N_embedding x), <- (ascii_N_embedding y).
    rewrite Hx. reflexivity. }
  rewrite <- (string_of_list_ascii_of_string a), <- (string_of_list_ascii_of_string b).
  rewrite Hl. reflexivity.
Qed.

Lemma decimal_inj n m : decimal n = decimal m -> n = m.
Proof.
  unfold decimal. intros H. apply u_inj in H.
  assert (Hd : Nat.to_uint n = Nat.to_uint m).
  { pose proof (NilEmpty.usu (Nat.to_uint n)) as Hn.
    pose proof (NilEmpty.usu (Nat.to_uint m)) as Hm.
    rewrite H in Hn. rewrite Hn in Hm. injection Hm as Hm. exact Hm. }
  rewrite <- (Unsigned.of_to n), <- (Unsigned.of_to m), Hd. reflexivity.
Qed.

Lemma decimal_digits n : forallb isDigit (decimal n) = true.
Proof.
  unfold decimal. generalize (Nat.to_uint n). intros d.
  induction d; cbn; try exact IHd; reflexivity.
Qed.

Lemma tocKey_inj i j n m : tocKey i n = tocKey j m -> n = m.
Proof.
  unfold tocKey. intros H. apply decimal_inj.
  apply (f_equal (@rev jchar)) in H.
  rewrite !rev_app_distr in H. change (u "-") with [chr "-"] in H.
  cbn [rev app] in H. rewrite <- !app_assoc in H. cbn [app] in H.
  assert (Hr : forall k, forallb isDigit (rev (decimal k)) = true).
  { intros k. apply Forall_forallb. apply Forall_rev.
    apply Forall_forallb, decimal_digits. }
  pose proof (takeWhile_app_stop isDigit (rev (decimal n)) (chr "-")
                (rev (TocItem.id i)) (Hr n) eq_refl) as [Hn _].
  pose proof (takeWhile_app_stop isDigit (rev (decimal m)) (chr "-")
                (rev (TocItem.id j)) (Hr m) eq_refl) as [Hm _].
  rewrite H in Hn. rewrite Hn in Hm.
  apply (f_equal (@rev jchar)) in Hm. rewrite !rev_involutive in Hm. exact Hm.
Qed.

(** X17: the rows of the outline are the entries of level 1 to 3, in order;
    a row is indented exactly when its level is 3; and no two rows have the
    same key, even when their ids are equal. *)
Theorem outline_rows toLowerCase content :
  NoDup (tocKeys (toc toLowerCase content))
  /\ length (tocKeys (toc toLowerCase content))
     = length (shownToc (toc toLowerCase content))
  /\ (forall e, In e (shownToc (toc toLowerCase content)) <->
                In e (toc toLowerCase content) /\ (1 <= TocItem.level e <= 3)%nat)
  /\ (forall e, In e (shownToc (toc toLowerCase content)) ->
                (tocIndented e = true <-> TocItem.level e = 3%nat)).
Proof.
  assert (Hshown : forall e, In e (shownToc (toc toLowerCase content)) <->
            In e (toc toLowerCase content) /\ (1 <= TocItem.level e <= 3)%nat).
  { intros e. unfold shownToc. rewrite filter_In, Nat.leb_le. split.
    - intros [He Hl]. split; [exact He|].
      destruct (toc_In _ _ _ He) as [line [_ Hline]].
      apply tocLine_fields in Hline as [Hlev _]. lia.
    - intros [He Hl]. split; [exact He|lia]. }
  split; [|split; [|split; [exact Hshown|]]].
  - unfold tocKeys. apply NoDup_alt. intros a b k Ha Hb.
    rewrite list_lookup_imap in Ha, Hb.
    destruct (shownToc (toc toLowerCase content) !! a) as [ea|]; [|discriminate].
    destruct (shownToc (toc toLowerCase content) !! b) as [eb|]; [|discriminate].
    cbn in Ha, Hb. injection Ha as Ha. injection Hb as Hb.
    eapply tocKey_inj. rewrite Ha, Hb. reflexivity.
  - unfold tocKeys. apply length_imap.
  - intros e He. apply Hshown in He as [_ Hl]. unfold tocIndented.
    rewrite Nat.ltb_lt. lia.
Qed.

Lemma outline_rows_witness :
  In (TocItem.Make (u "same") (u "Same") 3)
     (shownToc (toc lowerAsciiOnly (u "### Same" ++ [LF] ++ u "#### Deep"
                                    ++ [LF] ++ u "### Same")))
  /\ tocIndented (TocItem.Make (u "same") (u "Same") 3) = true.
Proof.
  assert (H : In (TocItem.Make (u "same") (u "Same") 3)
                (shownToc (toc lowerAsciiOnly (u "### Same" ++ [LF] ++ u "#### Deep"
                                               ++ [LF] ++ u "### Same"))))
    by (vm_compute; left; reflexivity).
  split; [exact H|].
  destruct (outline_rows lowerAsciiOnly
              (u "### Same" ++ [LF] ++ u "#### Deep" ++ [LF] ++ u "### Same"))
    as (_ & _ & _ & Hi).
  apply (Hi _ H). reflexivity.
Defined.

(** ** The active heading *)

Lemma head_sort_max (a : list Entry.t) e b :
  Forall (fun x => (Entry.intersectionRatio x < Entry.intersectionRatio e)%Q) a ->
  Forall (fun x => (Entry.intersectionRatio x <= Entry.intersectionRatio e)%Q) b ->
  exists t, sort byRatioDesc (a ++ e :: b) = e :: t.
Proof.
  intros Ha Hb. induction Ha as [|x a Hx _ IH].
  - cbn [app]. unfold sort. cbn [fold_right]. fold (sort byRatioDesc b).
    pose proof (sort_perm byRatioDesc b) as Hp.
    destruct (sort byRatioDesc b) as [|y t] eqn:E; [exists []; reflexivity|].
    cbn [insertSorted].
    assert (Hy : (Entry.intersectionRatio y <= Entry.intersectionRatio e)%Q).
    { rewrite List.Forall_forall in Hb. apply Hb.
      eapply Permutation_in; [exact Hp|]. left. reflexivity. }
    apply (proj1 (Qle_alt _ _)) in Hy. unfold byRatioDesc.
    destruct (Qcompare _ _) eqn:Ec; [eexists; reflexivity..|congruence].
  - destruct IH as [t Ht]. cbn [app]. unfold sort in *. cbn [fold_right].
    rewrite Ht. cbn [insertSorted]. unfold byRatioDesc at 1.
    apply (proj1 (Qlt_alt _ _)) in Hx.
    assert (Hgt : Qcompare (Entry.intersectionRatio e) (Entry.intersectionRatio x) = Gt).
    { rewrite <- Qcompare_antisym, Hx. reflexivity. }
    rewrite Hgt. eexists. reflexivity.
Qed.

Lemma filter_none {A} (p : A -> bool) l :
  Forall (fun x => p x = false) l -> List.filter p l = [].
Proof.
  induction 1 as [|x l Hx _ IH]; [reflexivity|]. cbn [List.filter]. rewrite Hx. exact IH.
Qed.

(** X18: the observer makes active the id of the intersecting entry with the
    largest ratio, the earliest one among equals; when that entry has an
    empty id, or when no entry intersects, the active id stays as it is. *)
Theorem onIntersect_spec activeId :
  (forall entries,
     forallb (fun x => negb (Entry.isIntersecting x)) entries = true ->
     onIntersect entries activeId = activeId)
  /\ (forall pre e post,
        Entry.isIntersecting e = true ->
        (forall x, In x pre -> Entry.isIntersecting x = true ->
                   (Entry.intersectionRatio x < Entry.intersectionRatio e)%Q) ->
        (forall x, In x post -> Entry.isIntersecting x = true ->
                   (Entry.intersectionRatio x <= Entry.intersectionRatio e)%Q) ->
        onIntersect (pre ++ e :: post) activeId
        = if isEmpty (Entry.targetId e) then activeId else Entry.targetId e).
Proof.
  split.
  - intros entries H. unfold onIntersect. rewrite filter_none; [reflexivity|].
    apply List.Forall_forall. intros x Hx. rewrite forallb_forall in H.
    apply negb_true_iff, H, Hx.
  - intros pre e post He Hpre Hpost. unfold onIntersect.
    rewrite List.filter_app. cbn [List.filter]. rewrite He.
    destruct (head_sort_max (List.filter Entry.isIntersecting pre) e
                (List.filter Entry.isIntersecting post)) as [t Ht].
    + apply List.Forall_forall. intros x Hx. apply filter_In in Hx as [Hx Hi].
      apply Hpre; assumption.
    + apply List.Forall_forall. intros x Hx. apply filter_In in Hx as [Hx Hi].
      apply Hpost; assumption.
    + rewrite Ht. destruct (isEmpty (Entry.targetId e)); reflexivity.
Qed.

Lemma onIntersect_spec_witness :
  onIntersect ([Entry.Make true (1 # 4) (u "a"); Entry.Make false 1 (u "hidden")]
               ++ Entry.Make true (1 # 2) (u "b") :: [Entry.Make true (1 # 2) (u "c")])
              (u "old")
  = u "b".
Proof.
  apply (proj2 (onIntersect_spec (u "old"))
           [Entry.Make true (1 # 4) (u "a"); Entry.Make false 1 (u "hidden")]
           (Entry.Make true (1 # 2) (u "b")) [Entry.Make true (1 # 2) (u "c")]).
  - reflexivity.
  - intros x [<-|[<-|[]]] Hx; [reflexivity|discriminate].
  - intros x [<-|[]] _. cbn. discriminate.
Defined.

(** ** Requests and the cache *)

Section LoadFacts.

Variable docFiles : list (jstring * loader).
Variable localeCompare : jstring -> jstring -> comparison.

Lemma sameCache_refl st : sameCache st st.
Proof. repeat split. Qed.

Lemma sameCache_trans a b c : sameCache a b -> sameCache b c -> sameCache a c.
Proof. intros (A1 & A2 & A3) (B1 & B2 & B3). repeat split; congruence. Qed.

Lemma sameCache_sym a b : sameCache a b -> sameCache b a.
Proof. intros (A1 & A2 & A3). repeat split; congruence. Qed.

Lemma allCached_same st st' : sameCache st st' -> allCached st -> allCached st'.
Proof.
  intros (A1 & A2 & A3) [H1 H2]. unfold allCached. rewrite A1, A2, A3.
  split; assumption.
Qed.

Lemma loadDoc_allCached k l st :
  lookupFile docFiles k = Some l -> allCached st ->
  allCached (snd (loadDoc docFiles k st)).
Proof.
  intros Hl [H1 H2]. destruct (docCache st !! k) as [p|] eqn:Ek.
  - rewrite (loadDoc_hit docFiles k l p st Hl Ek). split; assumption.
  - destruct (loadDoc_miss docFiles k l st Hl Ek) as (_ & Hc & Hp & Hcalls).
    unfold allCached. rewrite Hc, Hp, Hcalls, !length_app. cbn [length].
    split; [lia|]. intros p Hp'.
    destruct (decide (p = length (promises st))) as [->|Hne].
    + exists k. apply lookup_insert_eq.
    + destruct (H2 p ltac:(lia)) as [k' Hk']. exists k'.
      rewrite lookup_insert_ne; [exact Hk'|]. intros ->. congruence.
Qed.

Lemma loadAll_allCached its : forall st,
  Forall (fun i => is_Some (lookupFile docFiles (Item.fileKey i))) its ->
  allCached st -> allCached (snd (loadAll docFiles its st)).
Proof.
  induction its as [|i its IH]; intros st Hall Hst; cbn [loadAll]; [exact Hst|].
  inversion Hall as [|? ? [l Hl] Hrest]; subst.
  pose proof (loadDoc_allCached _ _ st Hl Hst) as H1.
  destruct (loadDoc docFiles (Item.fileKey i) st) as [p st1]. cbn [snd] in H1.
  specialize (IH st1 Hrest H1).
  destruct (loadAll docFiles its st1) as [es st2]. exact IH.
Qed.

Lemma loadAll_hits its : forall st,
  Forall (fun i => is_Some (lookupFile docFiles (Item.fileKey i))
                   /\ is_Some (docCache st !! Item.fileKey i)) its ->
  snd (loadAll docFiles its st) = st.
Proof.
  induction its as [|i its IH]; intros st Hall; cbn [loadAll]; [reflexivity|].
  inversion Hall as [|? ? [[l Hl] [p Hp]] Hrest]; subst.
  rewrite (loadDoc_hit docFiles _ l p st Hl Hp).
  specialize (IH st Hrest). destruct (loadAll docFiles its st) as [es st2].
  exact IH.
Qed.

(** The effect in three steps: bookkeeping, the request for the content,
    the requests of stage 2. *)
Lemma runEffect_shape language desired st :
  exists stA stB,
    sameCache st stA
    /\ ((exists k l,
           resolved docFiles localeCompare language desired = Some k
           /\ lookupFile docFiles k = Some l
           /\ sameCache (snd (loadDoc docFiles k stA)) stB
           /\ content stB = content st)
        \/ (sameCache stA stB /\ content stB = notFound language desired
            /\ (resolved docFiles localeCompare language desired = None
                \/ exists k, resolved docFiles localeCompare language desired = Some k
                             /\ lookupFile docFiles k = None)))
    /\ sameCache
         (snd (loadAll docFiles (items docFiles localeCompare language) stB))
         (runEffect docFiles localeCompare language desired st)
    /\ content (runEffect docFiles localeCompare language desired st) = content stB.
Proof.
  unfold runEffect. rewrite unlessCancelled_fresh.
  set (st1 := setTopics _ _).
  assert (Hc1 : sameCache st st1) by (repeat split).
  assert (Hcont : content st1 = content st) by reflexivity.
  clearbody st1. exists st1.
  assert (Hstage : forall stB,
    sameCache
      (snd (loadAll docFiles (items docFiles localeCompare language) stB))
      (let '(entries, st0) :=
         loadAll docFiles (items docFiles localeCompare language) stB in
       setPending (pending st0 ++ [OnTopics (length (cancelled st)) entries]) st0)
    /\ content
         (let '(entries, st0) :=
            loadAll docFiles (items docFiles localeCompare language) stB in
          setPending (pending st0 ++ [OnTopics (length (cancelled st)) entries]) st0)
       = content stB).
  { intros stB.
    destruct (loadAll_spec docFiles (items docFiles localeCompare language) stB)
      as [(Hv & _) _].
    destruct (loadAll docFiles (items docFiles localeCompare language) stB)
      as [entries st0].
    cbn [snd] in *. split; [repeat split|exact Hv]. }
  destruct (resolved docFiles localeCompare language desired) as [k|] eqn:Hres.
  - destruct (lookupFile docFiles k) as [l|] eqn:Hl.
    + pose proof (loadDoc_view docFiles k st1) as (Hv & _).
      destruct (loadDoc docFiles k st1) as [p st2] eqn:Eload.
      cbn [snd] in Hv.
      eexists. split; [exact Hc1|]. split; [|apply Hstage].
      left. exists k, l. split; [reflexivity|]. split; [exact Hl|].
      rewrite Eload. cbn [snd]. split; [repeat split|].
      cbn [setPending content]. congruence.
    + eexists. split; [exact Hc1|]. split; [|apply Hstage].
      right. split; [repeat split|]. split; [reflexivity|].
      right. exists k. split; [reflexivity|exact Hl].
  - eexists. split; [exact Hc1|]. split; [|apply Hstage].
    right. split; [repeat split|]. split; [reflexivity|]. left. reflexivity.
Qed.

Lemma runEffect_allCached language desired st :
  allCached st -> allCached (runEffect docFiles localeCompare language desired st).
Proof.
  intros Hst.
  destruct (runEffect_shape language desired st) as (stA & stB & HA & HB & HC & _).
  eapply allCached_same; [exact HC|].
  apply loadAll_allCached; [apply keys_have_loaders|].
  destruct HB as [(k & l & _ & Hl & Hs & _)|(Hs & _)].
  - eapply allCached_same; [exact Hs|].
    eapply loadDoc_allCached; [exact Hl|]. eapply allCached_same; eassumption.
  - eapply allCached_same; [exact Hs|]. eapply allCached_same; eassumption.
Qed.

Lemma step_allCached st ev :
  cacheOk docFiles st -> pageOk docFiles localeCompare st ->
  allCached st -> allCached (step docFiles localeCompare st ev).
Proof.
  intros Hok Hpage Hst. destruct ev as [language topic| |p|i]; cbn [step].
  - unfold render. destruct (mounted st) as [m|].
    + destruct (_ && _); [exact Hst|].
      apply runEffect_allCached. eapply allCached_same; [apply cleanup_cache|exact Hst].
    + apply runEffect_allCached, Hst.
  - eapply allCached_same; [apply cleanup_cache|exact Hst].
  - destruct Hst as [H1 H2]. destruct (settle_cache docFiles p st) as [Hc Hl].
    unfold allCached. rewrite settle_length, Hc, Hl. split; assumption.
  - eapply allCached_same; [|exact Hst].
    apply (runCallback_spec docFiles localeCompare i st Hok Hpage).
Qed.

Lemma reachable_allCached evs :
  allCached (exec_events docFiles localeCompare evs initial).
Proof.
  induction evs as [|ev evs IH] using rev_ind.
  - split; [reflexivity|]. intros p Hp. cbn in Hp. lia.
  - rewrite exec_events_app. cbn [exec_events fold_left].
    destruct (reachable_ok docFiles localeCompare evs) as [Hok Hpage].
    apply step_allCached; assumption.
Qed.

(** X19: the page never asks [loadDoc] for a key without a loader: at any
    time every promise obtained is the cached promise of a key of the store,
    created together with one call of that key's loader. *)
Theorem loadDoc_known_keys evs :
  let st := exec_events docFiles localeCompare evs initial in
  length (promises st) = length (loaderCalls st)
  /\ forall p, (p < length (promises st))%nat ->
       exists k, docCache st !! k = Some p
                 /\ is_Some (lookupFile docFiles k)
                 /\ In k (loaderCalls st).
Proof.
  intros st. destruct (reachable_allCached evs) as [H1 H2]. fold st in H1, H2.
  destruct (reachable_ok docFiles localeCompare evs) as [Hok _]. fold st in Hok.
  split; [exact H1|]. intros p Hp. destruct (H2 p Hp) as [k Hk].
  exists k. split; [exact Hk|].
  destruct (cache_promise _ _ Hok k p Hk) as (l & Hl & _).
  split; [rewrite Hl; eexists; reflexivity|].
  apply (cache_calls _ _ Hok). rewrite Hk. eexists. reflexivity.
Qed.

Lemma languageCached_grows language st st' :
  cacheGrows st st' -> languageCached docFiles language st ->
  languageCached docFiles language st'.
Proof.
  intros Hg H k Hk. destruct (H k Hk) as [p Hp]. exists p. apply Hg, Hp.
Qed.

Lemma runEffect_languageCached language desired st :
  languageCached docFiles language
    (runEffect docFiles localeCompare language desired st).
Proof.
  destruct (runEffect_spec docFiles localeCompare language desired st)
    as (_ & _ & _ & _ & _ & entries & Hent & _).
  intros k Hk.
  assert (Hin : In (toItem k) (items docFiles localeCompare language))
    by (apply items_In; exists k; split; [exact Hk|reflexivity]).
  revert Hin. generalize (toItem_fileKey k). generalize (toItem k). intros i Hi Hin.
  induction Hent as [|e j es js [He _] _ IH]; [destruct Hin|].
  destruct Hin as [->|Hin]; [|exact (IH Hin)].
  rewrite <- Hi, He. eexists. reflexivity.
Qed.

(** After a render the documents of the mounted language are all cached. *)
Lemma mounted_languageCached evs m :
  mounted (exec_events docFiles localeCompare evs initial) = Some m ->
  languageCached docFiles (mlanguage m)
    (exec_events docFiles localeCompare evs initial).
Proof.
  revert m. induction evs as [|ev evs IH] using rev_ind; intros m; [discriminate|].
  rewrite exec_events_app. cbn [exec_events fold_left].
  destruct (reachable_ok docFiles localeCompare evs) as [Hok Hpage].
  set (st := exec_events docFiles localeCompare evs initial) in *.
  destruct (step_spec docFiles localeCompare st ev Hok Hpage) as (_ & _ & Hg).
  destruct ev as [language topic| |p|i].
  - cbn [step]. unfold render. destruct (mounted st) as [m0|] eqn:Em.
    + destruct (_ && _) eqn:Esame.
      * rewrite Em. intros [= <-]. apply IH. reflexivity.
      * intros Hm.
        destruct (runEffect_spec docFiles localeCompare language topic (cleanup st))
          as (_ & Hm' & _).
        rewrite Hm' in Hm. injection Hm as <-. apply runEffect_languageCached.
    + intros Hm.
      destruct (runEffect_spec docFiles localeCompare language topic st)
        as (_ & Hm' & _).
      rewrite Hm' in Hm. injection Hm as <-. apply runEffect_languageCached.
  - cbn [step]. rewrite cleanup_mounted. discriminate.
  - rewrite (quiet_mounted docFiles localeCompare (Settle p) st eq_refl).
    intros Hm. eapply languageCached_grows; [exact Hg|]. apply IH, Hm.
  - rewrite (quiet_mounted docFiles localeCompare (Run i) st eq_refl).
    intros Hm. eapply languageCached_grows; [exact Hg|]. apply IH, Hm.
Qed.

Lemma rendered_languageCached evs0 language topic evs :
  languageCached docFiles language
    (exec_events docFiles localeCompare (evs0 ++ Render language topic :: evs) initial).
Proof.
  replace (evs0 ++ Render language topic :: evs)
    with ((evs0 ++ [Render language topic]) ++ evs)
    by (rewrite <- app_assoc; reflexivity).
  rewrite exec_events_app.
  destruct (reachable_ok docFiles localeCompare (evs0 ++ [Render language topic]))
    as [Hok Hpage].
  destruct (exec_events_ok docFiles localeCompare evs _ Hok Hpage) as (_ & _ & Hg).
  eapply languageCached_grows; [exact Hg|].
  assert (Hm : exists m,
            mounted (exec_events docFiles localeCompare
                       (evs0 ++ [Render language topic]) initial) = Some m
            /\ mlanguage m = language).
  { rewrite exec_events_app. cbn [exec_events fold_left step].
    destruct (render_mounted docFiles localeCompare language topic
                (exec_events docFiles localeCompare evs0 initial))
      as (m & Hm & Hl & _).
    exists m. split; assumption. }
  destruct Hm as (m & Hm & <-). apply mounted_languageCached, Hm.
Qed.

(** X20: rendering any topic of a language invokes the loader of every
    document of that language: from then on each of them is cached and has
    had its loader called. *)
Theorem render_loads_language evs0 language topic evs k :
  In k (keys docFiles language) ->
  let st := exec_events docFiles localeCompare
              (evs0 ++ Render language topic :: evs) initial in
  is_Some (docCache st !! k) /\ In k (loaderCalls st).
Proof.
  intros Hk st.
  pose proof (rendered_languageCached evs0 language topic evs k Hk) as Hc.
  fold st in Hc. split; [exact Hc|].
  destruct (reachable_ok docFiles localeCompare
              (evs0 ++ Render language topic :: evs)) as [Hok _].
  apply (cache_calls _ _ Hok), Hc.
Qed.

Lemma runEffect_sameCache language desired st :
  languageCached docFiles language st ->
  sameCache st (runEffect docFiles localeCompare language desired st).
Proof.
  intros Hcached.
  destruct (runEffect_shape language desired st) as (stA & stB & HA & HB & HC & _).
  assert (HAB : sameCache stA stB).
  { destruct HB as [(k & l & Hres & Hl & Hs & _)|(Hs & _)]; [|exact Hs].
    destruct (Hcached k (resolved_key _ _ _ _ _ Hres)) as [p Hp].
    destruct HA as (A1 & _). rewrite <- A1 in Hp.
    rewrite (loadDoc_hit docFiles k l p stA Hl Hp) in Hs. exact Hs. }
  eapply sameCache_trans; [exact HA|]. eapply sameCache_trans; [exact HAB|].
  rewrite loadAll_hits in HC; [exact HC|].
  apply List.Forall_forall. intros i Hi.
  pose proof (keys_have_loaders docFiles localeCompare language) as Hl.
  rewrite List.Forall_forall in Hl. split; [apply Hl, Hi|].
  apply items_In in Hi as (k & Hk & ->). rewrite toItem_fileKey.
  destruct (Hcached k Hk) as [p Hp]. exists p.
  destruct HA as (A1 & _). destruct HAB as (B1 & _). congruence.
Qed.

(** X21: once a language has been rendered, rendering another topic of it
    invokes no loader and creates no promise: the cache is left as it is. *)
Theorem same_language_no_fetch evs0 language a evs b :
  let st := exec_events docFiles localeCompare
              (evs0 ++ Render language a :: evs) initial in
  let st' := step docFiles localeCompare st (Render language b) in
  loaderCalls st' = loaderCalls st
  /\ docCache st' = docCache st
  /\ promises st' = promises st.
Proof.
  intros st st'.
  pose proof (rendered_languageCached evs0 language a evs) as Hc. fold st in Hc.
  assert (Hs : sameCache st st').
  { subst st'. cbn [step]. unfold render. destruct (mounted st) as [m|].
    - destruct (_ && _); [apply sameCache_refl|].
      eapply sameCache_trans; [apply cleanup_cache|].
      apply runEffect_sameCache.
      eapply languageCached_grows; [|exact Hc].
      apply cacheGrows_same. apply (cleanup_cache st).
    - apply runEffect_sameCache, Hc. }
  destruct Hs as (S1 & S2 & S3). repeat split; assumption.
Qed.

(** X22: after the page is unmounted, no settlement and no callback changes
    the content or the topics. *)
Theorem unmounted_never_writes evs0 evs :
  quiet evs = true ->
  let st1 := exec_events docFiles localeCompare (evs0 ++ [Unmount]) initial in
  let st := exec_events docFiles localeCompare evs st1 in
  content st = content st1 /\ topics st = topics st1 /\ mounted st = None.
Proof.
  intros Hq st1 st.
  destruct (reachable_ok docFiles localeCompare (evs0 ++ [Unmount])) as [Hok Hpage].
  fold st1 in Hok, Hpage.
  assert (Hm1 : mounted st1 = None).
  { subst st1. rewrite exec_events_app. cbn [exec_events fold_left step].
    apply cleanup_mounted. }
  subst st.
  apply (quiet_fold docFiles localeCompare
           (fun s => (cacheOk docFiles s /\ pageOk docFiles localeCompare s)
                     /\ content s = content st1 /\ topics s = topics st1
                     /\ mounted s = None)); [|exact Hq|tauto].
  intros s ev Hev ((Hoks & Hpages) & Hcs & Hts & Hms).
  destruct (step_spec docFiles localeCompare s ev Hoks Hpages) as (Hok' & Hpage' & _).
  destruct (quiet_writes docFiles localeCompare ev s Hoks Hpages Hev)
    as (Hc & Ht & _).
  split; [split; assumption|].
  split; [|split].
  - destruct Hc as [Hc|(m & Hm & _)]; [congruence|congruence].
  - destruct Ht as [Ht|(m & Hm & _)]; [congruence|congruence].
  - rewrite (quiet_mounted docFiles localeCompare ev s Hev). exact Hms.
Qed.


End LoadFacts.

Lemma loadDoc_known_keys_witness :
  exists k,
    docCache (exec_events sampleFiles codeUnitCompare [Render (u "en") (u "index")]
                initial) !! k = Some 0%nat
    /\ is_Some (lookupFile sampleFiles k)
    /\ In k (loaderCalls (exec_events sampleFiles codeUnitCompare
                            [Render (u "en") (u "index")] initial)).
Proof.
  apply (proj2 (loadDoc_known_keys sampleFiles codeUnitCompare
                  [Render (u "en") (u "index")]) 0%nat).
  vm_compute. lia.
Defined.

Lemma render_loads_language_witness :
  In (u "../content/en/bad.md")
     (loaderCalls (exec_events sampleFiles codeUnitCompare
                     ([] ++ Render (u "en") (u "index") :: [Settle 0]) initial)).
Proof.
  apply (render_loads_language sampleFiles codeUnitCompare [] (u "en") (u "index")
           [Settle 0] (u "../content/en/bad.md")).
  vm_compute. right. right. left. reflexivity.
Defined.

Lemma unmounted_never_writes_witness :
  content (exec_events sampleFiles codeUnitCompare [Settle 0; Run 0; Run 0]
             (exec_events sampleFiles codeUnitCompare
                ([Render (u "en") (u "index")] ++ [Unmount]) initial))
  = [].
Proof.
  apply (unmounted_never_writes sampleFiles codeUnitCompare
           [Render (u "en") (u "index")] [Settle 0; Run 0; Run 0]).
  reflexivity.
Defined.


Section IndexPage.

Variable docFiles : list (jstring * loader).
Variable localeCompare : jstring -> jstring -> comparison.
Hypothesis locale_antisym :
  forall a b, localeCompare b a = CompOpp (localeCompare a b).
Hypothesis locale_trans :
  forall a b c, localeCompare a b <> Gt -> localeCompare b c <> Gt ->
                localeCompare a c <> Gt.

Lemma refinedTopic_slug i : Topic.slug (refinedTopic docFiles i) = Item.displaySlug i.
Proof.
  unfold refinedTopic. destruct (lookupFile docFiles (Item.fileKey i)) as [[raw|]|];
    reflexivity.
Qed.

(** X24: on the index page of a language that has an index file there is no
    previous link, before and after the titles are refined. *)
Theorem index_has_no_previous language k evs0 evs :
  In k (keys docFiles language) -> Item.slug (toItem k) = u "index" ->
  quiet evs = true ->
  let st := exec_events docFiles localeCompare
              (evs0 ++ Render language (u "index") :: evs) initial in
  fst (pager (topics st) (u "index")) = None.
Proof using locale_antisym locale_trans.
  intros Hk Hs Hq st.
  destruct (items_head_index localeCompare locale_antisym locale_trans
              docFiles language k Hk Hs) as (h & rest & Hit & _ & Hd & _).
  assert (Hst : st = exec_events docFiles localeCompare evs
                       (exec_events docFiles localeCompare
                          (evs0 ++ [Render language (u "index")]) initial)).
  { subst st. rewrite <- exec_events_app, <- app_assoc. reflexivity. }
  destruct (after_render docFiles localeCompare evs0 language (u "index") evs Hq)
    as (_ & Hpage & (m & Hm & Hl & _) & _).
  cbn zeta in Hpage, Hm. rewrite <- Hst in Hpage, Hm.
  assert (Htop : exists t ts, topics st = t :: ts /\ Topic.slug t = u "index").
  { destruct (page_topics _ _ _ Hpage m Hm) as [Ht|[Ht _]];
      rewrite Hl, Hit in Ht; cbn [List.map] in Ht; rewrite Ht;
      eexists _, _; (split; [reflexivity|]).
    - rewrite refinedTopic_slug. exact Hd.
    - exact Hd. }
  destruct Htop as (t & ts & -> & Ht).
  change (t :: ts) with ([] ++ t :: ts).
  rewrite (pager_at [] t ts (u "index")); [reflexivity|constructor|].
  rewrite Ht. apply eqs_refl.
Qed.

End IndexPage.

Lemma index_has_no_previous_witness :
  fst (pager (topics (exec_events sampleFiles codeUnitCompare
                        ([] ++ Render (u "en") (u "index") :: [Settle 0; Run 0]) initial))
             (u "index"))
  = None.
Proof.
  apply (index_has_no_previous sampleFiles codeUnitCompare
           codeUnitCompare_antisym codeUnitCompare_trans
           (u "en") (u "../content/en/index.md") [] [Settle 0; Run 0]).
  - vm_compute. left. reflexivity.
  - reflexivity.
  - reflexivity.
Defined.

(** ** Listed topics *)




(** ** Previous and next, by slug *)

Lemma findIndexFrom_slugs cur (l1 l2 : list Topic.t) :
  List.map Topic.slug l1 = List.map Topic.slug l2 ->
  forall i,
    findIndexFrom (fun t => eqs (Topic.slug t) cur) l1 i
    = findIndexFrom (fun t => eqs (Topic.slug t) cur) l2 i.
Proof.
  revert l2. induction l1 as [|a l1 IH]; intros [|b l2] H i; try discriminate;
    [reflexivity|].
  cbn [List.map] in H. injection H as Hs Hl. cbn [findIndexFrom].
  rewrite Hs, (IH l2 Hl). reflexivity.
Qed.

Lemma lookup_slugs (l1 l2 : list Topic.t) n :
  List.map Topic.slug l1 = List.map Topic.slug l2 ->
  option_map Topic.slug (l1 !! n) = option_map Topic.slug (l2 !! n).
Proof.
  revert l2 n. induction l1 as [|a l1 IH]; intros [|b l2] n H; try discriminate;
    [reflexivity|].
  cbn [List.map] in H. injection H as Hs Hl.
  destruct n as [|n]; cbn; [rewrite Hs; reflexivity|apply IH, Hl].
Qed.

(** X26: the previous and the next link lead to topics with the same slugs
    for any two topic lists with the same slugs in the same order; so the
    refinement of the titles never changes where the links lead. *)
Theorem pager_slugs :
  (forall l1 l2 cur,
     List.map Topic.slug l1 = List.map Topic.slug l2 ->
     option_map Topic.slug (fst (pager l1 cur))
     = option_map Topic.slug (fst (pager l2 cur))
     /\ option_map Topic.slug (snd (pager l1 cur))
        = option_map Topic.slug (snd (pager l2 cur)))
  /\ (forall docFiles localeCompare language cur,
        let first := List.map toTopic (items docFiles localeCompare language) in
        let refined := List.map (refinedTopic docFiles)
                         (items docFiles localeCompare language) in
        option_map Topic.slug (fst (pager refined cur))
        = option_map Topic.slug (fst (pager first cur))
        /\ option_map Topic.slug (snd (pager refined cur))
           = option_map Topic.slug (snd (pager first cur))).
Proof.
  assert (H : forall l1 l2 cur,
     List.map Topic.slug l1 = List.map Topic.slug l2 ->
     option_map Topic.slug (fst (pager l1 cur))
     = option_map Topic.slug (fst (pager l2 cur))
     /\ option_map Topic.slug (snd (pager l1 cur))
        = option_map Topic.slug (snd (pager l2 cur))).
  { intros l1 l2 cur Hs. unfold pager, findIndex. cbn [fst snd].
    rewrite (findIndexFrom_slugs cur l1 l2 Hs).
    assert (Hlen : length l1 = length l2).
    { rewrite <- (length_map Topic.slug l1), Hs. apply length_map. }
    rewrite Hlen. split.
    - destruct (0 <? _)%Z; [apply lookup_slugs, Hs|reflexivity].
    - destruct (_ && _); [apply lookup_slugs, Hs|reflexivity]. }
  split; [exact H|].
  intros docFiles localeCompare language cur first refined. apply H.
  subst first refined. rewrite !List.map_map. apply map_ext.
  intros i. apply refinedTopic_slug.
Qed.

Lemma pager_slugs_witness :
  option_map Topic.slug
    (fst (pager [Topic.Make (u "index") (u "Home"); Topic.Make (u "x") (u "X")] (u "x")))
  = option_map Topic.slug
      (fst (pager [Topic.Make (u "index") (u "Index"); Topic.Make (u "x") (u "Ex")] (u "x"))).
Proof.
  apply (proj1 pager_slugs
           [Topic.Make (u "index") (u "Home"); Topic.Make (u "x") (u "X")]
           [Topic.Make (u "index") (u "Index"); Topic.Make (u "x") (u "Ex")] (u "x")).
  reflexivity.
Defined.

(** ** The outline of the placeholder *)

Lemma split_single sep (s : jstring) :
  Forall (fun c => c <> sep) s -> split sep s = [s].
Proof.
  induction 1 as [|c s Hc _ IH]; [reflexivity|].
  cbn [split]. apply N.eqb_neq in Hc. rewrite Hc, IH. reflexivity.
Qed.

Lemma trim_head c s :
  isSpace c = false -> exists s', trim (c :: s) = c :: s'.
Proof.
  intros Hc. unfold trim, trimStart, trimEnd. cbn [dropWhile]. rewrite Hc.
  cbn [rev]. rewrite (dropWhile_snoc isSpace (rev s) c Hc), rev_app_distr.
  cbn [rev app]. eexists. reflexivity.
Qed.

Section NotFoundOutline.

Variable toLowerCase : jstring -> jstring.
Hypothesis lower_ascii :
  forall s, forallb isAscii s = true -> toLowerCase s = List.map asciiLower s.

(** X27: the outline of the not-found placeholder is the single entry "404"
    of level 1, for a language and a topic holding no line feed. *)
Theorem notFound_outline language desired :
  forallb (fun c => negb (eqc LF c)) (language ++ desired) = true ->
  toc toLowerCase (notFound language desired)
  = [TocItem.Make (u "404") (u "404") 1].
Proof using lower_ascii.
  intros H. unfold notFound.
  change (u "# 404" ++ [LF] ++ u "Not found: " ++ language ++ u "/" ++ desired)
    with (u "# 404" ++ LF :: (u "Not found: " ++ language ++ u "/" ++ desired)).
  rewrite toc_concat.
  rewrite (toc_ascii toLowerCase lower_ascii (u "# 404")) by reflexivity.
  replace (toc lowerAsciiOnly (u "# 404")) with [TocItem.Make (u "404") (u "404") 1]
    by (vm_compute; reflexivity).
  rewrite toc_omap, split_single.
  - cbn [omap list_omap]. rewrite tocLine_direct. unfold tocLineSpec.
    change (u "Not found: " ++ language ++ u "/" ++ desired)
      with (chr "N" :: (u "ot found: " ++ language ++ u "/" ++ desired)).
    destruct (trim_head (chr "N") (u "ot found: " ++ language ++ u "/" ++ desired)
                eq_refl) as [s' ->].
    cbn [takeWhile]. replace (lit "#" (chr "N")) with false by reflexivity.
    reflexivity.
  - apply Forall_app. split; [repeat constructor; discriminate|].
    rewrite forallb_app in H. apply andb_true_iff in H as [Hl Hd].
    assert (Hs : forall l, forallb (fun c => negb (eqc LF c)) l = true ->
                           Forall (fun c => c <> LF) l).
    { intros l Hl'. apply List.Forall_forall. intros c Hc.
      rewrite forallb_forall in Hl'. specialize (Hl' c Hc).
      apply negb_true_iff in Hl'. unfold eqc in Hl'. apply N.eqb_neq, Hl'. }
    apply Forall_app. split; [apply Hs, Hl|].
    apply Forall_app. split; [repeat constructor; discriminate|apply Hs, Hd].
Qed.

End NotFoundOutline.

Lemma notFound_outline_witness :
  toc lowerAsciiOnly (notFound (u "en") (u "bogus"))
  = [TocItem.Make (u "404") (u "404") 1].
Proof.
  apply (notFound_outline lowerAsciiOnly (fun s _ => eq_refl) (u "en") (u "bogus")).
  reflexivity.
Defined.

(** ** Cached values *)

Section CachedValues.

Variable docFiles : list (jstring * loader).
Variable localeCompare : jstring -> jstring -> comparison.

Lemma loadDoc_keeps k st q x :
  promises st !! q = Some x ->
  promises (snd (loadDoc docFiles k st)) !! q = Some x.
Proof.
  intros H. unfold loadDoc. destruct (lookupFile docFiles k).
  - destruct (docCache st !! k); [exact H|]. cbn [snd promises].
    apply lookup_app_some, H.
  - cbn [snd setPromises promises]. apply lookup_app_some, H.
Qed.

Lemma loadAll_keeps its : forall st q x,
  promises st !! q = Some x ->
  promises (snd (loadAll docFiles its st)) !! q = Some x.
Proof.
  induction its as [|i its IH]; intros st q x H; cbn [loadAll]; [exact H|].
  pose proof (loadDoc_keeps (Item.fileKey i) st q x H) as H1.
  destruct (loadDoc docFiles (Item.fileKey i) st) as [p st1]. cbn [snd] in H1.
  specialize (IH st1 q x H1). destruct (loadAll docFiles its st1) as [es st2].
  exact IH.
Qed.

Lemma runEffect_keeps language desired st q x :
  promises st !! q = Some x ->
  promises (runEffect docFiles localeCompare language desired st) !! q = Some x.
Proof.
  intros H.
  destruct (runEffect_shape docFiles localeCompare language desired st)
    as (stA & stB & (_ & HA & _) & HB & (_ & HC & _) & _).
  rewrite HC. apply loadAll_keeps.
  destruct HB as [(k & l & _ & _ & (_ & Hs & _) & _)|((_ & Hs & _) & _)];
    rewrite Hs; [apply loadDoc_keeps|]; rewrite HA; exact H.
Qed.

Lemma step_keeps_fulfilled st ev q d :
  promises st !! q = Some (Fulfilled d) ->
  promises (step docFiles localeCompare st ev) !! q = Some (Fulfilled d).
Proof.
  intros H. destruct ev as [language topic| |p|i]; cbn [step].
  - unfold render. destruct (mounted st) as [m|] eqn:Em.
    + destruct (_ && _); [exact H|]. apply runEffect_keeps.
      unfold cleanup. rewrite Em. exact H.
    + apply runEffect_keeps, H.
  - unfold cleanup. destruct (mounted st); exact H.
  - unfold settle. destruct (promises st !! p) as [[k'| |]|] eqn:Ep; try exact H.
    assert (Hne : p <> q) by (intros ->; congruence).
    destruct (lookupFile docFiles k') as [[raw|]|]; cbn [setPromises promises];
      rewrite list_lookup_insert_ne by exact Hne; exact H.
  - unfold runCallback. destruct (pending st !! i) as [c|]; [|exact H].
    destruct (fire c st) as [st'|] eqn:Ef; [|exact H].
    apply fire_fields in Ef as [_ Hp]. cbn [setPending promises].
    rewrite Hp. exact H.
Qed.

Lemma exec_keeps_fulfilled evs : forall st q d,
  promises st !! q = Some (Fulfilled d) ->
  promises (exec_events docFiles localeCompare evs st) !! q = Some (Fulfilled d).
Proof.
  induction evs as [|ev evs IH]; intros st q d H; [exact H|].
  cbn [exec_events fold_left]. apply IH, step_keeps_fulfilled, H.
Qed.

(** X28: a fulfilled cache entry holds the normalized text and the title of
    what the loader of its key produced, and keeps that value, under the
    same promise, through everything that happens later. *)
Theorem cache_coherent evs k p d :
  let st := exec_events docFiles localeCompare evs initial in
  docCache st !! k = Some p -> promises st !! p = Some (Fulfilled d) ->
  (exists raw, lookupFile docFiles k = Some (Some raw)
               /\ d = DocCacheValue.Make (normalizeMd raw) (heading raw))
  /\ forall more,
       docCache (exec_events docFiles localeCompare more st) !! k = Some p
       /\ promises (exec_events docFiles localeCompare more st) !! p
          = Some (Fulfilled d).
Proof.
  intros st Hk Hp.
  destruct (reachable_ok docFiles localeCompare evs) as [Hok Hpage].
  fold st in Hok, Hpage. split.
  - destruct (cache_promise _ _ Hok k p Hk) as (l & Hl & [Hpend|Hout]);
      [congruence|].
    rewrite Hp in Hout. destruct l as [raw|]; [|discriminate].
    injection Hout as ->. exists raw. split; [exact Hl|reflexivity].
  - intros more. split.
    + destruct (exec_events_ok docFiles localeCompare more st Hok Hpage)
        as (_ & _ & Hg).
      apply Hg, Hk.
    + apply exec_keeps_fulfilled, Hp.
Qed.

(** X29: a render that runs the effect shows at once the first topic list,
    with the fallback titles, whatever the cache holds. *)
Theorem render_shows_first_list st language topic :
  (forall m, mounted st = Some m ->
             mlanguage m <> language \/ mtopic m <> topic) ->
  topics (step docFiles localeCompare st (Render language topic))
  = List.map (fun i => Topic.Make (Item.displaySlug i)
                         (fallbackTitle (Item.displaySlug i)))
      (items docFiles localeCompare language).
Proof.
  intros Hdiff.
  assert (Hrun : forall s,
            topics (runEffect docFiles localeCompare language topic s)
            = List.map (fun i => Topic.Make (Item.displaySlug i)
                                   (fallbackTitle (Item.displaySlug i)))
                (items docFiles localeCompare language)).
  { intros s.
    destruct (runEffect_spec docFiles localeCompare language topic s)
      as (_ & _ & Ht & _).
    rewrite Ht. apply map_ext_in. intros i Hi.
    apply items_In in Hi as (k & _ & ->). rewrite toItem_direct. reflexivity. }
  cbn [step]. unfold render. destruct (mounted st) as [m|] eqn:Em; [|apply Hrun].
  destruct (eqs (mlanguage m) language && eqs (mtopic m) topic) eqn:E;
    [|apply Hrun].
  exfalso. apply andb_true_iff in E as [E1 E2].
  apply eqs_true in E1, E2. destruct (Hdiff m eq_refl); contradiction.
Qed.

End CachedValues.

Lemma cache_coherent_witness :
  exists raw,
    lookupFile sampleFiles (u "../content/en/index.md") = Some (Some raw)
    /\ docValue (u "# Home" ++ [CR; LF] ++ u "Welcome<br>")
       = DocCacheValue.Make (normalizeMd raw) (heading raw).
Proof.
  apply (cache_coherent sampleFiles codeUnitCompare
           [Render (u "en") (u "index"); Settle 0]
           (u "../content/en/index.md") 0%nat
           (docValue (u "# Home" ++ [CR; LF] ++ u "Welcome<br>")));
    vm_compute; reflexivity.
Defined.

Lemma render_shows_first_list_witness :
  topics (step sampleFiles codeUnitCompare initial (Render (u "en") (u "index")))
  = List.map (fun i => Topic.Make (Item.displaySlug i)
                         (fallbackTitle (Item.displaySlug i)))
      (items sampleFiles codeUnitCompare (u "en")).
Proof.
  apply (render_shows_first_list sampleFiles codeUnitCompare initial (u "en") (u "index")).
  intros m Hm. discriminate.
Defined.

(** ** Independence of the enumeration order *)

Lemma sorted_perm_unique {A} (R : A -> A -> Prop) (l1 : list A) :
  forall l2,
    StronglySorted R l1 -> StronglySorted R l2 -> Permutation l1 l2 ->
    (forall a b, In a l1 -> In b l1 -> R a b -> R b a -> a = b) ->
    l1 = l2.
Proof.
  induction l1 as [|x l1 IH]; intros l2 S1 S2 Hp Hanti.
  - apply Permutation_nil in Hp. congruence.
  - destruct l2 as [|y l2].
    { apply Permutation_sym, Permutation_nil in Hp. discriminate. }
    apply StronglySorted_inv in S1 as [S1 H1].
    apply StronglySorted_inv in S2 as [S2 H2].
    rewrite List.Forall_forall in H1, H2.
    assert (Hxy : x = y).
    { assert (Hx : In x (y :: l2))
        by (eapply Permutation_in; [exact Hp|left; reflexivity]).
      assert (Hy : In y (x :: l1))
        by (eapply Permutation_in; [symmetry; exact Hp|left; reflexivity]).
      destruct Hx as [Hx|Hx]; [congruence|].
      destruct Hy as [Hy|Hy]; [congruence|].
      apply Hanti; [left; reflexivity|right; exact Hy|apply H1, Hy|apply H2, Hx]. }
    subst y. f_equal. apply Permutation_cons_inv in Hp.
    apply IH; try assumption.
    intros a b Ha Hb. apply Hanti; right; assumption.
Qed.

Section OrderIndependent.

Variable localeCompare : jstring -> jstring -> comparison.
Hypothesis locale_antisym :
  forall a b, localeCompare b a = CompOpp (localeCompare a b).
Hypothesis locale_trans :
  forall a b c, localeCompare a b <> Gt -> localeCompare b c <> Gt ->
                localeCompare a c <> Gt.

(** X30: two stores that enumerate the same keys of a language in different
    orders give the same list, provided no two entries tie, that is, have
    the same order and titles that compare equal. *)
Theorem items_order_independent files1 files2 language :
  Permutation (keys files1 language) (keys files2 language) ->
  (forall a b, In a (items files1 localeCompare language) ->
               In b (items files1 localeCompare language) ->
               compareItems localeCompare a b = Eq -> a = b) ->
  items files1 localeCompare language = items files2 localeCompare language.
Proof using locale_antisym locale_trans.
  intros Hp Hties.
  apply (sorted_perm_unique (fun a b => compareItems localeCompare a b <> Gt)).
  - apply sort_sorted;
      [apply compareItems_antisym, locale_antisym
      |apply compareItems_trans, locale_trans].
  - apply sort_sorted;
      [apply compareItems_antisym, locale_antisym
      |apply compareItems_trans, locale_trans].
  - unfold items. etransitivity; [apply sort_perm|].
    etransitivity; [|symmetry; apply sort_perm].
    apply Permutation_map, Hp.
  - intros a b Ha Hb Hab Hba. apply Hties; try assumption.
    rewrite (compareItems_antisym localeCompare locale_antisym a b) in Hba.
    destruct (compareItems localeCompare a b); cbn in Hba; congruence.
Qed.

End OrderIndependent.

Lemma items_order_independent_witness :
  items [(u "../content/en/b.md", None); (u "../content/en/01_a.md", None)]
        codeUnitCompare (u "en")
  = items [(u "../content/en/01_a.md", None); (u "../content/en/b.md", None)]
          codeUnitCompare (u "en").
Proof.
  apply (items_order_independent codeUnitCompare codeUnitCompare_antisym
           codeUnitCompare_trans).
  - vm_compute. apply perm_swap.
  - intros a b Ha Hb. vm_compute in Ha, Hb.
    destruct Ha as [<-|[<-|[]]], Hb as [<-|[<-|[]]];
      (reflexivity || (vm_compute; discriminate)).
Defined.
